(** * LHI Directory Monitor: the backend server's parsing and request logic

    A shallow embedding of [src/server/index.js] and the properties of its
    manifest parser, tree builder, exclude parser and request handlers.

    JavaScript strings are modelled as lists of characters ([list ascii],
    code units below 256); numbers that the code obtains with [parseInt]
    are modelled as [N] / [Z], which is exact for every value up to 2^53
    (the range in which a JavaScript number represents integers exactly). *)

From Stdlib Require Import Ascii String NArith ZArith List Lia.
From stdpp Require Import base list gmap strings.

Set Warnings "-register-all,-clear-no-such-hyp".

Open Scope list_scope.

Abbreviation str := (list ascii).

Coercion list_ascii_of_string : string >-> list.

(** ** JavaScript string primitives used by the server *)

Module JS.

(** A JavaScript number as the server meets it: a double that holds an
    integer, [NaN], or an infinity. [Int z] stands for the double whose
    value is [z]; the negative zero is not told apart from zero, which
    [===], truthiness and JSON output do not tell apart either. *)
Inductive number := Int (z : Z) | NaN | Infinity (negative : bool).

Definition code (c : ascii) : N := N_of_ascii c.

(** [WhiteSpace] and [LineTerminator] code units below 256: the set that
    [String.prototype.trim] strips and that [\s] matches. *)
Definition isSpace (c : ascii) : bool :=
  let n := code c in
  ((9 <=? n) && (n <=? 13) || (n =? 32) || (n =? 160))%N.

(** Line terminators: the characters that [.] does not match. *)
Definition isLineTerminator (c : ascii) : bool :=
  let n := code c in ((n =? 10) || (n =? 13))%N.

Definition isDigit (c : ascii) : bool :=
  let n := code c in ((48 <=? n) && (n <=? 57))%N.

Definition eqc (a b : ascii) : bool := Ascii.eqb a b.

Arguments eqc : simpl never.
Arguments isSpace : simpl never.
Arguments isLineTerminator : simpl never.
Arguments isDigit : simpl never.

Fixpoint dropWhile (p : ascii -> bool) (s : str) : str :=
  match s with
  | [] => []
  | c :: s' => if p c then dropWhile p s' else s
  end.

Definition trimStart (s : str) : str := dropWhile isSpace s.
Definition trimEnd (s : str) : str := rev (dropWhile isSpace (rev s)).
Definition trim (s : str) : str := trimEnd (trimStart s).

(** [s.startsWith(p)] *)
Fixpoint startsWith (s p : str) {struct p} : bool :=
  match p with
  | [] => true
  | a :: p' =>
      match s with
      | [] => false
      | b :: s' => eqc a b && startsWith s' p'
      end
  end.

(** [s.endsWith(p)] *)
Definition endsWith (s p : str) : bool := startsWith (rev s) (rev p).

(** [s.includes(p)] *)
Fixpoint includes (s p : str) : bool :=
  startsWith s p ||
  match s with
  | [] => false
  | _ :: s' => includes s' p
  end.

(** [s.replace(p, r)] with a string pattern: the first occurrence only. *)
Fixpoint replace (s p r : str) : str :=
  if startsWith s p then r ++ drop (length p) s
  else match s with
       | [] => []
       | c :: s' => c :: replace s' p r
       end.

(** [s.split(sep)] for a one-character separator. The result is never
    empty: the empty string splits into one empty piece. *)
Fixpoint split (sep : ascii) (s : str) : list str :=
  match s with
  | [] => [[]]
  | c :: s' =>
      if eqc c sep then [] :: split sep s'
      else match split sep s' with
           | h :: t => (c :: h) :: t
           | [] => [[c]]
           end
  end.

(** Truthiness of a string: the empty string is falsy. *)
Definition truthy (s : str) : bool :=
  match s with [] => false | _ => true end.

(** [s.toLowerCase()] on code units below 256. *)
Definition lowerChar (c : ascii) : ascii :=
  let n := code c in
  if ((65 <=? n) && (n <=? 90) ||
      (192 <=? n) && (n <=? 222) && negb (n =? 215))%N
  then ascii_of_N (n + 32) else c.

Definition toLowerCase (s : str) : str := map lowerChar s.

(** [arr.slice(-k)]: the last [k] elements. *)
Definition sliceLast {A} (k : nat) (l : list A) : list A :=
  drop (length l - k) l.

(** *** Decimal numerals *)

Definition digitVal (c : ascii) : N := (code c - 48)%N.

Definition digitChar (d : N) : ascii := ascii_of_N (48 + d).

(** The value of a run of decimal digits, most significant first. *)
Definition digitsVal (ds : str) : N :=
  fold_left (fun acc c => (10 * acc + digitVal c)%N) ds 0%N.

Fixpoint takeWhile (p : ascii -> bool) (s : str) : str :=
  match s with
  | [] => []
  | c :: s' => if p c then c :: takeWhile p s' else []
  end.

(** The double nearest to a natural number, ties going to the even
    significand; [None] stands for [Infinity]. Up to [2^53] every integer
    is a double. Above, the number is cut to 53 significant bits and
    rounded; a result of [2^1024] or more is out of range. *)
Definition nearest (v : N) : option N :=
  if (v <=? 2 ^ 53)%N then Some v
  else
    let e := (N.log2 v - 52)%N in
    let q := (v / 2 ^ e)%N in
    let r := (v mod 2 ^ e)%N in
    let half := (2 ^ (e - 1))%N in
    let q' := if (half <? r)%N || (r =? half)%N && N.odd q
              then (q + 1)%N else q in
    let z := (q' * 2 ^ e)%N in
    if (2 ^ 1024 <=? z)%N then None else Some z.

(** The number that a sign and the value of a digit run stand for. *)
Definition double (neg : bool) (v : N) : number :=
  match nearest v with
  | Some z => Int (if neg then (- Z.of_N z)%Z else Z.of_N z)
  | None => Infinity neg
  end.

Arguments nearest : simpl never.
Arguments double : simpl never.

(** [parseInt(s, 10)]: leading white space is skipped, an optional sign is
    read, then the longest run of digits; without a digit the result is
    [NaN]. The result is a double: the value of the digits is exact up to
    [2^53], rounded to the nearest double above it, and [Infinity] when it
    is out of range. *)
Definition parseInt10 (s : str) : number :=
  let s1 := trimStart s in
  let '(neg, s2) :=
    match s1 with
    | c :: r => if eqc c "-" then (true, r)
                else if eqc c "+" then (false, r) else (false, s1)
    | [] => (false, s1)
    end in
  match takeWhile isDigit s2 with
  | [] => NaN
  | ds => double neg (digitsVal ds)
  end.

(** Hexadecimal digits, for [parseInt] without a radix. *)
Definition isHexDigit (c : ascii) : bool :=
  let n := code c in
  (isDigit c || (65 <=? n) && (n <=? 70) || (97 <=? n) && (n <=? 102))%N.

Definition hexVal (c : ascii) : N :=
  let n := code c in
  if isDigit c then (n - 48)%N
  else if (n <=? 70)%N then (n - 55)%N else (n - 87)%N.

Definition hexDigitsVal (ds : str) : N :=
  fold_left (fun acc c => (16 * acc + hexVal c)%N) ds 0%N.

(** [parseInt(s)]: as [parseInt(s, 10)], except that a [0x] / [0X] prefix
    after the sign selects radix 16. The server calls it on a process
    identifier only, which the operating system keeps far below [2^53]:
    the value of the digits is taken as it is. *)
Definition parseInt (s : str) : number :=
  let s1 := trimStart s in
  let '(neg, s2) :=
    match s1 with
    | c :: r => if eqc c "-" then (true, r)
                else if eqc c "+" then (false, r) else (false, s1)
    | [] => (false, s1)
    end in
  let signed (v : N) := if neg then (- Z.of_N v)%Z else Z.of_N v in
  match s2 with
  | z :: x :: r =>
      if eqc z "0" && (eqc x "x" || eqc x "X") then
        match takeWhile isHexDigit r with
        | [] => NaN
        | ds => Int (signed (hexDigitsVal ds))
        end
      else
        match takeWhile isDigit s2 with
        | [] => NaN
        | ds => Int (signed (digitsVal ds))
        end
  | _ =>
      match takeWhile isDigit s2 with
      | [] => NaN
      | ds => Int (signed (digitsVal ds))
      end
  end.

(** The decimal numeral of a natural number, as the operating system's
    tools and the manifest generator print it (no leading zeros).
    Least significant digit first, then reversed. *)
Fixpoint lsDigits (fuel : nat) (n : N) : list N :=
  match fuel with
  | O => [(n mod 10)%N]
  | S f => if (n / 10 =? 0)%N then [(n mod 10)%N]
           else (n mod 10)%N :: lsDigits f (n / 10)%N
  end.

Definition showN (n : N) : str :=
  rev (map digitChar (lsDigits (N.to_nat (N.log2 n)) n)).

End JS.

Definition LF : ascii := "010"%char.
Definition DQUOTE : ascii := "034"%char.
Definition SLASH : ascii := "/"%char.

(** ** Regular expressions

    The server's regular expressions use literals, greedy repetition of a
    character class, capture groups and the anchors [^] and [$]. The
    matcher is a backtracking one, written with continuations: a greedy
    repetition first tries the longest run and gives characters back when
    the rest of the pattern fails. *)

Module Regex.

Inductive regex :=
| Lit (s : str)                          (* literal characters *)
| Many (min : nat) (cls : ascii -> bool) (* cls* (min = 0), cls+ (min = 1) *)
| Cap (r : regex)                        (* ( r ) *)
| Cat (r1 r2 : regex)
| Eos.                                   (* $ *)

Fixpoint many {A} (cls : ascii -> bool) (min n : nat) (s : str)
    (k : str -> option A) : option A :=
  let stop := if Nat.leb min n then k s else None in
  match s with
  | c :: s' =>
      if cls c then
        match many cls min (S n) s' k with
        | Some r => Some r
        | None => stop
        end
      else stop
  | [] => stop
  end.

Fixpoint run (r : regex) (s : str) (caps : list str)
    (k : str -> list str -> option (list str)) : option (list str) :=
  match r with
  | Lit p => if JS.startsWith s p then k (drop (length p) s) caps else None
  | Many min cls => many cls min 0 s (fun rest => k rest caps)
  | Cap r' =>
      run r' s caps
        (fun rest caps' => k rest (caps' ++ [take (length s - length rest) s]))
  | Cat r1 r2 => run r1 s caps (fun rest caps' => run r2 rest caps' k)
  | Eos => match s with [] => k s caps | _ :: _ => None end
  end.

Fixpoint seq (rs : list regex) : regex :=
  match rs with
  | [] => Lit []
  | [r] => r
  | r :: rs' => Cat r (seq rs')
  end.

(** [s.match(/^r/)]: the capture groups of a match at the start of [s]. *)
Definition matchStart (r : regex) (s : str) : option (list str) :=
  run r s [] (fun _ caps => Some caps).

(** [s.match(/r/)]: the leftmost match. *)
Fixpoint search (r : regex) (s : str) : option (list str) :=
  match matchStart r s with
  | Some caps => Some caps
  | None => match s with
            | [] => None
            | _ :: s' => search r s'
            end
  end.

Definition dot (c : ascii) : bool := negb (JS.isLineTerminator c).
Definition notChar (x : ascii) (c : ascii) : bool := negb (JS.eqc c x).

End Regex.

(** ** Data *)

(** The [type] field of a manifest entry: ["file"] or ["directory"]. *)
Inductive EntryType := TFile | TDirectory.

Definition isDirectoryType (t : EntryType) : bool :=
  match t with TDirectory => true | TFile => false end.

(** The objects that [parseTextManifest] pushes on [files]. *)
Record FileRecord := mkFile {
  f_path : str;
  f_type : EntryType;
  f_size : JS.number;
  f_modified : str
}.

(** The objects that [buildTreeFromFiles] creates; [None] is [undefined]. *)
Inductive TreeNode := mkNode {
  n_path : str;
  n_type : EntryType;
  n_size : option JS.number;
  n_modified : option str;
  n_children : option (list TreeNode)
}.

Definition setChildren (e : TreeNode) (ch : list TreeNode) : TreeNode :=
  mkNode (n_path e) (n_type e) (n_size e) (n_modified e) (Some ch).

Record ExcludePattern := mkPattern {
  pattern : str;
  isDirectory : bool
}.

(** ** [parseExcludes] *)

Definition parseExcludesLine (patterns : list ExcludePattern) (line : str)
    : list ExcludePattern :=
  let trimmed := JS.trim line in
  if negb (JS.truthy trimmed) || JS.startsWith trimmed "#" then patterns
  else
    let isDirectory := JS.endsWith trimmed "/" in
    patterns ++ [mkPattern trimmed isDirectory].

Definition parseExcludes (content : str) : list ExcludePattern :=
  let lines := JS.split LF content in
  fold_left parseExcludesLine lines [].

(** ** [buildTreeFromFiles] *)

(** [currentPath = currentPath ? `${currentPath}/${part}` : part] *)
Definition extendPath (currentPath part : str) : str :=
  if JS.truthy currentPath then currentPath ++ SLASH :: part else part.

Definition newNode (file : FileRecord) (currentPath : str) (isLast : bool)
    : TreeNode :=
  let leaf := isLast && negb (isDirectoryType (f_type file)) in
  mkNode currentPath
         (if leaf then TFile else TDirectory)
         (if isLast then Some (f_size file) else None)
         (if isLast then Some (f_modified file) else None)
         (if leaf then None else Some []).

(** The inner loop over the parts of one path. [currentLevel] is the array
    the loop is positioned at; the result is that array after the loop has
    run to its end, with the nodes it pushed below it in place. *)
Fixpoint walk (file : FileRecord) (parts : list str) (currentPath : str)
    (currentLevel : list TreeNode) : list TreeNode :=
  match parts with
  | [] => currentLevel
  | part :: rest =>
      let currentPath := extendPath currentPath part in
      let isLast := match rest with [] => true | _ :: _ => false end in
      match list_find (fun e => n_path e = currentPath) currentLevel with
      | Some (i, existing) =>
          match n_children existing with
          | Some ch =>
              <[i := setChildren existing (walk file rest currentPath ch)]>
                currentLevel
          | None => walk file rest currentPath currentLevel
          end
      | None =>
          let existing := newNode file currentPath isLast in
          match n_children existing with
          | Some ch =>
              currentLevel ++
                [setChildren existing (walk file rest currentPath ch)]
          | None => walk file rest currentPath (currentLevel ++ [existing])
          end
      end
  end.

Definition addFile (tree : list TreeNode) (file : FileRecord)
    : list TreeNode :=
  walk file (JS.split SLASH (f_path file)) [] tree.

Definition buildTreeFromFiles (files : list FileRecord) : list TreeNode :=
  fold_left addFile files [].

(** ** [parseTextManifest] *)

Import Regex.

(** [/^Total Files:\s*(\d+)/] *)
Definition reTotalFiles : regex :=
  seq [Lit "Total Files:"; Many 0 JS.isSpace; Cap (Many 1 JS.isDigit)].

(** [/^Total Directories:\s*(\d+)/] *)
Definition reTotalDirectories : regex :=
  seq [Lit "Total Directories:"; Many 0 JS.isSpace; Cap (Many 1 JS.isDigit)].

(** [/^Q([^Q]+)Q\s+\((\d+)\s+bytes\)\s+-\s+Modified:\s+(.+)$/], where [Q]
    stands for the double quote character. *)
Definition reFileEntry : regex :=
  seq [Lit [DQUOTE]; Cap (Many 1 (notChar DQUOTE)); Lit [DQUOTE];
       Many 1 JS.isSpace; Lit "("; Cap (Many 1 JS.isDigit);
       Many 1 JS.isSpace; Lit "bytes)"; Many 1 JS.isSpace; Lit "-";
       Many 1 JS.isSpace; Lit "Modified:"; Many 1 JS.isSpace;
       Cap (Many 1 dot); Eos].

Record ManifestResult := mkResult {
  directory : option str;
  timestamp : option str;
  total_files : JS.number;
  total_directories : JS.number;
  tree : list TreeNode
}.

(** The variables of the scanning loop: the fields of [result] that the
    loop assigns, [files] and the two section flags. *)
Record ScanState := mkScan {
  s_directory : option str;
  s_timestamp : option str;
  s_total_files : JS.number;
  s_total_directories : JS.number;
  s_files : list FileRecord;
  inFileListing : bool;
  inSummary : bool
}.

Definition initScan : ScanState :=
  mkScan None None (JS.Int 0) (JS.Int 0) [] false false.

Definition setTimestamp (st : ScanState) (v : str) : ScanState :=
  mkScan (s_directory st) (Some v) (s_total_files st)
         (s_total_directories st) (s_files st) (inFileListing st)
         (inSummary st).

Definition setDirectory (st : ScanState) (v : str) : ScanState :=
  mkScan (Some v) (s_timestamp st) (s_total_files st)
         (s_total_directories st) (s_files st) (inFileListing st)
         (inSummary st).

Definition setSection (st : ScanState) (listing summary : bool) : ScanState :=
  mkScan (s_directory st) (s_timestamp st) (s_total_files st)
         (s_total_directories st) (s_files st) listing summary.

Definition setTotalFiles (st : ScanState) (v : JS.number) : ScanState :=
  mkScan (s_directory st) (s_timestamp st) v (s_total_directories st)
         (s_files st) (inFileListing st) (inSummary st).

Definition setTotalDirectories (st : ScanState) (v : JS.number) : ScanState :=
  mkScan (s_directory st) (s_timestamp st) (s_total_files st) v
         (s_files st) (inFileListing st) (inSummary st).

Definition pushFile (st : ScanState) (f : FileRecord) : ScanState :=
  mkScan (s_directory st) (s_timestamp st) (s_total_files st)
         (s_total_directories st) (s_files st ++ [f]) (inFileListing st)
         (inSummary st).

(** The summary block of the loop body. *)
Definition scanSummary (st : ScanState) (line : str) : ScanState :=
  if inSummary st && JS.truthy (JS.trim line) then
    let st1 :=
      match matchStart reTotalFiles line with
      | Some (d :: _) => setTotalFiles st (JS.parseInt10 d)
      | _ => st
      end in
    match matchStart reTotalDirectories line with
    | Some (d :: _) => setTotalDirectories st1 (JS.parseInt10 d)
    | _ => st1
    end
  else st.

(** The file-entry block of the loop body. *)
Definition scanEntry (st : ScanState) (line : str) : ScanState :=
  if inFileListing st && JS.truthy (JS.trim line)
     && negb (JS.startsWith line "Summary:") then
    match matchStart reFileEntry line with
    | Some [filePath; size; modified] =>
        pushFile st
          (mkFile filePath TFile (JS.parseInt10 size) (JS.trim modified))
    | _ => st
    end
  else st.

(** One iteration of [for (const line of lines)]. The branches for the
    section headers and for the separators [continue]; the others go on
    to the summary block and the file-entry block. *)
Definition scanLine (st : ScanState) (line : str) : ScanState :=
  if JS.startsWith line "Timestamp:" then
    scanEntry
      (scanSummary
         (setTimestamp st (JS.trim (JS.replace line "Timestamp:" "")))
         line) line
  else if JS.startsWith line "Directory:" then
    scanEntry
      (scanSummary
         (setDirectory st (JS.trim (JS.replace line "Directory:" "")))
         line) line
  else if JS.startsWith line "File Listing:" then setSection st true false
  else if JS.startsWith line "Summary:" then setSection st false true
  else if JS.startsWith line "-------------" || JS.startsWith line "--------"
  then st
  else scanEntry (scanSummary st line) line.

(** The inner loop that adds the cumulative path of every part but the
    last to the set [directories]. *)
Fixpoint addDirectories (parts : list str) (currentPath : str)
    (directories : gset str) : gset str :=
  match parts with
  | [] => directories
  | [_] => directories
  | part :: rest =>
      let currentPath := extendPath currentPath part in
      addDirectories rest currentPath (directories ∪ {[currentPath]})
  end.

Definition collectDirectories (files : list FileRecord) : gset str :=
  fold_left
    (fun directories file =>
       addDirectories (JS.split SLASH (f_path file)) [] directories)
    files ∅.

Definition isZero (n : JS.number) : bool :=
  match n with JS.Int 0 => true | _ => false end.

Definition lengthOf {A} (l : list A) : JS.number := JS.Int (Z.of_nat (length l)).

Definition parseTextManifest (content : str) : ManifestResult :=
  let lines := JS.split LF content in
  let st := fold_left scanLine lines initScan in
  let files := s_files st in
  let total_files :=
    if isZero (s_total_files st) then lengthOf files else s_total_files st in
  let total_directories :=
    if isZero (s_total_directories st) && Nat.ltb 0 (length files)
    then JS.Int (Z.of_nat (size (collectDirectories files)))
    else s_total_directories st in
  mkResult (s_directory st) (s_timestamp st) total_files total_directories
           (buildTreeFromFiles files).

(** ** The server's environment

    The handlers read the file system, run shell commands and spawn
    processes. The file system is a finite map from paths to entries; a
    shell command is answered by the operating system with its standard
    output or with a failure; what a handler does to the outside is kept
    in a log of events. [console.error] and [console.log] calls are not
    part of the model. *)

Inductive FsEntry :=
| File (content : str) (mtime : N)
| Dir (names : list str) (mtime : N).

Definition entryMtime (e : FsEntry) : N :=
  match e with File _ t => t | Dir _ t => t end.

Record World := mkWorld {
  fs : gmap str FsEntry;
  (** [execAsync(cmd)]: the standard output, or the message of the error
      the promise rejects with. *)
  shell : str -> str + str;
  (** [new Date().toISOString()] *)
  now : str
}.

Inductive Event :=
| Exec (cmd : str)
| Spawn (command : str) (args : list str) (cwd : str)
| Sleep (ms : N).

(** A computation that may throw (an error message) and that appends to
    the event log. *)
Definition M (A : Type) : Type := list Event -> (A + str) * list Event.

#[global] Instance M_ret : MRet M := fun A a log => (inl a, log).

#[global] Instance M_bind : MBind M := fun A B f m log =>
  match m log with
  | (inl a, log') => f a log'
  | (inr e, log') => (inr e, log')
  end.

Definition throw {A} (e : str) : M A := fun log => (inr e, log).

Definition emit (ev : Event) : M unit := fun log => (inl tt, log ++ [ev]).

(** [try { m } catch (e) { h e }] *)
Definition tryCatch {A} (m : M A) (h : str -> M A) : M A := fun log =>
  match m log with
  | (inl a, log') => (inl a, log')
  | (inr e, log') => h e log'
  end.

(** A reply sent with [res.json] (status 200) or [res.status(c).json]. *)
Inductive Response (B : Type) := Reply (status : nat) (body : B).
Arguments Reply {B} status body.

Definition status {B} (r : Response B) : nat :=
  match r with Reply s _ => s end.

Definition body {B} (r : Response B) : B :=
  match r with Reply _ b => b end.

(** [{ success: true, message, output }] or [{ error }]. *)
Inductive ActionBody :=
| Success (message : str) (output : option str)
| Failure (error : str).

Record ManifestBody := mkManifestBody {
  mb_directory : str;
  mb_timestamp : option str;
  mb_total_files : JS.number;
  mb_total_directories : JS.number;
  mb_tree : list TreeNode;
  mb_error : option str
}.

Record ExcludesBody := mkExcludesBody {
  eb_patterns : list ExcludePattern;
  eb_source : option str
}.

Record StatusBody := mkStatusBody {
  sb_running : bool;
  sb_pid : option JS.number;
  sb_watchedPath : str;
  sb_uptime : option str;
  sb_lastManifestUpdate : option str;
  sb_error : option str
}.

Record RecentChange := mkChange {
  rc_timestamp : str;
  rc_file : str
}.

Record ChangesBody := mkChangesBody {
  cb_recentChanges : list RecentChange;
  cb_manifestLastModified : option str
}.

(** [a || b] on a value that is [null] or a string. *)
Definition orElse (a : option str) (b : str) : str :=
  match a with
  | Some s => if JS.truthy s then s else b
  | None => b
  end.

(** [n || 0] *)
Definition orZero (n : JS.number) : JS.number :=
  match n with
  | JS.Int z => JS.Int z
  | JS.NaN => JS.Int 0
  | JS.Infinity neg => JS.Infinity neg
  end.

(** A stable sort, as [Array.prototype.sort] is: [before a b] stands for a
    negative result of the comparison function on [a] and [b]. An element
    is inserted behind those that come strictly before it only, so equal
    elements keep their order. *)
Fixpoint insertSorted {A} (before : A -> A -> bool) (x : A) (l : list A)
    : list A :=
  match l with
  | [] => [x]
  | y :: l' => if before y x then y :: insertSorted before x l'
               else x :: l
  end.

Definition sortStable {A} (before : A -> A -> bool) (l : list A) : list A :=
  foldr (insertSorted before) [] l.

(** [/\[([^\]]+)\]\[fswatch\] Change detected: (.+)/] *)
Definition reChange : regex :=
  seq [Lit "["; Cap (Many 1 (notChar "]")); Lit "][fswatch] Change detected: ";
       Cap (Many 1 dot)].

(** [name.replace(/[^a-z0-9]/g, "_")] *)
Definition isLowerAlnum (c : ascii) : bool :=
  let n := JS.code c in
  ((97 <=? n) && (n <=? 122) || (48 <=? n) && (n <=? 57))%N.

Definition normalizeName (s : str) : str :=
  map (fun c => if isLowerAlnum c then c else "_"%char) s.

(** The change entries of a log: the last five lines that contain the
    marker, each matched against [reChange], the failures dropped, the
    order reversed. *)
Definition isChangeLine (line : str) : bool :=
  JS.includes line "[fswatch] Change detected:".

Definition matchChange (line : str) : option RecentChange :=
  match search reChange line with
  | Some [ts; file] => Some (mkChange ts file)
  | _ => None
  end.

Definition extractChanges (logContent : str) : list RecentChange :=
  let lines := JS.split LF logContent in
  let changeLines := List.filter isChangeLine lines in
  rev (omap matchChange (JS.sliceLast 5 changeLines)).

(** [if (!watchPath.startsWith("/")) watchPath = "/" + watchPath] *)
Definition absolute (watchPath : str) : str :=
  if negb (JS.startsWith watchPath "/") then SLASH :: watchPath
  else watchPath.

Section Server.

(** Library functions of the platform, and the directory of the monitor
    scripts, which the server computes from its own location. *)
Variable decodeURIComponent : str -> str + str.
Variable path_join : str -> str -> str.
Variable path_basename : str -> str.
Variable toISOString : N -> str.
Variable MONITOR_DIR : str.

Variable w : World.

Definition REGISTRY_SCRIPT : str :=
  path_join MONITOR_DIR "src/lhi_directory_monitor_registry.sh".

Definition fs_access (p : str) : M unit :=
  match fs w !! p with
  | Some _ => mret tt
  | None => throw ("ENOENT: no such file or directory, access " ++ p)
  end.

Definition fs_readFile (p : str) : M str :=
  match fs w !! p with
  | Some (File content _) => mret content
  | Some (Dir _ _) => throw "EISDIR: illegal operation on a directory, read"
  | None => throw ("ENOENT: no such file or directory, open " ++ p)
  end.

Definition fs_readdir (p : str) : M (list str) :=
  match fs w !! p with
  | Some (Dir names _) => mret names
  | Some (File _ _) => throw ("ENOTDIR: not a directory, scandir " ++ p)
  | None => throw ("ENOENT: no such file or directory, scandir " ++ p)
  end.

(** [fs.stat(p)], of which the handlers read [mtime] only. *)
Definition fs_stat (p : str) : M N :=
  match fs w !! p with
  | Some e => mret (entryMtime e)
  | None => throw ("ENOENT: no such file or directory, stat " ++ p)
  end.

Definition execAsync (cmd : str) : M str :=
  emit (Exec cmd) ≫= fun _ =>
  match shell w cmd with
  | inl stdout => mret stdout
  | inr e => throw e
  end.

(** [spawn(command, args, { cwd, detached, stdio })]: the call asks for the
    launch and returns the child at once. Whether the child could be
    started shows later, as an ['error'] event on the child; the handlers
    register no listener for it, so a failed launch ends the server
    process. The model follows a handler in the runs in which the launch
    succeeds: it says nothing about a reply after a failed launch. *)
Definition spawn (command : str) (args : list str) (cwd : str) : M unit :=
  emit (Spawn command args cwd).

Definition sleep (ms : N) : M unit := emit (Sleep ms).

Definition normalizePathParam (encodedPath : str) : M str :=
  match decodeURIComponent encodedPath with
  | inl watchPath => mret (absolute watchPath)
  | inr e => throw e
  end.

Definition pgrepCommand (watchPath : str) : str :=
  "pgrep -f " ++ DQUOTE :: "fswatch.*" ++ watchPath ++ DQUOTE :: " || true".

Definition psCommand (pid : str) : str :=
  "ps -p " ++ pid ++ " -o etime= || true".

Definition registryAddCommand (directory : str) : str :=
  "bash " ++ DQUOTE :: REGISTRY_SCRIPT ++ DQUOTE :: " add " ++
  DQUOTE :: directory ++ [DQUOTE].

(** [app.post("/api/registry/add")]; [directory] is [req.body.directory],
    [None] when the body has no such field. *)
Definition registryAdd (directory : option str) : M (Response ActionBody) :=
  tryCatch
    (match directory with
     | None => mret (Reply 400 (Failure "Directory path is required"))
     | Some directory =>
         if negb (JS.truthy directory)
         then mret (Reply 400 (Failure "Directory path is required"))
         else
           tryCatch
             (fs_access directory ≫= fun _ => mret None)
             (fun _ => mret (Some (Reply 400
                (Failure ("Directory does not exist: " ++ directory)))))
           ≫= fun rejected =>
           match rejected with
           | Some r => mret r
           | None =>
               stdout ← execAsync (registryAddCommand directory);
               mret (Reply 200
                 (Success ("Directory added: " ++ directory) (Some stdout)))
           end
     end)
    (fun error => mret (Reply 500 (Failure error))).

Definition manifestMissing (watchPath : str) : ManifestBody :=
  mkManifestBody watchPath None (JS.Int 0) (JS.Int 0) []
    (Some (list_ascii_of_string
       "No manifest file found. Click Refresh to generate one.")).

(** [app.get("/api/manifest/*")]; [param] is [req.params[0]]. *)
Definition getManifest (param : str) : M (Response (ManifestBody + str)) :=
  tryCatch
    (watchPath ← normalizePathParam param;
     let manifestPath := path_join watchPath ".lhi_manifest" in
     missing ← tryCatch (fs_access manifestPath ≫= fun _ => mret false)
                         (fun _ => mret true);
     if missing : bool then mret (Reply 200 (inl (manifestMissing watchPath)))
     else
       content ← fs_readFile manifestPath;
       let parsed := parseTextManifest content in
       mret (Reply 200
         (inl (mkManifestBody
                 (orElse (directory parsed) watchPath)
                 (Some (orElse (timestamp parsed) (now w)))
                 (orZero (total_files parsed))
                 (orZero (total_directories parsed))
                 (tree parsed)
                 None))))
    (fun error => mret (Reply 500 (inr error))).

(** [app.get("/api/excludes/*")] *)
Definition getExcludes (param : str) : M (Response (ExcludesBody + str)) :=
  tryCatch
    (watchPath ← normalizePathParam param;
     (* PRIORITY 1: .lhi_excludes *)
     let excludePath := path_join watchPath ".lhi_excludes" in
     primary ← tryCatch
       (_ ← fs_access excludePath;
        content ← fs_readFile excludePath;
        mret (Some (mkExcludesBody (parseExcludes content)
                      (Some (list_ascii_of_string ".lhi_excludes")))))
       (fun _ => mret None);
     match primary with
     | Some b => mret (Reply 200 (inl b))
     | None =>
         (* PRIORITY 2: .gitignore *)
         let gitignorePath := path_join watchPath ".gitignore" in
         tryCatch
           (_ ← fs_access gitignorePath;
            content ← fs_readFile gitignorePath;
            mret (Reply 200 (inl (mkExcludesBody (parseExcludes content)
                      (Some (list_ascii_of_string ".gitignore"))))))
           (fun _ => mret (Reply 200 (inl (mkExcludesBody [] None))))
     end)
    (fun error => mret (Reply 500 (inr error))).

(** [stdout.trim().split("\n").filter(Boolean)] *)
Definition pidLines (stdout : str) : list str :=
  List.filter JS.truthy (JS.split LF (JS.trim stdout)).

(** [lastManifestUpdate]: the manifest's [mtime], or [null]. *)
Definition manifestMtime (watchPath : str) : M (option str) :=
  let manifestPath := path_join watchPath ".lhi_manifest" in
  tryCatch (t ← fs_stat manifestPath; mret (Some (toISOString t)))
           (fun _ => mret None).

(** [app.get("/api/status/*")] *)
Definition getStatus (param : str) : M (Response StatusBody) :=
  tryCatch
    (watchPath ← normalizePathParam param;
     stdout ← execAsync (pgrepCommand watchPath);
     let pids := pidLines stdout in
     let running := Nat.ltb 0 (length pids) in
     uptime ←
       match pids with
       | pid0 :: _ =>
           if running && JS.truthy pid0 then
             tryCatch (psOut ← execAsync (psCommand pid0);
                       mret (Some (JS.trim psOut)))
                      (fun _ => mret None)
           else mret None
       | [] => mret None
       end;
     lastManifestUpdate ← manifestMtime watchPath;
     mret (Reply 200
       (mkStatusBody running
          (match pids with
           | pid0 :: _ => if running then Some (JS.parseInt pid0) else None
           | [] => None
           end)
          watchPath uptime lastManifestUpdate None)))
    (fun error =>
       watchPath ← normalizePathParam param;
       mret (Reply 200
         (mkStatusBody false None watchPath None None (Some error)))).

(** The log directories that belong to a watched directory. *)
Definition matchesLogDir (dirName : str) (d : str) : bool :=
  JS.startsWith d "ldm_" &&
  JS.includes d (normalizeName (JS.toLowerCase dirName)).

(** The body of the inner [try] of the changes handler: the value that is
    assigned to [recentChanges], or the initial empty array when no
    assignment is reached. *)
Definition readRecentChanges (watchPath : str) : M (list RecentChange) :=
  let logsDir := path_join MONITOR_DIR "logs" in
  let dirName := path_basename watchPath in
  logDirs ← fs_readdir logsDir;
  let matchingDirs := List.filter (matchesLogDir dirName) logDirs in
  if Nat.ltb 0 (length matchingDirs) then
    dirsWithStats ← mapM (fun d => t ← fs_stat (path_join logsDir d);
                                   mret (d, t)) matchingDirs;
    let sorted :=
      sortStable (fun a b => (snd b <? snd a)%N) dirsWithStats in
    match sorted with
    | [] => throw "TypeError: Cannot read properties of undefined"
    | (latestDir, _) :: _ =>
        let logDirPath := path_join logsDir latestDir in
        logFiles ← fs_readdir logDirPath;
        match List.find (fun f => JS.endsWith f ".log") logFiles with
        | Some logFile =>
            logContent ← fs_readFile (path_join logDirPath logFile);
            mret (extractChanges logContent)
        | None => mret []
        end
    end
  else mret [].

(** [app.get("/api/changes/*")] *)
Definition getChanges (param : str) : M (Response (ChangesBody + str)) :=
  tryCatch
    (watchPath ← normalizePathParam param;
     recentChanges ← tryCatch (readRecentChanges watchPath)
                              (fun _ => mret []);
     manifestLastModified ← manifestMtime watchPath;
     mret (Reply 200 (inl (mkChangesBody recentChanges manifestLastModified))))
    (fun error => mret (Reply 500 (inr error))).

(** [app.post("/api/start/*")] *)
Definition postStart (param : str) : M (Response ActionBody) :=
  tryCatch
    (watchPath ← normalizePathParam param;
     stdout ← execAsync (pgrepCommand watchPath);
     if JS.truthy (JS.trim stdout) then
       mret (Reply 200
         (Success "Monitor already running for this directory" None))
     else
       let monitorScript := path_join MONITOR_DIR "src/lhi_directory_monitor.sh" in
       _ ← spawn "bash" [monitorScript; "-d" : str; watchPath; "--verbose" : str]
             MONITOR_DIR;
       _ ← sleep 2000;
       mret (Reply 200 (Success ("Monitor started for " ++ watchPath) None)))
    (fun error => mret (Reply 500 (Failure error))).

End Server.

(** ** Notions used to state the properties *)

(** *** Trees *)

(** All nodes of a tree, parents before their children. *)
Fixpoint nodesOf (e : TreeNode) : list TreeNode :=
  e :: match n_children e with
       | Some ch => flat_map nodesOf ch
       | None => []
       end.

Definition nodes (tree : list TreeNode) : list TreeNode :=
  flat_map nodesOf tree.

(** All sibling sequences below a node, and of a tree (the root list and
    every node's children list). *)
Fixpoint levelsOf (e : TreeNode) : list (list TreeNode) :=
  match n_children e with
  | Some ch => ch :: flat_map levelsOf ch
  | None => []
  end.

Definition levels (tree : list TreeNode) : list (list TreeNode) :=
  tree :: flat_map levelsOf tree.

Definition isFileNode (e : TreeNode) : bool :=
  match n_type e with TFile => true | TDirectory => false end.

(** The leaf-count aggregation: the number of file-typed nodes. *)
Definition countLeaves (tree : list TreeNode) : nat :=
  length (List.filter isFileNode (nodes tree)).

(** The number of directory-typed nodes of a tree with a given path. *)
Definition directoryOccurrences (p : str) (tree : list TreeNode) : nat :=
  length (List.filter
            (fun e => negb (isFileNode e) && bool_decide (n_path e = p))
            (nodes tree)).

(** The number of nodes of a tree, of any type, with a given path. *)
Definition occurrences (p : str) (tree : list TreeNode) : nat :=
  length (List.filter (fun e => bool_decide (n_path e = p)) (nodes tree)).

(** A later tree [t'] keeps every node of an earlier tree [t] in its place,
    with its path, type, size and modified value, and with children exactly
    when it had children: arrays only grow at their end, nodes only gain
    descendants. *)
Inductive grows : list TreeNode -> list TreeNode -> Prop :=
| grows_nil t' : grows [] t'
| grows_cons e e' t t' :
    keeps e e' -> grows t t' -> grows (e :: t) (e' :: t')
with keeps : TreeNode -> TreeNode -> Prop :=
| keeps_leaf p ty s m : keeps (mkNode p ty s m None) (mkNode p ty s m None)
| keeps_inner p ty s m ch ch' :
    grows ch ch' ->
    keeps (mkNode p ty s m (Some ch)) (mkNode p ty s m (Some ch')).

Scheme grows_mut := Induction for grows Sort Prop
  with keeps_mut := Induction for keeps Sort Prop.

(** *** Paths *)

(** The proper directory prefixes of a slash-separated path: every prefix
    of the path that ends just before a slash. *)
Fixpoint properPrefixes (p : str) : list str :=
  match p with
  | [] => []
  | c :: p' =>
      (if JS.eqc c SLASH then [[]] else []) ++ map (cons c) (properPrefixes p')
  end.

(** A relative path: not empty and not starting with a slash. *)
Definition relativePath (p : str) : Prop :=
  match p with
  | [] => False
  | c :: _ => c <> SLASH
  end.

(** The values of [currentPath] before the last part, and at the last
    part: the paths of the directory nodes and of the leaf that one walk
    looks up or creates. *)
Fixpoint intermediate (parts : list str) (currentPath : str) : list str :=
  match parts with
  | [] => []
  | [_] => []
  | part :: rest =>
      let currentPath := extendPath currentPath part in
      currentPath :: intermediate rest currentPath
  end.

Fixpoint finalPath (parts : list str) (currentPath : str) : str :=
  match parts with
  | [] => currentPath
  | part :: rest => finalPath rest (extendPath currentPath part)
  end.

(** *** Invariants of the tree builder *)

(** The shape of a node: a file node has a size and a modified value and
    no children; a directory node has a children array. *)
Definition nodeShape (e : TreeNode) : Prop :=
  match n_type e with
  | TFile =>
      is_Some (n_size e) /\ is_Some (n_modified e) /\ n_children e = None
  | TDirectory => is_Some (n_children e)
  end.

(** No two siblings share a path, and every node has the shape of its
    type. *)
Definition wellShaped (tree : list TreeNode) : Prop :=
  (forall level, level ∈ levels tree -> NoDup (map n_path level)) /\
  (forall e, e ∈ nodes tree -> nodeShape e).

(** The nodes of a sibling sequence that sits at path prefix [pre] have
    paths [pre ++ x], with [x] a single path segment. *)
Definition levelAt (pre : str) (level : list TreeNode) : Prop :=
  forall e, e ∈ level ->
    exists x, n_path e = pre ++ x /\ (SLASH ∉ x).

(** Every children array sits at the path of its node, followed by a
    slash. *)
Definition placed (pre : str) (tree : list TreeNode) : Prop :=
  levelAt pre tree /\
  forall e ch, e ∈ nodes tree -> n_children e = Some ch ->
    levelAt (n_path e ++ [SLASH]) ch.

(** [q] is the path [p] or a path below it. *)
Definition under (p q : str) : Prop :=
  q = p \/ exists r, q = p ++ SLASH :: r.

(** The path and type of every node of a tree. *)
Definition labels (tree : list TreeNode) : list (str * EntryType) :=
  map (fun e => (n_path e, n_type e)) (nodes tree).

(** The paths that matter for a file record: its proper directory
    prefixes and the path itself. *)
Definition pathsOf (f : FileRecord) : list str :=
  properPrefixes (f_path f) ++ [f_path f].

(** A listing as a directory scan produces it: relative paths of files,
    none of which is the path of another record or a directory on the way
    to another record. *)
Definition consistentListing (files : list FileRecord) : Prop :=
  Forall (fun f => f_type f = TFile /\ relativePath (f_path f)) files /\
  forall i j f g, files !! i = Some f -> files !! j = Some g -> i <> j ->
    f_path f ∉ pathsOf g.

(** What holds of the tree once the records [done] of a consistent listing
    have been processed. *)
Definition builtFrom (done : list FileRecord) (tree : list TreeNode) : Prop :=
  wellShaped tree /\ placed [] tree /\
  (forall p, (p, TFile) ∈ labels tree ->
     exists g, g ∈ done /\ p = f_path g) /\
  (forall p, (p, TDirectory) ∈ labels tree ->
     exists g, g ∈ done /\ p ∈ properPrefixes (f_path g)) /\
  countLeaves tree = length done /\
  (forall g c, g ∈ done -> c ∈ properPrefixes (f_path g) ->
     (c, TDirectory) ∈ labels tree).

Definition isFileLabel (l : str * EntryType) : bool :=
  match snd l with TFile => true | TDirectory => false end.

(** *** Manifest text

    A manifest as the generator writes it: banner and header lines, the
    [Timestamp:] and [Directory:] lines, the file listing with one line per
    file, and, when the generator writes one, the summary with the two
    totals; lines are separated by line feeds, with or without one after
    the last line. *)

Record ManifestEntry := mkEntry {
  e_path : str;
  e_bytes : N;
  e_modified : str
}.

Record Manifest := mkManifest {
  m_banner : list str;
  m_timestamp : str;
  m_directory : str;
  m_header : list str;
  m_entries : list ManifestEntry;
  m_summary : option (N * N);
  m_finalNewline : bool
}.

Definition entryLine (e : ManifestEntry) : str :=
  DQUOTE :: e_path e ++ DQUOTE :: " (" ++ JS.showN (e_bytes e) ++
  " bytes) - Modified: " ++ e_modified e.

Definition summaryLines (s : option (N * N)) : list str :=
  match s with
  | Some (nf, nd) =>
      [ "Summary:" : str; "--------" : str;
        "Total Files: " ++ JS.showN nf;
        "Total Directories: " ++ JS.showN nd ]
  | None => []
  end.

Definition manifestLines (m : Manifest) : list str :=
  m_banner m ++
  [ "Timestamp: " ++ m_timestamp m; "Directory: " ++ m_directory m ] ++
  m_header m ++
  [ "File Listing:" : str; "-------------" : str ] ++
  map entryLine (m_entries m) ++
  summaryLines (m_summary m).

(** [lines.join("\n")] *)
Fixpoint joinLines (lines : list str) : str :=
  match lines with
  | [] => []
  | [l] => l
  | l :: ls => l ++ LF :: joinLines ls
  end.

Definition manifestText (m : Manifest) : str :=
  joinLines (manifestLines m ++ if m_finalNewline m then [[]] else []).

(** A banner or header line: one line, and not a section header. *)
Definition plainLine (l : str) : Prop :=
  (LF ∉ l) /\ JS.startsWith l "File Listing:" = false /\
  JS.startsWith l "Summary:" = false.

Definition wellFormedEntry (e : ManifestEntry) : Prop :=
  relativePath (e_path e) /\ (DQUOTE ∉ e_path e) /\ (LF ∉ e_path e) /\
  e_modified e <> [] /\
  Forall (fun c => JS.isLineTerminator c = false) (e_modified e).

Definition wellFormedManifest (m : Manifest) : Prop :=
  Forall plainLine (m_banner m) /\
  (LF ∉ m_timestamp m) /\ (LF ∉ m_directory m) /\
  Forall plainLine (m_header m) /\
  Forall wellFormedEntry (m_entries m).

(** What the scanning loop keeps for the totals: the two counts, the file
    records and the section flags. *)
Definition scanCore (st : ScanState)
    : JS.number * JS.number * list FileRecord * bool * bool :=
  (s_total_files st, s_total_directories st, s_files st, inFileListing st,
   inSummary st).

(** The number of distinct proper path prefixes of a list of paths. *)
Definition distinctPrefixes (paths : list str) : nat :=
  size (list_to_set (flat_map properPrefixes paths) : gset str).

(** *** Processes *)

(** What [pgrep] prints for a list of matching process identifiers: one
    decimal numeral per line. *)
Definition pgrepOutput (pids : list N) : str :=
  flat_map (fun p => JS.showN p ++ [LF]) pids.

(** *** Numerals *)

(** The value of a numeral given least significant digit first. *)
Definition lsValue (ds : list N) : N :=
  foldr (fun d acc => (d + 10 * acc)%N) 0%N ds.

(** *** Exclude files *)

(** The lines of an exclude file that are kept, in their trimmed form:
    not blank, not a comment. *)
Definition keptLine (trimmed : str) : bool :=
  JS.truthy trimmed && negb (JS.startsWith trimmed "#").

(** *** Regular expressions *)

(** The rest of the input does not start with a character of the class. *)
Definition headFails (cls : ascii -> bool) (r : str) : Prop :=
  match r with
  | [] => True
  | c :: _ => cls c = false
  end.

(** *** The cases of one step of the walk

    What one iteration of the inner loop of [buildTreeFromFiles] does with
    the array it is positioned at: it descends into a node it found, stays
    at a node without children, or pushes a new directory or file node. *)

Inductive WalkStep (f : FileRecord) (part : str) (rest : list str)
    (cp : str) (level : list TreeNode) : Prop :=
| step_descend l1 e l2 ch :
    level = l1 ++ e :: l2 ->
    n_path e = extendPath cp part ->
    (forall x, x ∈ l1 -> n_path x <> extendPath cp part) ->
    n_children e = Some ch ->
    walk f (part :: rest) cp level =
      l1 ++ setChildren e (walk f rest (extendPath cp part) ch) :: l2 ->
    WalkStep f part rest cp level
| step_stay e :
    e ∈ level ->
    n_path e = extendPath cp part ->
    n_children e = None ->
    walk f (part :: rest) cp level =
      walk f rest (extendPath cp part) level ->
    WalkStep f part rest cp level
| step_new_directory s m :
    (forall x, x ∈ level -> n_path x <> extendPath cp part) ->
    rest <> [] \/ f_type f = TDirectory ->
    walk f (part :: rest) cp level =
      level ++ [mkNode (extendPath cp part) TDirectory s m
                  (Some (walk f rest (extendPath cp part) []))] ->
    WalkStep f part rest cp level
| step_new_file :
    (forall x, x ∈ level -> n_path x <> extendPath cp part) ->
    rest = [] -> f_type f = TFile ->
    walk f (part :: rest) cp level =
      level ++ [mkNode (extendPath cp part) TFile (Some (f_size f))
                  (Some (f_modified f)) None] ->
    WalkStep f part rest cp level.

(** *** The change log *)

(** The log that the changes handler reads: a file whose name ends with
    [.log], in a matching log directory that was modified last. *)
Definition SelectedLog (path_join : str -> str -> str)
    (path_basename : str -> str) (MONITOR_DIR : str) (w : World)
    (watchPath content : str) : Prop :=
  let logsDir := path_join MONITOR_DIR "logs" in
  exists logDirs t0 latestDir logFiles t1 logFile t2,
    fs w !! logsDir = Some (Dir logDirs t0) /\
    latestDir ∈ logDirs /\
    matchesLogDir (path_basename watchPath) latestDir = true /\
    fs w !! path_join logsDir latestDir = Some (Dir logFiles t1) /\
    (forall d e, d ∈ logDirs ->
       matchesLogDir (path_basename watchPath) d = true ->
       fs w !! path_join logsDir d = Some e -> (entryMtime e <= t1)%N) /\
    logFile ∈ logFiles /\ JS.endsWith logFile ".log" = true /\
    fs w !! path_join (path_join logsDir latestDir) logFile =
      Some (File content t2).

(** *** An example environment

    A server installed under [/opt/monitor] with two log directories for
    the watched directory [/w], and two running watch processes. *)

Definition exampleWorld : World :=
  mkWorld
    (<[ list_ascii_of_string "/opt/monitor/logs" :=
          Dir [ "ldm_w_1" : str; "ldm_w_2" : str; "other" : str ] 1 ]>
     (<[ list_ascii_of_string "/opt/monitor/logs/ldm_w_1" :=
           Dir [ "monitor.log" : str ] 10 ]>
      (<[ list_ascii_of_string "/opt/monitor/logs/ldm_w_2" :=
            Dir [ "notes.txt" : str; "monitor.log" : str ] 20 ]>
       (<[ list_ascii_of_string "/opt/monitor/logs/ldm_w_2/monitor.log" :=
             File ("[t1][fswatch] Change detected: a.txt" ++ LF ::
                   "[t2][fswatch] Change detected: b.txt")
                  30 ]> ∅))))
    (fun cmd =>
       if bool_decide (cmd = pgrepCommand "/w")
       then inl (pgrepOutput [4711; 4712]%N)
       else inr (list_ascii_of_string "Command failed"))
    "2026-01-19T21:10:57.000Z".

(** *** The paths of one walk *)

(** The successive values of [currentPath] in one run of the inner loop of
    [buildTreeFromFiles]. *)
Fixpoint visited (parts : list str) (currentPath : str) : list str :=
  match parts with
  | [] => []
  | part :: rest =>
      let currentPath := extendPath currentPath part in
      currentPath :: visited rest currentPath
  end.

(** *** Where a node comes from

    A node made for a part before the last one of some record's path: a
    directory without size and modified value. *)
Definition madeOnTheWay (files : list FileRecord) (e : TreeNode) : Prop :=
  n_type e = TDirectory /\ n_size e = None /\ n_modified e = None /\
  is_Some (n_children e) /\
  exists f, f ∈ files /\
    n_path e ∈ intermediate (JS.split SLASH (f_path f)) [].

(** A node made for the last part of the path of a record: it has the
    type, the size and the modified value of that record. *)
Definition madeFor (files : list FileRecord) (e : TreeNode) : Prop :=
  exists f, f ∈ files /\
    n_path e = finalPath (JS.split SLASH (f_path f)) [] /\
    n_type e = f_type f /\ n_size e = Some (f_size f) /\
    n_modified e = Some (f_modified f).

(** *** What a regular expression matches

    [denotes r w rest caps]: the expression [r] matches the text [w] when
    [rest] follows it, and records the capture groups [caps]. *)
Fixpoint denotes (r : regex) (w rest : str) (caps : list str) : Prop :=
  match r with
  | Lit p => w = p /\ caps = []
  | Many min cls =>
      Forall (fun c => cls c = true) w /\ min <= length w /\ caps = []
  | Cap r' => exists caps', denotes r' w rest caps' /\ caps = caps' ++ [w]
  | Cat r1 r2 =>
      exists w1 w2 c1 c2,
        w = w1 ++ w2 /\ denotes r1 w1 (w2 ++ rest) c1 /\
        denotes r2 w2 rest c2 /\ caps = c1 ++ c2
  | Eos => w = [] /\ rest = [] /\ caps = []
  end.

(** *** Parsed manifests *)

(** The record that the scanning loop pushes for an entry line: the size
    is the number that [parseInt] reads from the numeral of the byte
    count. *)
Definition recordOf (e : ManifestEntry) : FileRecord :=
  mkFile (e_path e) TFile (JS.double false (e_bytes e))
         (JS.trim (e_modified e)).

(** A size as the scanning loop reads it: a number that is not [NaN] and
    not negative, that is a natural number or [Infinity]. *)
Definition isCount (n : JS.number) : Prop :=
  (exists k : N, n = JS.Int (Z.of_N k)) \/ n = JS.Infinity false.

(** A record as the scanning loop pushes it. *)
Definition scannedRecord (f : FileRecord) : Prop :=
  f_type f = TFile /\ f_path f <> [] /\ (DQUOTE ∉ f_path f) /\
  isCount (f_size f) /\ JS.trim (f_modified f) = f_modified f /\
  Forall (fun c => JS.isLineTerminator c = false) (f_modified f).

(** What holds of the variables of the loop at every iteration: the two
    totals are counts, and every record is one that an entry line gives. *)
Definition scanned (st : ScanState) : Prop :=
  isCount (s_total_files st) /\ isCount (s_total_directories st) /\
  Forall scannedRecord (s_files st).

(** *** Change lines *)

(** The line that the monitor writes to its log for a change. *)
Definition changeLine (c : RecentChange) : str :=
  "[" ++ rc_timestamp c ++ "][fswatch] Change detected: " ++ rc_file c.

(** A change as a log line carries it: a timestamp without closing
    bracket and a file name without line terminator, neither empty. *)
Definition wellFormedChange (c : RecentChange) : Prop :=
  rc_timestamp c <> [] /\ ("]"%char ∉ rc_timestamp c) /\
  rc_file c <> [] /\
  Forall (fun x => JS.isLineTerminator x = false) (rc_file c).

(** ** More request handlers *)

Section Control.

Variable decodeURIComponent : str -> str + str.
Variable path_join : str -> str -> str.
Variable MONITOR_DIR : str.
Variable w : World.

(** [pkill -f Q fswatch.*${watchPath} Q || true], where [Q] stands for the
    double quote character. *)
Definition pkillFswatchCommand (watchPath : str) : str :=
  "pkill -f " ++ DQUOTE :: "fswatch.*" ++ watchPath ++ DQUOTE :: " || true".

Definition pkillMonitorCommand (watchPath : str) : str :=
  "pkill -f " ++ DQUOTE :: "lhi_directory_monitor.*" ++ watchPath ++
  DQUOTE :: " || true".

(** [app.post("/api/stop/*")] *)
Definition postStop (param : str) : M (Response ActionBody) :=
  tryCatch
    (watchPath ← normalizePathParam decodeURIComponent param;
     _ ← execAsync w (pkillFswatchCommand watchPath);
     _ ← execAsync w (pkillMonitorCommand watchPath);
     mret (Reply 200 (Success ("Monitor stopped for " ++ watchPath) None)))
    (fun error => mret (Reply 500 (Failure error))).

Definition registryRemoveCommand (directory : str) : str :=
  "bash " ++ DQUOTE :: REGISTRY_SCRIPT path_join MONITOR_DIR ++
  DQUOTE :: " remove-direct " ++ DQUOTE :: directory ++ [DQUOTE].

(** [app.post("/api/registry/remove")]; [directory] is
    [req.body.directory], [None] when the body has no such field. *)
Definition registryRemove (directory : option str)
    : M (Response ActionBody) :=
  tryCatch
    (match directory with
     | None => mret (Reply 400 (Failure "Directory path is required"))
     | Some directory =>
         if negb (JS.truthy directory)
         then mret (Reply 400 (Failure "Directory path is required"))
         else
           stdout ← execAsync w (registryRemoveCommand directory);
           mret (Reply 200
             (Success ("Directory removed: " ++ directory) (Some stdout)))
     end)
    (fun error => mret (Reply 500 (Failure error))).

End Control.

(** ** The tree view of the user interface

    The pure parts of [DirectoryMonitor] and [FileTreeNode]: whether an
    entry is shown as excluded, the name an entry is shown with, and the
    root node that wraps the tree of the selected directory. *)

Module UI.

(** [s.replace(/\*\*/g, "")]: every pair of stars, from left to right. *)
Fixpoint removeStarPairs (s : str) : str :=
  match s with
  | a :: t =>
      match t with
      | b :: s' =>
          if JS.eqc a "*" && JS.eqc b "*" then removeStarPairs s'
          else a :: removeStarPairs t
      | [] => [a]
      end
  | [] => []
  end.

(** [s.replace(/\*/g, "")] *)
Definition removeStars (s : str) : str :=
  List.filter (fun c => negb (JS.eqc c "*")) s.

(** [const cleanPattern = pattern.replace(/\*\*/g, "").replace(/\*/g, "")] *)
Definition cleanPattern (pattern : str) : str :=
  removeStars (removeStarPairs pattern).

(** [excludePatterns.some(...)] in [FileTreeNode], for an entry with the
    given path. *)
Definition isExcluded (excludePatterns : list str) (path : str) : bool :=
  existsb
    (fun pattern =>
       let cleanPattern := cleanPattern pattern in
       JS.includes path cleanPattern || JS.endsWith path cleanPattern)
    excludePatterns.

(** [arr.pop()]: the last element, [undefined] for an empty array. *)
Definition pop (arr : list str) : option str := last arr.

(** [path.split("/").pop() || path]: the name an entry is shown with, and
    the name of the selected directory. *)
Definition displayName (path : str) : str :=
  orElse (pop (JS.split SLASH path)) path.

(** [getRootDirName]; [selectedDir] is [null] or a string. *)
Definition getRootDirName (selectedDir : option str) : option str :=
  match selectedDir with
  | None => None
  | Some d => if negb (JS.truthy d) then None else Some (displayName d)
  end.

(** [getTreeWithRoot]; [tree] is [manifest?.tree], [None] when there is no
    manifest or it has no tree. The root node has a path, the type
    directory and the children, and no other field. *)
Definition getTreeWithRoot (selectedDir : option str)
    (tree : option (list TreeNode)) : list TreeNode :=
  match tree with
  | None => []
  | Some [] => []
  | Some tree =>
      match getRootDirName selectedDir with
      | None => tree
      | Some rootName =>
          if negb (JS.truthy rootName) then tree
          else [mkNode rootName TDirectory None None (Some tree)]
      end
  end.

(** [excludePatterns.map((p) => p.pattern)], as the tree view gets its
    patterns from the reply of the excludes query. *)
Definition patternsOf (excludePatterns : list ExcludePattern) : list str :=
  map pattern excludePatterns.

End UI.

(** ** The legacy handlers

    The handlers without a path parameter work on [DEFAULT_WATCHED_PATH],
    which is the value of an environment variable, or [null] when the
    variable is not set or empty. [path.join] throws a [TypeError] for an
    argument that is not a string; [pathTypeError] is its message. *)

Section Legacy.

Variable path_join : str -> str -> str.
Variable w : World.
Variable DEFAULT_WATCHED_PATH : option str.
Variable pathTypeError : str.

(** [path.join(DEFAULT_WATCHED_PATH, name)] *)
Definition joinDefault (name : str) : M str :=
  match DEFAULT_WATCHED_PATH with
  | Some p => mret (path_join p name)
  | None => throw pathTypeError
  end.

(** The reply of the legacy manifest query without a manifest file;
    [directory] is [DEFAULT_WATCHED_PATH], which is a string when this
    reply is reached. *)
Definition legacyManifestMissing (directory : str) : ManifestBody :=
  mkManifestBody directory None (JS.Int 0) (JS.Int 0) []
    (Some (list_ascii_of_string
       "No manifest file found. Start the monitor to generate one.")).

(** [app.get("/api/manifest")] *)
Definition legacyManifest : M (Response (ManifestBody + str)) :=
  tryCatch
    (manifestPath ← joinDefault ".lhi_manifest";
     let defaultPath := default [] DEFAULT_WATCHED_PATH in
     missing ← tryCatch (fs_access w manifestPath ≫= fun _ => mret false)
                         (fun _ => mret true);
     if missing : bool
     then mret (Reply 200 (inl (legacyManifestMissing defaultPath)))
     else
       content ← fs_readFile w manifestPath;
       let parsed := parseTextManifest content in
       mret (Reply 200
         (inl (mkManifestBody
                 (orElse (directory parsed) defaultPath)
                 (Some (orElse (timestamp parsed) (now w)))
                 (orZero (total_files parsed))
                 (orZero (total_directories parsed))
                 (tree parsed)
                 None))))
    (fun error => mret (Reply 500 (inr error))).

(** [app.get("/api/excludes")] *)
Definition legacyExcludes : M (Response (ExcludesBody + str)) :=
  tryCatch
    (excludePath ← joinDefault ".lhi_excludes";
     primary ← tryCatch
       (_ ← fs_access w excludePath;
        content ← fs_readFile w excludePath;
        mret (Some (mkExcludesBody (parseExcludes content)
                      (Some (list_ascii_of_string ".lhi_excludes")))))
       (fun _ => mret None);
     match primary with
     | Some b => mret (Reply 200 (inl b))
     | None =>
         gitignorePath ← joinDefault ".gitignore";
         tryCatch
           (_ ← fs_access w gitignorePath;
            content ← fs_readFile w gitignorePath;
            mret (Reply 200 (inl (mkExcludesBody (parseExcludes content)
                      (Some (list_ascii_of_string ".gitignore"))))))
           (fun _ => mret (Reply 200 (inl (mkExcludesBody [] None))))
     end)
    (fun error => mret (Reply 500 (inr error))).

End Legacy.

(** *** Header lines *)

(** The value that a line gives for a header field with the given keyword:
    the text after the keyword, trimmed; nothing when the line does not
    start with the keyword. *)
Definition headerValue (keyword line : str) : option str :=
  if JS.startsWith line keyword
  then Some (JS.trim (drop (length keyword) line))
  else None.

(** * Properties *)

(** ** Strings *)


Lemma eqc_true a b : JS.eqc a b = true <-> a = b.
Proof. apply Ascii.eqb_eq. Qed.

Lemma eqc_false a b : JS.eqc a b = false <-> a <> b.
Proof. apply Ascii.eqb_neq. Qed.

Lemma eqc_refl a : JS.eqc a a = true.
Proof. apply Ascii.eqb_refl. Qed.

Lemma startsWith_app p s : JS.startsWith (p ++ s) p = true.
Proof.
  induction p as [|a p IH]; simpl; [done|].
  by rewrite eqc_refl, IH.
Qed.

Lemma split_cons_sep sep s : JS.split sep (sep :: s) = [] :: JS.split sep s.
Proof. simpl. by rewrite eqc_refl. Qed.

Lemma split_not_nil sep s : JS.split sep s <> [].
Proof.
  destruct s as [|c s]; simpl; [done|].
  destruct (JS.eqc c sep); [done|]. by destruct (JS.split sep s).
Qed.

Lemma split_app_sep sep a b :
  sep ∉ a -> JS.split sep (a ++ sep :: b) = a :: JS.split sep b.
Proof.
  induction a as [|c a IH]; intros Ha.
  - apply split_cons_sep.
  - apply not_elem_of_cons in Ha as [Hc Ha]. simpl.
    assert (JS.eqc c sep = false) as -> by (apply eqc_false; congruence).
    by rewrite IH.
Qed.

Lemma split_no_sep sep a : sep ∉ a -> JS.split sep a = [a].
Proof.
  induction a as [|c a IH]; intros Ha; [done|].
  apply not_elem_of_cons in Ha as [Hc Ha]. simpl.
  assert (JS.eqc c sep = false) as -> by (apply eqc_false; congruence).
  by rewrite IH.
Qed.

Lemma split_parts sep s : Forall (fun part => sep ∉ part) (JS.split sep s).
Proof.
  induction s as [|c s IH]; simpl.
  - repeat constructor. apply not_elem_of_nil.
  - destruct (JS.eqc c sep) eqn:E.
    + constructor; [apply not_elem_of_nil | done].
    + apply eqc_false in E. destruct (JS.split sep s) as [|h t].
      * repeat constructor. apply not_elem_of_cons.
        split; [congruence | apply not_elem_of_nil].
      * apply Forall_cons in IH as [Hh Ht]. constructor; [|done].
        apply not_elem_of_cons. split; [congruence | done].
Qed.

Lemma split_joinLines lines :
  lines <> [] -> Forall (fun l => LF ∉ l) lines ->
  JS.split LF (joinLines lines) = lines.
Proof.
  induction lines as [|l ls IH]; intros Hne Hall; [done|].
  apply Forall_cons in Hall as [Hl Hls].
  destruct ls as [|l' ls'].
  - simpl. by apply split_no_sep.
  - change (joinLines (l :: l' :: ls')) with (l ++ LF :: joinLines (l' :: ls')).
    rewrite split_app_sep by done. f_equal. by apply IH.
Qed.

(** *** Trimming *)

Lemma dropWhile_app_keep p l x :
  p x = false -> exists l', JS.dropWhile p (l ++ [x]) = l' ++ [x].
Proof.
  intros Hx. induction l as [|c l [l' IH]]; simpl.
  - rewrite Hx. by exists [].
  - destruct (p c); [by exists l'|]. by exists (c :: l).
Qed.

Lemma trimEnd_cons c s :
  JS.isSpace c = false -> exists t, JS.trimEnd (c :: s) = c :: t.
Proof.
  intros Hc. unfold JS.trimEnd. simpl.
  destruct (dropWhile_app_keep JS.isSpace (rev s) c Hc) as [l' ->].
  rewrite rev_app_distr. simpl. by eexists.
Qed.

Lemma trim_cons c s :
  JS.isSpace c = false -> exists t, JS.trim (c :: s) = c :: t.
Proof.
  intros Hc. unfold JS.trim, JS.trimStart. simpl. rewrite Hc.
  by apply trimEnd_cons.
Qed.

Lemma dropWhile_head p s :
  match JS.dropWhile p s with [] => True | c :: _ => p c = false end.
Proof.
  induction s as [|c s IH]; simpl; [done|].
  destruct (p c) eqn:E; [done|]. done.
Qed.

(** A trimmed string is empty or starts with a character that is not
    white space. *)
Lemma trim_head s :
  match JS.trim s with [] => True | c :: _ => JS.isSpace c = false end.
Proof.
  unfold JS.trim, JS.trimStart.
  pose proof (dropWhile_head JS.isSpace s) as H.
  destruct (JS.dropWhile JS.isSpace s) as [|c t]; [done|].
  destruct (trimEnd_cons c t H) as [t' ->]. done.
Qed.

Lemma trimEnd_snoc_space s c :
  JS.isSpace c = true -> JS.trimEnd (s ++ [c]) = JS.trimEnd s.
Proof.
  intros Hc. unfold JS.trimEnd. rewrite rev_app_distr. simpl. by rewrite Hc.
Qed.

Lemma trimEnd_snoc_keep s c :
  JS.isSpace c = false -> JS.trimEnd (s ++ [c]) = s ++ [c].
Proof.
  intros Hc. unfold JS.trimEnd. rewrite rev_app_distr. simpl. rewrite Hc.
  simpl. by rewrite rev_involutive.
Qed.

(** *** Decimal numerals *)

Lemma digit_cases (d : N) :
  (d < 10)%N ->
  d = 0%N \/ d = 1%N \/ d = 2%N \/ d = 3%N \/ d = 4%N \/ d = 5%N \/
  d = 6%N \/ d = 7%N \/ d = 8%N \/ d = 9%N.
Proof. lia. Qed.

Lemma digitChar_facts (d : N) :
  (d < 10)%N ->
  JS.isDigit (JS.digitChar d) = true /\
  JS.digitVal (JS.digitChar d) = d /\
  JS.isSpace (JS.digitChar d) = false /\
  JS.digitChar d <> "-"%char /\ JS.digitChar d <> "+"%char /\
  JS.digitChar d <> "x"%char /\ JS.digitChar d <> "X"%char /\
  JS.digitChar d <> LF.
Proof.
  intros H. destruct (digit_cases d H) as [->|[->|[->|[->|[->|[->|[->|[->|[->| ->]]]]]]]]];
    vm_compute; repeat split; congruence.
Qed.

Lemma lsDigits_lt fuel n : Forall (fun d => (d < 10)%N) (JS.lsDigits fuel n).
Proof.
  revert n. induction fuel as [|f IH]; intros n; simpl.
  - repeat constructor. apply N.mod_lt. lia.
  - destruct (n / 10 =? 0)%N.
    + repeat constructor. apply N.mod_lt. lia.
    + constructor; [apply N.mod_lt; lia | apply IH].
Qed.

Lemma lsDigits_not_nil fuel n : JS.lsDigits fuel n <> [].
Proof. destruct fuel; simpl; [done|]. by destruct (n / 10 =? 0)%N. Qed.

Lemma lsDigits_value fuel n :
  (n < 2 ^ N.of_nat (S fuel))%N -> lsValue (JS.lsDigits fuel n) = n.
Proof.
  revert n. induction fuel as [|f IH]; intros n Hn.
  - simpl. change (2 ^ N.of_nat 1)%N with 2%N in Hn.
    rewrite N.mod_small by lia. lia.
  - cbn [JS.lsDigits]. destruct (n / 10 =? 0)%N eqn:E.
    + apply N.eqb_eq in E. simpl.
      pose proof (N.div_mod n 10 ltac:(lia)). lia.
    + cbn [lsValue foldr]. fold (lsValue (JS.lsDigits f (n / 10))).
      rewrite IH.
      * pose proof (N.div_mod n 10 ltac:(lia)). lia.
      * assert (n / 10 <= n / 2)%N.
        { apply N.div_le_compat_l. lia. }
        assert (n / 2 < 2 ^ N.of_nat (S f))%N; [|lia].
        apply N.Div0.div_lt_upper_bound.
        replace (N.of_nat (S (S f))) with (N.succ (N.of_nat (S f))) in Hn by lia.
        rewrite N.pow_succ_r' in Hn. lia.
Qed.

Lemma digitsVal_snoc ds c :
  JS.digitsVal (ds ++ [c]) = (10 * JS.digitsVal ds + JS.digitVal c)%N.
Proof. unfold JS.digitsVal. by rewrite fold_left_app. Qed.

Lemma digitsVal_rev ds :
  Forall (fun d => (d < 10)%N) ds ->
  JS.digitsVal (rev (map JS.digitChar ds)) = lsValue ds.
Proof.
  induction 1 as [|d ds Hd _ IH]; [done|].
  simpl. rewrite digitsVal_snoc, IH.
  destruct (digitChar_facts d Hd) as (_ & -> & _). lia.
Qed.

Lemma showN_value n : JS.digitsVal (JS.showN n) = n.
Proof.
  unfold JS.showN. rewrite digitsVal_rev by apply lsDigits_lt.
  apply lsDigits_value.
  destruct (N.eq_dec n 0%N) as [->|Hn]; [done|].
  rewrite Nat2N.inj_succ, N2Nat.id.
  apply N.log2_spec. lia.
Qed.

(** Every character of a numeral is a digit. *)
Lemma showN_digits n :
  Forall (fun c => exists d, (d < 10)%N /\ c = JS.digitChar d) (JS.showN n).
Proof.
  unfold JS.showN. apply Forall_rev, Forall_map.
  eapply Forall_impl; [apply lsDigits_lt|]. intros d Hd. by exists d.
Qed.

Lemma showN_not_nil n : JS.showN n <> [].
Proof.
  unfold JS.showN. intros H. apply (f_equal (@length _)) in H.
  rewrite length_rev, length_map in H.
  pose proof (lsDigits_not_nil (N.to_nat (N.log2 n)) n).
  destruct (JS.lsDigits (N.to_nat (N.log2 n)) n); simpl in *; congruence.
Qed.

Lemma showN_isDigit n : Forall (fun c => JS.isDigit c = true) (JS.showN n).
Proof.
  eapply Forall_impl; [apply showN_digits|].
  intros c (d & Hd & ->). by apply digitChar_facts.
Qed.

Lemma showN_no_space n : Forall (fun c => JS.isSpace c = false) (JS.showN n).
Proof.
  eapply Forall_impl; [apply showN_digits|].
  intros c (d & Hd & ->). by apply digitChar_facts.
Qed.

Lemma showN_no_LF n : LF ∉ JS.showN n.
Proof.
  intros H. pose proof (showN_digits n) as Hd.
  rewrite Forall_forall in Hd. destruct (Hd _ H) as (d & Hlt & Heq).
  destruct (digitChar_facts d Hlt) as (_ & _ & _ & _ & _ & _ & _ & Hne).
  by apply Hne.
Qed.

Lemma takeWhile_all p s r :
  Forall (fun c => p c = true) s ->
  match r with [] => True | c :: _ => p c = false end ->
  JS.takeWhile p (s ++ r) = s.
Proof.
  intros Hs Hr. induction Hs as [|c s Hc _ IH]; simpl.
  - destruct r as [|c r]; [done|]. simpl. by rewrite Hr.
  - by rewrite Hc, IH.
Qed.

(** Up to [2^53] a natural number is a double. *)
Lemma double_exact neg v :
  (v <= 2 ^ 53)%N ->
  JS.double neg v = JS.Int (if neg then (- Z.of_N v)%Z else Z.of_N v).
Proof.
  intros H. unfold JS.double, JS.nearest.
  apply N.leb_le in H. by rewrite H.
Qed.

(** The double nearest to a positive number is not zero. *)
Lemma nearest_not_zero v : (0 < v)%N -> JS.nearest v <> Some 0%N.
Proof.
  intros Hpos. unfold JS.nearest.
  destruct (v <=? 2 ^ 53)%N; [intros [= ->]; lia|].
  set (e := (N.log2 v - 52)%N).
  assert (2 ^ e <= v)%N as Hle.
  { transitivity (2 ^ N.log2 v)%N.
    - apply N.pow_le_mono_r; [done | lia].
    - by apply N.log2_spec. }
  assert (0 < 2 ^ e)%N as Hpow by (apply N.neq_0_lt_0, N.pow_nonzero; lia).
  assert (1 <= v / 2 ^ e)%N as Hq.
  { apply N.div_le_lower_bound; lia. }
  cbv zeta.
  destruct ((2 ^ (e - 1) <? v mod 2 ^ e)%N ||
            (v mod 2 ^ e =? 2 ^ (e - 1))%N && N.odd (v / 2 ^ e));
    (destruct (2 ^ 1024 <=? _)%N; [done|]); intros [= H]; nia.
Qed.

Lemma isZero_double v : isZero (JS.double false v) = (v =? 0)%N.
Proof.
  destruct (N.eq_dec v 0%N) as [->|Hne]; [done|].
  pose proof (nearest_not_zero v) as H.
  assert ((v =? 0)%N = false) as -> by by apply N.eqb_neq.
  unfold JS.double. destruct (JS.nearest v) as [[|z]|]; [|done..].
  exfalso. apply H; [lia | done].
Qed.

(** Rounding and overflow, as the platform shows them. *)
Example parseInt10_rounds :
  JS.parseInt10 "9007199254740993" = JS.Int 9007199254740992 /\
  JS.parseInt10 "99999999999999999999" = JS.Int 100000000000000000000.
Proof. by vm_compute. Qed.

Example parseInt10_out_of_range :
  JS.parseInt10 (repeat "9"%char 400) = JS.Infinity false.
Proof. by vm_compute. Qed.

Lemma parseInt10_showN n : JS.parseInt10 (JS.showN n) = JS.double false n.
Proof.
  pose proof (showN_digits n) as Hd. pose proof (showN_not_nil n) as Hne.
  pose proof (showN_isDigit n) as Hdig. pose proof (showN_value n) as Hv.
  unfold JS.parseInt10, JS.trimStart.
  destruct (JS.showN n) as [|c s] eqn:E; [done|].
  apply Forall_cons in Hd as [(d & Hlt & ->) _].
  destruct (digitChar_facts d Hlt) as (_ & _ & Hsp & Hm & Hp & _).
  simpl. rewrite Hsp.
  assert (JS.eqc (JS.digitChar d) "-" = false) as -> by by apply eqc_false.
  assert (JS.eqc (JS.digitChar d) "+" = false) as -> by by apply eqc_false.
  rewrite <- (app_nil_r (JS.digitChar d :: s)) at 1.
  rewrite takeWhile_all by done. by rewrite Hv.
Qed.

Lemma parseInt_showN n : JS.parseInt (JS.showN n) = JS.Int (Z.of_N n).
Proof.
  pose proof (showN_digits n) as Hd. pose proof (showN_not_nil n) as Hne.
  pose proof (showN_isDigit n) as Hdig. pose proof (showN_value n) as Hv.
  unfold JS.parseInt, JS.trimStart.
  destruct (JS.showN n) as [|c s] eqn:E; [done|].
  apply Forall_cons in Hd as [(d & Hlt & ->) Hs].
  destruct (digitChar_facts d Hlt) as (_ & _ & Hsp & Hm & Hp & _).
  simpl JS.dropWhile. rewrite Hsp.
  assert (JS.eqc (JS.digitChar d) "-" = false) as -> by by apply eqc_false.
  assert (JS.eqc (JS.digitChar d) "+" = false) as -> by by apply eqc_false.
  assert (JS.takeWhile JS.isDigit (JS.digitChar d :: s) = JS.digitChar d :: s)
    as Htw.
  { rewrite <- (app_nil_r (JS.digitChar d :: s)) at 1.
    by rewrite takeWhile_all. }
  destruct s as [|x r].
  - rewrite Htw. by rewrite Hv.
  - apply Forall_cons in Hs as [(d' & Hlt' & ->) _].
    destruct (digitChar_facts d' Hlt') as (_ & _ & _ & _ & _ & Hx & HX & _).
    assert (JS.eqc (JS.digitChar d') "x" = false) as -> by by apply eqc_false.
    assert (JS.eqc (JS.digitChar d') "X" = false) as -> by by apply eqc_false.
    rewrite andb_false_r. rewrite Htw. by rewrite Hv.
Qed.

(** ** [parseExcludes] *)

Lemma endsWith_slash t :
  JS.endsWith t "/" = true <-> exists s, t = s ++ [SLASH].
Proof.
  unfold JS.endsWith. simpl. split.
  - intros H. destruct (rev t) as [|c r] eqn:E; [done|].
    rewrite andb_true_r in H. apply eqc_true in H. subst c.
    exists (rev r). apply (f_equal (@rev _)) in E.
    by rewrite rev_involutive in E.
  - intros [s ->]. rewrite rev_app_distr. simpl. done.
Qed.

Lemma parseExcludesLine_kept acc l :
  parseExcludesLine acc l =
  if keptLine (JS.trim l)
  then acc ++ [mkPattern (JS.trim l) (JS.endsWith (JS.trim l) "/")]
  else acc.
Proof.
  unfold parseExcludesLine, keptLine.
  by destruct (JS.truthy (JS.trim l)), (JS.startsWith (JS.trim l) "#").
Qed.

Lemma parseExcludes_fold lines acc :
  fold_left parseExcludesLine lines acc =
  acc ++ map (fun t => mkPattern t (JS.endsWith t "/"))
             (List.filter keptLine (map JS.trim lines)).
Proof.
  revert acc. induction lines as [|l lines IH]; intros acc; simpl.
  - by rewrite app_nil_r.
  - rewrite IH, parseExcludesLine_kept.
    destruct (keptLine (JS.trim l)); [|done].
    by rewrite <- app_assoc.
Qed.

(** C9. [parseExcludes] keeps, in order and trimmed, exactly the lines that
    are neither blank nor comments; a pattern is marked as a directory
    exactly when it ends with a slash; and the file with the line
    [node_modules/], a blank line and a comment line yields the single
    pattern [node_modules/], marked as a directory. *)
Theorem parseExcludes_spec (content : str) :
  map pattern (parseExcludes content) =
    List.filter keptLine (map JS.trim (JS.split LF content)) /\
  Forall (fun p => isDirectory p = true <-> exists s, pattern p = s ++ [SLASH])
         (parseExcludes content) /\
  forall comment : str,
    LF ∉ comment ->
    parseExcludes ("node_modules/" ++ LF :: LF :: "#" ++ comment) =
    [mkPattern "node_modules/" true].
Proof.
  unfold parseExcludes. split; [|split].
  - rewrite parseExcludes_fold. simpl. rewrite map_map. simpl.
    by rewrite map_id.
  - rewrite parseExcludes_fold. simpl. apply Forall_map.
    apply Forall_forall. intros t _. simpl. apply endsWith_slash.
  - intros comment Hc.
    rewrite split_app_sep by compute_done.
    rewrite split_cons_sep.
    rewrite split_no_sep.
    2:{ intros H. apply elem_of_cons in H as [H|H]; [discriminate|done]. }
    rewrite parseExcludes_fold. simpl map.
    destruct (trim_cons "#" comment eq_refl) as [t Ht].
    rewrite Ht. reflexivity.
Qed.

Lemma parseExcludes_spec_witness :
  parseExcludes ("node_modules/" ++ LF :: LF :: "#" ++ " build output") =
  [mkPattern "node_modules/" true].
Proof.
  apply (proj2 (proj2 (parseExcludes_spec []))). compute_done.
Defined.

(** ** Request handlers *)

Section ServerProperties.

Variable decodeURIComponent : str -> str + str.
Variable path_join : str -> str -> str.
Variable path_basename : str -> str.
Variable toISOString : N -> str.
Variable MONITOR_DIR : str.
Variable w : World.

Ltac run_handler :=
  unfold tryCatch, normalizePathParam, fs_access, fs_readFile, fs_stat,
    fs_readdir, execAsync, spawn, sleep, emit, throw,
    mbind, M_bind, mret, M_ret; simpl.

Lemma bind_run {A B} (m : M A) (f : A -> M B) (log : list Event) :
  (m ≫= f) log =
  match m log with
  | (inl a, log') => f a log'
  | (inr e, log') => (inr e, log')
  end.
Proof. reflexivity. Qed.

Lemma ret_run {A} (a : A) (log : list Event) :
  (mret a : M A) log = (inl a, log).
Proof. reflexivity. Qed.

Lemma normalizePathParam_ok param decoded log :
  decodeURIComponent param = inl decoded ->
  normalizePathParam decodeURIComponent param log =
    (inl (absolute decoded), log).
Proof. intros H. unfold normalizePathParam. by rewrite H. Qed.

(** C6. When the manifest file of a directory does not exist, the manifest
    query answers with an ordinary reply (status 200) that carries zero
    totals, an empty tree and a descriptive message; nothing is done to
    the outside. *)
Theorem manifest_missing_is_normal (param decoded : str) (log : list Event) :
  decodeURIComponent param = inl decoded ->
  fs w !! path_join (absolute decoded) ".lhi_manifest" = None ->
  getManifest decodeURIComponent path_join w param log =
    (inl (Reply 200
       (inl (mkManifestBody (absolute decoded) None (JS.Int 0) (JS.Int 0) []
               (Some (list_ascii_of_string
                  "No manifest file found. Click Refresh to generate one."))))),
     log).
Proof.
  intros Hd Hfs. unfold getManifest, tryCatch, mbind, M_bind.
  rewrite (normalizePathParam_ok _ _ _ Hd).
  unfold fs_access. rewrite Hfs. reflexivity.
Qed.

(** C7. A request to add a directory without a directory argument, or with
    an empty one, is rejected with status 400 and a message, and so is a
    request for a path that does not exist; in both cases no command is
    run. The registration tool is run only for a path that exists. *)
Theorem registryAdd_validates (directory : option str) (log : list Event) :
  (directory = None \/ directory = Some [] ->
   registryAdd path_join MONITOR_DIR w directory log =
     (inl (Reply 400 (Failure "Directory path is required")), log)) /\
  (forall d, directory = Some d -> d <> [] -> fs w !! d = None ->
   registryAdd path_join MONITOR_DIR w directory log =
     (inl (Reply 400 (Failure ("Directory does not exist: " ++ d))), log)) /\
  (forall r log', registryAdd path_join MONITOR_DIR w directory log = (r, log') ->
   log' <> log ->
   exists d, directory = Some d /\ is_Some (fs w !! d) /\
     log' = log ++ [Exec (registryAddCommand path_join MONITOR_DIR d)]).
Proof.
  split; [|split].
  - intros [-> | ->]; reflexivity.
  - intros d -> Hne Hfs. unfold registryAdd. run_handler.
    destruct d as [|c d]; [done|]. simpl. by rewrite Hfs.
  - intros r log' Hrun Hlog. unfold registryAdd in Hrun.
    destruct directory as [d|].
    2:{ revert Hrun. run_handler. intros [= _ <-]. done. }
    destruct d as [|c d].
    { revert Hrun. run_handler. intros [= _ <-]. done. }
    revert Hrun. run_handler.
    destruct (fs w !! (c :: d)) as [e|] eqn:Hfs; simpl.
    + intros Hrun. exists (c :: d). split; [done|]. split; [by eexists|].
      destruct (shell w _); by injection Hrun as _ <-.
    + intros [= _ <-]. done.
Qed.

(** C3. The excludes query follows a strict priority: when [.lhi_excludes]
    is a file of the directory, its parsed patterns are returned with that
    source; otherwise, when [.gitignore] is a file of the directory, its
    parsed patterns are returned with that source; otherwise the patterns
    are empty and the source is [null]. The reply has status 200 in every
    case: a missing file is no error. *)
Theorem excludes_priority (param decoded : str) (log : list Event) :
  decodeURIComponent param = inl decoded ->
  getExcludes decodeURIComponent path_join w param log =
    (inl (Reply 200 (inl
       match fs w !! path_join (absolute decoded) ".lhi_excludes" with
       | Some (File content _) =>
           mkExcludesBody (parseExcludes content)
             (Some (list_ascii_of_string ".lhi_excludes"))
       | _ =>
           match fs w !! path_join (absolute decoded) ".gitignore" with
           | Some (File content _) =>
               mkExcludesBody (parseExcludes content)
                 (Some (list_ascii_of_string ".gitignore"))
           | _ => mkExcludesBody [] None
           end
       end)), log).
Proof.
  intros Hd. unfold getExcludes, tryCatch, mbind, M_bind.
  rewrite (normalizePathParam_ok _ _ _ Hd).
  unfold fs_access, fs_readFile.
  destruct (fs w !! path_join (absolute decoded) ".lhi_excludes")
    as [[c t|ns t]|];
    destruct (fs w !! path_join (absolute decoded) ".gitignore")
      as [[c' t'|ns' t']|]; reflexivity.
Qed.


(** The test of the start handler, [stdout.trim()], succeeds exactly when
    the status handler finds at least one process line. *)
Lemma truthy_trim_pidLines stdout :
  JS.truthy (JS.trim stdout) = Nat.ltb 0 (length (pidLines stdout)).
Proof.
  unfold pidLines. pose proof (trim_head stdout) as H.
  destruct (JS.trim stdout) as [|c t]; [done|].
  assert (JS.eqc c LF = false) as Hc.
  { apply eqc_false. intros ->. discriminate. }
  simpl. rewrite Hc.
  pose proof (split_not_nil LF t).
  by destruct (JS.split LF t).
Qed.

(** C4. With a running watch process, that is when the probe finds a
    process line in the output of [pgrep], the start request answers that
    the monitor is already running and spawns nothing; otherwise it spawns
    the detached monitor script, waits 2000 ms and answers that the
    monitor was started. *)
Theorem start_is_idempotent (param decoded stdout : str) (log : list Event) :
  decodeURIComponent param = inl decoded ->
  shell w (pgrepCommand (absolute decoded)) = inl stdout ->
  postStart decodeURIComponent path_join MONITOR_DIR w param log =
    if Nat.ltb 0 (length (pidLines stdout))
    then
      (inl (Reply 200
              (Success "Monitor already running for this directory" None)),
       log ++ [Exec (pgrepCommand (absolute decoded))])
    else
      (inl (Reply 200
              (Success ("Monitor started for " ++ absolute decoded) None)),
       log ++ [Exec (pgrepCommand (absolute decoded));
               Spawn "bash"
                     [path_join MONITOR_DIR "src/lhi_directory_monitor.sh";
                      "-d" : str; absolute decoded; "--verbose" : str]
                     MONITOR_DIR;
               Sleep 2000]).
Proof.
  intros Hd Hsh. unfold postStart, tryCatch, mbind, M_bind.
  rewrite (normalizePathParam_ok _ _ _ Hd).
  unfold execAsync, mbind, M_bind, emit. rewrite Hsh.
  unfold mret, M_ret. rewrite <- truthy_trim_pidLines.
  destruct (JS.truthy (JS.trim stdout)); [done|].
  unfold spawn, sleep, emit. by rewrite <- !app_assoc.
Qed.

(** *** The output of [pgrep] *)

Lemma joinLines_cons l ls :
  ls <> [] -> joinLines (l :: ls) = l ++ LF :: joinLines ls.
Proof. by destruct ls. Qed.

Lemma pgrepOutput_join pids :
  pids <> [] ->
  pgrepOutput pids = joinLines (map JS.showN pids) ++ [LF].
Proof.
  unfold pgrepOutput. induction pids as [|p pids IH]; [done|]. intros _.
  destruct pids as [|q pids]; simpl.
  - by rewrite app_nil_r.
  - simpl in IH. rewrite IH by done. by rewrite <- !app_assoc.
Qed.

Lemma joinLines_head l ls c t :
  l = c :: t -> exists t', joinLines (l :: ls) = c :: t'.
Proof. intros ->. destruct ls; simpl; by eexists. Qed.

Lemma joinLines_last ls :
  ls <> [] ->
  Forall (fun l => l <> [] /\ Forall (fun c => JS.isSpace c = false) l) ls ->
  exists s c, joinLines ls = s ++ [c] /\ JS.isSpace c = false.
Proof.
  induction ls as [|l ls IH]; [done|]. intros _ Hall.
  apply Forall_cons in Hall as [[Hl Hsp] Hls].
  destruct ls as [|l' ls'].
  - simpl. destruct (exists_last Hl) as (s & c & ->).
    exists s, c. split; [done|].
    apply Forall_app in Hsp as [_ Hc]. by apply Forall_cons in Hc as [? _].
  - destruct (IH ltac:(done) Hls) as (s & c & Heq & Hc).
    rewrite joinLines_cons by done. rewrite Heq.
    exists (l ++ LF :: s), c. split; [|done]. by rewrite <- app_assoc.
Qed.

Lemma pidLines_pgrepOutput pids :
  pidLines (pgrepOutput pids) = map JS.showN pids.
Proof.
  destruct pids as [|p pids]; [done|].
  unfold pidLines. rewrite pgrepOutput_join by done.
  set (ls := map JS.showN (p :: pids)).
  assert (Forall (fun l => l <> [] /\ Forall (fun c => JS.isSpace c = false) l) ls)
    as Hall.
  { apply Forall_map, Forall_forall. intros q _. split.
    - apply showN_not_nil.
    - apply showN_no_space. }
  assert (ls <> []) as Hne by done.
  destruct (joinLines_last ls Hne Hall) as (s & c & Heq & Hc).
  assert (JS.trim (joinLines ls ++ [LF]) = joinLines ls) as ->.
  { unfold JS.trim, JS.trimStart.
    pose proof (showN_not_nil p) as Hp. pose proof (showN_no_space p) as Hs.
    destruct (JS.showN p) as [|d ds] eqn:E; [done|].
    destruct (joinLines_head (JS.showN p) (map JS.showN pids) d ds E) as [t' Ht].
    subst ls. simpl map. rewrite Ht. apply Forall_cons in Hs as [Hd _].
    simpl. rewrite Hd. rewrite <- Ht.
    change (d :: t' ++ [LF]) with ((d :: t') ++ [LF]). rewrite <- Ht.
    simpl map in Heq. rewrite trimEnd_snoc_space by done.
    rewrite Heq. by apply trimEnd_snoc_keep. }
  rewrite split_joinLines.
  - clear Heq. induction Hall as [|l ls' [Hl _] _ IH]; [done|].
    simpl. destruct l; [done|]. simpl. f_equal.
    destruct ls'; [done|]. by apply IH.
  - done.
  - apply Forall_map, Forall_forall. intros q _. apply showN_no_LF.
Qed.

Lemma pidLines_truthy stdout pid0 rest :
  pidLines stdout = pid0 :: rest -> JS.truthy pid0 = true.
Proof.
  unfold pidLines. intros H.
  assert (In pid0 (List.filter JS.truthy (JS.split LF (JS.trim stdout)))) as Hin
    by (rewrite H; by left).
  by apply filter_In in Hin as [_ ?].
Qed.

(** What the status handler replies when [pgrep] could be run. *)
Lemma getStatus_run param decoded stdout log :
  decodeURIComponent param = inl decoded ->
  shell w (pgrepCommand (absolute decoded)) = inl stdout ->
  exists log',
    getStatus decodeURIComponent path_join toISOString w param log =
      (inl (Reply 200
         (mkStatusBody
            (Nat.ltb 0 (length (pidLines stdout)))
            (match pidLines stdout with
             | pid0 :: _ => Some (JS.parseInt pid0)
             | [] => None
             end)
            (absolute decoded)
            (match pidLines stdout with
             | pid0 :: _ =>
                 match shell w (psCommand pid0) with
                 | inl psOut => Some (JS.trim psOut)
                 | inr _ => None
                 end
             | [] => None
             end)
            (match fs w !! path_join (absolute decoded) ".lhi_manifest" with
             | Some e => Some (toISOString (entryMtime e))
             | None => None
             end)
            None)), log').
Proof.
  intros Hd Hsh. unfold getStatus, tryCatch, mbind, M_bind.
  rewrite (normalizePathParam_ok _ _ _ Hd).
  unfold execAsync at 1. unfold mbind, M_bind, emit. rewrite Hsh.
  unfold mret at 1. unfold M_ret.
  unfold manifestMtime, tryCatch, fs_stat, mbind, M_bind.
  destruct (pidLines stdout) as [|pid0 rest] eqn:E.
  - unfold mret, M_ret.
    destruct (fs w !! path_join (absolute decoded) ".lhi_manifest");
      eexists; reflexivity.
  - rewrite (pidLines_truthy _ _ _ E).
    cbn [length Nat.ltb Nat.leb andb].
    unfold execAsync, mbind, M_bind, emit, mret, M_ret, throw.
    destruct (shell w (psCommand pid0)) as [psOut|e];
      destruct (fs w !! path_join (absolute decoded) ".lhi_manifest");
      eexists; reflexivity.
Qed.

(** C5. When no process matches, the probe reports [running = false] and
    neither a pid nor an uptime; when processes match, it reports
    [running = true] and the identifier of the first of them, with the
    uptime that [ps] prints, or without an uptime when that lookup fails.
    The reply has status 200 in both cases. *)
Theorem probe_reports_first_match (param decoded : str) (pids : list N)
    (log : list Event) :
  decodeURIComponent param = inl decoded ->
  shell w (pgrepCommand (absolute decoded)) = inl (pgrepOutput pids) ->
  exists body log',
    getStatus decodeURIComponent path_join toISOString w param log =
      (inl (Reply 200 body), log') /\
    sb_watchedPath body = absolute decoded /\
    match pids with
    | [] =>
        sb_running body = false /\ sb_pid body = None /\
        sb_uptime body = None
    | pid :: _ =>
        sb_running body = true /\
        sb_pid body = Some (JS.Int (Z.of_N pid)) /\
        sb_uptime body =
          match shell w (psCommand (JS.showN pid)) with
          | inl psOut => Some (JS.trim psOut)
          | inr _ => None
          end
    end.
Proof.
  intros Hd Hsh.
  destruct (getStatus_run param decoded _ log Hd Hsh) as [log' Hrun].
  rewrite pidLines_pgrepOutput in Hrun.
  eexists _, log'. split; [exact Hrun|]. split; [done|].
  destruct pids as [|pid pids]; simpl; [done|].
  by rewrite parseInt_showN.
Qed.

(** *** The change log *)

Lemma sliceLast_length {A} k (l : list A) : length (JS.sliceLast k l) <= k.
Proof. unfold JS.sliceLast. rewrite length_drop. lia. Qed.

Lemma omap_length_le {A B} (f : A -> option B) l :
  length (omap f l) <= length l.
Proof.
  unfold omap. induction l as [|x l IH]; simpl; [done|].
  destruct (f x); simpl; lia.
Qed.

Lemma extractChanges_length content : length (extractChanges content) <= 5.
Proof.
  unfold extractChanges. rewrite length_rev.
  etransitivity; [apply omap_length_le | apply sliceLast_length].
Qed.

(** The entries are the trailing ones of the log, latest first. *)
Lemma extractChanges_suffix content :
  exists older,
    omap matchChange (List.filter isChangeLine (JS.split LF content)) =
    older ++ rev (extractChanges content).
Proof.
  unfold extractChanges, JS.sliceLast. rewrite rev_involutive.
  set (cl := List.filter isChangeLine (JS.split LF content)).
  exists (omap matchChange (take (length cl - 5) cl)).
  by rewrite <- omap_app, take_drop.
Qed.

Lemma insertSorted_head {A} (before : A -> A -> bool) x l :
  exists rest,
    insertSorted before x l =
    match l with
    | [] => x
    | y :: _ => if before y x then y else x
    end :: rest.
Proof.
  destruct l as [|y l]; simpl; [by eexists|].
  destruct (before y x); by eexists.
Qed.

(** The first element of the sorted list has the latest time. *)
Lemma sortStable_head {A} (l : list (A * N)) :
  l <> [] ->
  exists x rest,
    sortStable (fun a b => (snd b <? snd a)%N) l = x :: rest /\
    x ∈ l /\ forall y, y ∈ l -> (snd y <= snd x)%N.
Proof.
  induction l as [|a l IH]; [done|]. intros _. simpl.
  destruct l as [|b l'].
  - simpl. exists a, nil. split; [done|]. split; [by left|].
    intros y Hy. apply list_elem_of_singleton in Hy as ->. lia.
  - destruct (IH ltac:(done)) as (x & rest & Hs & Hin & Hmax).
    simpl in Hs. simpl. rewrite Hs.
    destruct (insertSorted_head (fun a b => (snd b <? snd a)%N) a (x :: rest))
      as [rest' Hr].
    rewrite Hr. destruct (snd a <? snd x)%N eqn:E.
    + apply N.ltb_lt in E. exists x, rest'. split; [done|].
      split; [by right|]. intros y Hy.
      apply elem_of_cons in Hy as [->|Hy]; [lia | by apply Hmax].
    + apply N.ltb_ge in E. exists a, rest'. split; [done|].
      split; [by left|]. intros y Hy.
      apply elem_of_cons in Hy as [->|Hy]; [lia|].
      specialize (Hmax y Hy). lia.
Qed.

Lemma mapM_stat (dir : str) (ds : list str) (log : list Event) :
  (exists e,
     mapM (fun d => t ← fs_stat w (path_join dir d); mret (d, t)) ds log =
       (inr e, log)) \/
  (exists l,
     mapM (fun d => t ← fs_stat w (path_join dir d); mret (d, t)) ds log =
       (inl l, log) /\
     map fst l = ds /\
     forall d t, (d, t) ∈ l ->
       exists en, fs w !! path_join dir d = Some en /\ entryMtime en = t).
Proof.
  induction ds as [|d ds IH].
  - right. exists nil. split; [done|]. split; [done|].
    intros d t H. by apply elem_of_nil in H.
  - set (f := fun d => t ← fs_stat w (path_join dir d); mret (d, t)) in *.
    assert (f d log =
            match fs w !! path_join dir d with
            | Some en => (inl (d, entryMtime en), log)
            | None => (inr ("ENOENT: no such file or directory, stat "
                              ++ path_join dir d), log)
            end) as Hf.
    { unfold f, mbind, M_bind, fs_stat.
      by destruct (fs w !! path_join dir d). }
    cbn [mapM]. rewrite bind_run, Hf.
    destruct (fs w !! path_join dir d) as [en|] eqn:E.
    2:{ left. by eexists. }
    rewrite bind_run.
    destruct IH as [[e He] | (l & Hl & Hfst & Hin)].
    + left. exists e. by rewrite He.
    + right. exists ((d, entryMtime en) :: l). rewrite Hl.
      split; [done|]. split; [simpl; by rewrite Hfst|].
      intros d' t' H. apply elem_of_cons in H as [[= -> ->]|H].
      * by exists en.
      * by apply Hin.
Qed.


Lemma readRecentChanges_run watchPath log :
  exists r,
    readRecentChanges path_join path_basename MONITOR_DIR w watchPath log =
      (r, log) /\
    match r with
    | inr _ => True
    | inl changes =>
        changes = [] \/
        exists content,
          SelectedLog path_join path_basename MONITOR_DIR w watchPath content /\ changes = extractChanges content
    end.
Proof.
  unfold readRecentChanges.
  set (logsDir := path_join MONITOR_DIR "logs").
  rewrite bind_run. unfold fs_readdir.
  destruct (fs w !! logsDir) as [[c t0|logDirs t0]|] eqn:Hlogs;
    [by eexists | | by eexists].
  rewrite ret_run.
  set (matching := List.filter (matchesLogDir (path_basename watchPath)) logDirs).
  destruct matching as [|m0 ms] eqn:Hm.
  { eexists. split; [reflexivity|]. by left. }
  cbn [length Nat.ltb Nat.leb]. rewrite bind_run.
  destruct (mapM_stat logsDir (m0 :: ms) log) as [[e He] | (l & Hl & Hfst & Hin)].
  { rewrite He. by eexists. }
  rewrite Hl.
  assert (l <> []) as Hne by (by destruct l).
  destruct (sortStable_head l Hne) as ([latestDir tl] & rest & Hs & Hlat & Hmax).
  rewrite Hs.
  destruct (Hin _ _ Hlat) as (en & Hen & Hent).
  rewrite bind_run. rewrite Hen.
  destruct en as [c t1 | logFiles t1]; [by eexists|].
  rewrite ret_run. simpl in Hent. subst tl.
  destruct (List.find (fun f => JS.endsWith f ".log") logFiles) as [logFile|]
    eqn:Hfind.
  2:{ eexists. split; [reflexivity|]. by left. }
  apply find_some in Hfind as [Hf1 Hf2].
  rewrite bind_run. unfold fs_readFile.
  destruct (fs w !! path_join (path_join logsDir latestDir) logFile)
    as [[content t2|ns t2]|] eqn:Hfile; [| by eexists | by eexists].
  rewrite !ret_run.
  eexists. split; [reflexivity|]. right. exists content. split; [|done].
  assert (In latestDir (m0 :: ms)) as Hlm.
  { rewrite <- Hfst. apply in_map_iff. exists (latestDir, t1).
    split; [done|]. by apply list_elem_of_In. }
  rewrite <- Hm in Hlm. apply filter_In in Hlm as [Hl1 Hl2].
  subst logsDir.
  exists logDirs, t0, latestDir, logFiles, t1, logFile, t2.
  repeat split; try done.
  - by apply list_elem_of_In.
  - intros d e Hd Hmatch Hfs.
    assert (In d (m0 :: ms)) as Hdm.
    { rewrite <- Hm. apply filter_In. split; [|done]. by apply list_elem_of_In. }
    rewrite <- Hfst in Hdm. apply in_map_iff in Hdm as ([d' t'] & Heq & Hdl).
    simpl in Heq. subst d'. apply list_elem_of_In in Hdl.
    destruct (Hin _ _ Hdl) as (en' & Hen' & Ht').
    rewrite Hfs in Hen'. injection Hen' as <-. subst t'.
    apply (Hmax _ Hdl).
  - by apply list_elem_of_In.
Qed.

End ServerProperties.

Lemma registryAdd_validates_witness :
  registryAdd (fun a b => a ++ SLASH :: b) "/opt/monitor"
    (mkWorld ∅ (fun _ => inl []) "2026-01-19T21:10:57.000Z")
    (Some (list_ascii_of_string "/no/such/dir")) [] =
  (inl (Reply 400 (Failure "Directory does not exist: /no/such/dir")), []).
Proof.
  refine (proj1 (proj2 (registryAdd_validates _ _ _ _ _))
            (list_ascii_of_string "/no/such/dir") _ _ _);
    [reflexivity | discriminate | reflexivity].
Defined.

Lemma excludes_priority_witness :
  getExcludes inl (fun a b => a ++ SLASH :: b)
    (mkWorld
       (<[ list_ascii_of_string "/w/.lhi_excludes" :=
             File "node_modules/" 5 ]>
        (<[ list_ascii_of_string "/w/.gitignore" := File "dist/" 7 ]> ∅))
       (fun _ => inl []) "2026-01-19T21:10:57.000Z")
    "w" [] =
  (inl (Reply 200 (inl (mkExcludesBody [mkPattern "node_modules/" true]
                          (Some (list_ascii_of_string ".lhi_excludes"))))),
   []).
Proof.
  exact (excludes_priority inl (fun a b => a ++ SLASH :: b)
           (mkWorld
              (<[ list_ascii_of_string "/w/.lhi_excludes" :=
                    File "node_modules/" 5 ]>
               (<[ list_ascii_of_string "/w/.gitignore" := File "dist/" 7 ]> ∅))
              (fun _ => inl []) "2026-01-19T21:10:57.000Z")
           "w" "w" [] eq_refl).
Defined.

Lemma manifest_missing_is_normal_witness :
  getManifest inl (fun a b => a ++ SLASH :: b) exampleWorld "w" [] =
  (inl (Reply 200
     (inl (mkManifestBody "/w" None (JS.Int 0) (JS.Int 0) []
             (Some (list_ascii_of_string
                "No manifest file found. Click Refresh to generate one."))))),
   []).
Proof.
  exact (manifest_missing_is_normal inl (fun a b => a ++ SLASH :: b)
           exampleWorld "w" "w" [] eq_refl eq_refl).
Defined.

Lemma start_is_idempotent_witness :
  postStart inl (fun a b => a ++ SLASH :: b) "/opt/monitor" exampleWorld "w" [] =
  (inl (Reply 200 (Success "Monitor already running for this directory" None)),
   [Exec (pgrepCommand "/w")]).
Proof.
  exact (start_is_idempotent inl (fun a b => a ++ SLASH :: b) "/opt/monitor"
           exampleWorld "w" "w" (pgrepOutput [4711; 4712]%N) []
           eq_refl eq_refl).
Defined.

Lemma probe_reports_first_match_witness :
  exists body log',
    getStatus inl (fun a b => a ++ SLASH :: b) JS.showN exampleWorld "w" [] =
      (inl (Reply 200 body), log') /\
    sb_watchedPath body = "/w" /\
    sb_running body = true /\
    sb_pid body = Some (JS.Int 4711) /\
    sb_uptime body = None.
Proof.
  exact (probe_reports_first_match inl (fun a b => a ++ SLASH :: b) JS.showN
           exampleWorld "w" "w" [4711; 4712]%N [] eq_refl eq_refl).
Defined.

(** ** [buildTreeFromFiles] *)

(** *** The nodes and levels of a tree *)

Lemma nodes_app t1 t2 : nodes (t1 ++ t2) = nodes t1 ++ nodes t2.
Proof. unfold nodes. apply flat_map_app. Qed.

Lemma nodes_cons e t : nodes (e :: t) = nodesOf e ++ nodes t.
Proof. reflexivity. Qed.

Lemma nodesOf_inner e ch :
  n_children e = Some ch -> nodesOf e = e :: nodes ch.
Proof. intros H. destruct e. simpl in *. by rewrite H. Qed.

Lemma nodesOf_leaf e : n_children e = None -> nodesOf e = [e].
Proof. intros H. destruct e. simpl in *. by rewrite H. Qed.

Lemma nodesOf_setChildren e ch :
  nodesOf (setChildren e ch) = setChildren e ch :: nodes ch.
Proof. by apply nodesOf_inner. Qed.

Lemma levelsOf_inner e ch : n_children e = Some ch -> levelsOf e = levels ch.
Proof. intros H. destruct e. simpl in *. by rewrite H. Qed.

Lemma levelsOf_leaf e : n_children e = None -> levelsOf e = [].
Proof. intros H. destruct e. simpl in *. by rewrite H. Qed.

Lemma elem_of_nodes_root e t : e ∈ t -> e ∈ nodes t.
Proof.
  intros H. apply list_elem_of_In, in_flat_map. exists e.
  split; [by apply list_elem_of_In|]. destruct e; simpl; by left.
Qed.

Lemma elem_of_levels_child e ch t l :
  e ∈ t -> n_children e = Some ch -> l ∈ levels ch -> l ∈ levels t.
Proof.
  intros He Hch Hl. unfold levels at 1. right.
  apply list_elem_of_In, in_flat_map. exists e.
  split; [by apply list_elem_of_In|].
  rewrite (levelsOf_inner _ _ Hch). by apply list_elem_of_In.
Qed.

(** Induction on a tree: a property of a sibling sequence follows from the
    property for the children of its first node and for the remaining
    siblings. *)
Lemma forest_ind (P : list TreeNode -> Prop) :
  P [] ->
  (forall e t, (forall ch, n_children e = Some ch -> P ch) -> P t ->
               P (e :: t)) ->
  forall t, P t.
Proof.
  intros Hnil Hcons.
  refine (fix go (t : list TreeNode) : P t :=
            match t with
            | [] => Hnil
            | e :: t' => Hcons e t' _ (go t')
            end).
  revert e. clear t t'.
  refine (fix node (e : TreeNode) : forall ch, n_children e = Some ch -> P ch :=
            match e as e0 return forall ch, n_children e0 = Some ch -> P ch with
            | mkNode p ty s m None => fun ch H => _
            | mkNode p ty s m (Some ch0) => fun ch H => _
            end).
  all: simpl in H; try discriminate H.
  injection H as <-. clear go.
  induction ch0 as [|c ch0 IH]; [exact Hnil|].
  apply Hcons; [exact (node c) | exact IH].
Qed.

(** *** The cases of one step of the walk *)

Lemma find_path_Some (p : str) (level : list TreeNode) i e :
  list_find (fun e => n_path e = p) level = Some (i, e) ->
  exists l1 l2,
    level = l1 ++ e :: l2 /\ length l1 = i /\ n_path e = p /\
    forall x, x ∈ l1 -> n_path x <> p.
Proof.
  intros H. apply list_find_Some in H as (Hi & Hp & Hbefore).
  exists (take i level), (drop (S i) level).
  split; [by rewrite take_drop_middle|].
  split. { apply length_take_le. apply lookup_lt_Some in Hi. lia. }
  split; [done|].
  intros x Hx. apply list_elem_of_lookup in Hx as [j Hj].
  apply lookup_take_Some in Hj as [Hj Hji].
  by apply (Hbefore j x).
Qed.

Lemma find_path_None (p : str) (level : list TreeNode) :
  list_find (fun e => n_path e = p) level = None ->
  forall x, x ∈ level -> n_path x <> p.
Proof.
  intros H x Hx. apply list_find_None in H.
  rewrite Forall_forall in H. by apply H.
Qed.


Lemma walk_step f part rest cp level : WalkStep f part rest cp level.
Proof.
  destruct (list_find (fun e => n_path e = extendPath cp part) level)
    as [[i e]|] eqn:Hfind.
  - destruct (find_path_Some _ _ _ _ Hfind) as (l1 & l2 & -> & Hlen & Hp & Hb).
    destruct (n_children e) as [ch|] eqn:Hch.
    + eapply step_descend; eauto.
      cbn [walk]. cbv zeta. rewrite Hfind, Hch.
      rewrite <- Hlen.
      replace (length l1) with (length l1 + 0) by lia.
      by rewrite insert_app_r.
    + eapply step_stay; eauto.
      * apply elem_of_app. right. by left.
      * cbn [walk]. cbv zeta. by rewrite Hfind, Hch.
  - pose proof (find_path_None _ _ Hfind) as Hnone.
    destruct rest as [|part' rest'].
    + destruct (f_type f) eqn:Hty.
      * apply step_new_file; auto.
        cbn [walk]. cbv zeta. rewrite Hfind. unfold newNode. by rewrite Hty.
      * eapply step_new_directory; auto.
        cbn [walk]. cbv zeta. rewrite Hfind. unfold newNode. rewrite Hty.
        reflexivity.
    + eapply step_new_directory; [done | by left |].
      cbn [walk]. cbv zeta. rewrite Hfind. unfold newNode.
      reflexivity.
Qed.

(** *** Shape *)

Lemma elem_of_nodes_middle x l1 e l2 :
  x ∈ nodes (l1 ++ e :: l2) <->
  x ∈ nodes l1 \/ x ∈ nodesOf e \/ x ∈ nodes l2.
Proof.
  rewrite nodes_app, nodes_cons, !elem_of_app. tauto.
Qed.

Lemma elem_of_levels_middle l l1 e l2 :
  l ∈ levels (l1 ++ e :: l2) <->
  l = l1 ++ e :: l2 \/ l ∈ flat_map levelsOf l1 \/ l ∈ levelsOf e \/
  l ∈ flat_map levelsOf l2.
Proof.
  unfold levels. rewrite elem_of_cons, flat_map_app. simpl.
  rewrite !elem_of_app. tauto.
Qed.

Lemma elem_of_levels l t :
  l ∈ levels t <-> l = t \/ l ∈ flat_map levelsOf t.
Proof. unfold levels. by rewrite elem_of_cons. Qed.

Lemma wellShaped_nil : wellShaped [].
Proof.
  split.
  - intros l Hl. apply list_elem_of_singleton in Hl as ->. constructor.
  - intros e He. by apply elem_of_nil in He.
Qed.

Lemma wellShaped_sub l1 e l2 ch :
  wellShaped (l1 ++ e :: l2) -> n_children e = Some ch -> wellShaped ch.
Proof.
  intros [Hl Hn] Hch. split.
  - intros l Hin. apply Hl, elem_of_levels_middle.
    right. right. left. by rewrite (levelsOf_inner _ _ Hch).
  - intros x Hx. apply Hn, elem_of_nodes_middle.
    right. left. rewrite (nodesOf_inner _ _ Hch). by right.
Qed.

Lemma wellShaped_middle l1 e l2 ch ch' :
  wellShaped (l1 ++ e :: l2) -> n_children e = Some ch -> wellShaped ch' ->
  wellShaped (l1 ++ setChildren e ch' :: l2).
Proof.
  intros [Hl Hn] Hch [Hl' Hn']. split.
  - intros l Hin. apply elem_of_levels_middle in Hin as [->|[Hin|[Hin|Hin]]].
    + specialize (Hl (l1 ++ e :: l2)).
      rewrite map_app in *. simpl in *. apply Hl.
      apply elem_of_levels. by left.
    + apply Hl, elem_of_levels_middle. tauto.
    + rewrite (levelsOf_inner _ ch') in Hin by done. by apply Hl'.
    + apply Hl, elem_of_levels_middle. tauto.
  - intros x Hin. apply elem_of_nodes_middle in Hin as [Hin|[Hin|Hin]].
    + apply Hn, elem_of_nodes_middle. tauto.
    + rewrite nodesOf_setChildren in Hin.
      apply elem_of_cons in Hin as [->|Hin]; [|by apply Hn'].
      assert (nodeShape e) as He.
      { apply Hn, elem_of_nodes_middle. right. left.
        rewrite (nodesOf_inner _ _ Hch). by left. }
      unfold nodeShape in *. simpl.
      destruct (n_type e); [|by eexists].
      destruct He as (_ & _ & He). congruence.
    + apply Hn, elem_of_nodes_middle. tauto.
Qed.

Lemma wellShaped_snoc t d :
  wellShaped t ->
  (forall x, x ∈ t -> n_path x <> n_path d) ->
  nodeShape d ->
  (forall ch, n_children d = Some ch -> wellShaped ch) ->
  wellShaped (t ++ [d]).
Proof.
  intros [Hl Hn] Hnew Hd Hch. split.
  - intros l Hin.
    apply elem_of_levels_middle in Hin as [->|[Hin|[Hin|Hin]]].
    + rewrite map_app. simpl. apply NoDup_app. split; [|split].
      * apply Hl, elem_of_levels. by left.
      * intros p Hp Hp'. apply list_elem_of_singleton in Hp' as ->.
        apply list_elem_of_fmap in Hp as (x & Hx & Hin). by apply (Hnew x).
      * apply NoDup_singleton.
    + apply Hl, elem_of_levels. by right.
    + destruct (n_children d) as [ch|] eqn:E.
      * rewrite (levelsOf_inner _ _ E) in Hin. by apply (Hch ch).
      * rewrite (levelsOf_leaf _ E) in Hin. by apply elem_of_nil in Hin.
    + by apply elem_of_nil in Hin.
  - intros x Hin. apply elem_of_nodes_middle in Hin as [Hin|[Hin|Hin]].
    + by apply Hn.
    + destruct (n_children d) as [ch|] eqn:E.
      * rewrite (nodesOf_inner _ _ E) in Hin.
        apply elem_of_cons in Hin as [->|Hin]; [done|]. by apply (Hch ch).
      * rewrite (nodesOf_leaf _ E) in Hin.
        by apply list_elem_of_singleton in Hin as ->.
    + by apply elem_of_nil in Hin.
Qed.

Lemma walk_wellShaped f parts cp t :
  wellShaped t -> wellShaped (walk f parts cp t).
Proof.
  revert cp t. induction parts as [|part rest IH]; intros cp t Ht; [done|].
  destruct (walk_step f part rest cp t)
    as [l1 e l2 ch -> Hp Hb Hch -> | e He Hp Hch -> | s m Hnew Hr -> |
        Hnew -> Hty ->].
  - eapply wellShaped_middle; eauto.
    apply IH. eapply wellShaped_sub; eauto.
  - by apply IH.
  - apply wellShaped_snoc; simpl; auto.
    + by eexists.
    + intros ch [= <-]. apply IH, wellShaped_nil.
  - apply wellShaped_snoc; simpl; auto.
    + unfold nodeShape. simpl. split; [by eexists|]. split; [by eexists|done].
    + intros ch [=].
Qed.

Lemma fold_addFile_wellShaped files t :
  wellShaped t -> wellShaped (fold_left addFile files t).
Proof.
  revert t. induction files as [|f files IH]; intros t Ht; [done|].
  simpl. apply IH. by apply walk_wellShaped.
Qed.

(** *** Growth *)

Lemma grows_refl t : grows t t.
Proof.
  induction t as [|e t IHe IHt] using forest_ind; constructor; [|done].
  destruct e as [p ty s m [ch|]]; constructor. by apply IHe.
Qed.

Lemma keeps_refl e : keeps e e.
Proof. destruct e as [p ty s m [ch|]]; constructor. apply grows_refl. Qed.

Lemma grows_app t x : grows t (t ++ x).
Proof.
  induction t as [|e t IH]; simpl; constructor; [apply keeps_refl | done].
Qed.

Lemma grows_middle l1 e e' l2 :
  keeps e e' -> grows (l1 ++ e :: l2) (l1 ++ e' :: l2).
Proof.
  intros H. induction l1 as [|x l1 IH]; simpl; constructor;
    [done | apply grows_refl | apply keeps_refl | done].
Qed.

Lemma keeps_setChildren e ch ch' :
  n_children e = Some ch -> grows ch ch' -> keeps e (setChildren e ch').
Proof.
  intros Hch Hg. destruct e as [p ty s m c]. simpl in Hch. subst c.
  by constructor.
Qed.

Lemma grows_trans_mut :
  (forall a b, grows a b -> forall c, grows b c -> grows a c) /\
  (forall e e', keeps e e' -> forall e'', keeps e' e'' -> keeps e e'').
Proof.
  split.
  - intros a b H.
    induction H using grows_mut with
      (P0 := fun e e' _ => forall e'', keeps e' e'' -> keeps e e'').
    + intros c _. constructor.
    + intros c Hc. inversion Hc; subst. constructor; auto.
    + intros e'' H. exact H.
    + intros e'' H'. inversion H'; subst. constructor. auto.
  - intros e e' H.
    induction H using keeps_mut with
      (P := fun a b _ => forall c, grows b c -> grows a c).
    + intros c _. constructor.
    + intros c Hc. inversion Hc; subst. constructor; auto.
    + intros e'' H. exact H.
    + intros e'' H'. inversion H'; subst. constructor. auto.
Qed.

Lemma grows_trans a b c : grows a b -> grows b c -> grows a c.
Proof. intros H1 H2. by apply (proj1 grows_trans_mut a b H1 c). Qed.

Lemma walk_grows f parts cp t : grows t (walk f parts cp t).
Proof.
  revert cp t. induction parts as [|part rest IH]; intros cp t.
  - apply grows_refl.
  - destruct (walk_step f part rest cp t)
      as [l1 e l2 ch -> Hp Hb Hch -> | e He Hp Hch -> | s m Hnew Hr -> |
          Hnew -> Hty ->].
    + apply grows_middle. eapply keeps_setChildren; eauto.
    + apply IH.
    + apply grows_app.
    + apply grows_app.
Qed.

Lemma fold_addFile_grows files t : grows t (fold_left addFile files t).
Proof.
  revert t. induction files as [|f files IH]; intros t.
  - apply grows_refl.
  - simpl. eapply grows_trans; [apply walk_grows | apply IH].
Qed.

(** C10. In every tree that [buildTreeFromFiles] returns, no two nodes of
    one sibling sequence (the root list or a children list) have the same
    path; a node of type file has a size, a modified value and no
    children, a node of type directory has a children list; and when more
    records are processed, every node stays in its place with its path,
    type, size and modified value unchanged, only gaining descendants. *)
Theorem tree_structure (files more : list FileRecord) :
  let tree := buildTreeFromFiles files in
  (forall level, level ∈ levels tree -> NoDup (map n_path level)) /\
  (forall e, e ∈ nodes tree ->
     match n_type e with
     | TFile =>
         is_Some (n_size e) /\ is_Some (n_modified e) /\ n_children e = None
     | TDirectory => is_Some (n_children e)
     end) /\
  grows tree (buildTreeFromFiles (files ++ more)).
Proof.
  intros tree.
  destruct (fold_addFile_wellShaped files [] wellShaped_nil) as [Hl Hn].
  split; [exact Hl|]. split; [exact Hn|].
  unfold buildTreeFromFiles. rewrite fold_left_app.
  apply fold_addFile_grows.
Qed.

(** *** Paths *)

Lemma extendPath_cons cp part :
  cp <> [] -> extendPath cp part = cp ++ SLASH :: part.
Proof. by destruct cp. Qed.

Lemma intermediate_cons part rest cp :
  rest <> [] ->
  intermediate (part :: rest) cp =
  extendPath cp part :: intermediate rest (extendPath cp part).
Proof. by destruct rest. Qed.

(** The paths of a walk over the parts of [pre ++ s], started after the
    prefix [pre] has been consumed. *)
Lemma paths_from s : forall pre h t,
  JS.split SLASH s = h :: t -> pre ++ h <> [] ->
  match t with
  | [] => []
  | _ :: _ => (pre ++ h) :: intermediate t (pre ++ h)
  end = map (app pre) (properPrefixes s) /\
  finalPath t (pre ++ h) = pre ++ s.
Proof.
  induction s as [|c s IH]; intros pre h t Hsplit Hne.
  - simpl in Hsplit. injection Hsplit as <- <-. split; [done|]. done.
  - simpl in Hsplit. destruct (JS.eqc c SLASH) eqn:E.
    + apply eqc_true in E. subst c. injection Hsplit as <- <-.
      rewrite app_nil_r in *.
      destruct (JS.split SLASH s) as [|h' t'] eqn:Hs;
        [by apply split_not_nil in Hs|].
      assert (extendPath pre h' = (pre ++ [SLASH]) ++ h') as Hext.
      { rewrite extendPath_cons by done. by rewrite <- app_assoc. }
      destruct (IH (pre ++ [SLASH]) h' t' eq_refl) as [IH1 IH2].
      { by destruct pre. }
      split.
      * simpl. rewrite app_nil_r. f_equal.
        rewrite map_map, Hext, IH1.
        apply map_ext. intros x. by rewrite <- app_assoc.
      * simpl. rewrite Hext, IH2. by rewrite <- app_assoc.
    + destruct (JS.split SLASH s) as [|h' t'] eqn:Hs;
        [by apply split_not_nil in Hs|].
      injection Hsplit as <- <-.
      replace (pre ++ c :: h') with ((pre ++ [c]) ++ h')
        by (by rewrite <- app_assoc).
      destruct (IH (pre ++ [c]) h' t' eq_refl) as [IH1 IH2].
      { by destruct pre. }
      split.
      * rewrite IH1. simpl. rewrite E. simpl. rewrite map_map.
        apply map_ext. intros x. by rewrite <- app_assoc.
      * rewrite IH2. by rewrite <- app_assoc.
Qed.

(** For a relative path the walk meets the proper directory prefixes of
    the path, in order, and then the path itself. *)
Lemma relative_paths s :
  relativePath s ->
  exists h t,
    JS.split SLASH s = h :: t /\ h <> [] /\
    intermediate (h :: t) [] = properPrefixes s /\
    finalPath (h :: t) [] = s.
Proof.
  intros Hrel. destruct s as [|c s]; [done|]. simpl in Hrel.
  destruct (JS.split SLASH (c :: s)) as [|h t] eqn:Hs;
    [by apply split_not_nil in Hs|].
  assert (h <> []) as Hh.
  { simpl in Hs. assert (JS.eqc c SLASH = false) as E by by apply eqc_false.
    rewrite E in Hs. destruct (JS.split SLASH s); by injection Hs as <- _. }
  exists h, t. split; [done|]. split; [done|].
  destruct (paths_from (c :: s) [] h t Hs Hh) as [H1 H2].
  simpl app in H1, H2. split.
  - rewrite <- (map_id (properPrefixes (c :: s))).
    rewrite <- H1. destruct t as [|h' t']; [done|].
    by rewrite intermediate_cons.
  - done.
Qed.

Lemma slash_split x1 r1 x2 r2 :
  SLASH ∉ x1 -> SLASH ∉ x2 ->
  x1 ++ SLASH :: r1 = x2 ++ SLASH :: r2 -> x1 = x2.
Proof.
  revert x2. induction x1 as [|a x1 IH]; intros x2 H1 H2 Heq.
  - destruct x2 as [|b x2]; [done|]. simpl in Heq. injection Heq as <- _.
    exfalso. apply H2. by left.
  - destruct x2 as [|b x2]; simpl in Heq.
    + injection Heq as -> _. exfalso. apply H1. by left.
    + injection Heq as -> Heq. f_equal.
      apply not_elem_of_cons in H1 as [_ H1].
      apply not_elem_of_cons in H2 as [_ H2]. by apply IH.
Qed.

Lemma under_refl p : under p p.
Proof. by left. Qed.

Lemma under_trans p q r : under p q -> under q r -> under p r.
Proof.
  intros [->|[a ->]] [->|[b ->]].
  - by left.
  - right. by exists b.
  - right. by exists a.
  - right. exists (a ++ SLASH :: b). by rewrite <- app_assoc.
Qed.

Lemma under_child p x : under p (p ++ SLASH :: x).
Proof. right. by exists x. Qed.

(** Two single segments below one prefix that lead to the same path are
    the same segment. *)
Lemma under_same_segment pre x1 x2 q :
  SLASH ∉ x1 -> SLASH ∉ x2 ->
  under (pre ++ x1) q -> under (pre ++ x2) q -> x1 = x2.
Proof.
  intros H1 H2 [->|[r1 ->]] [Heq|[r2 Heq]].
  - by apply app_inv_head in Heq.
  - rewrite <- !app_assoc in Heq. apply app_inv_head in Heq. subst x1.
    exfalso. apply H1. apply elem_of_app. right. by left.
  - rewrite <- !app_assoc in Heq. apply app_inv_head in Heq. subst x2.
    exfalso. apply H2. apply elem_of_app. right. by left.
  - rewrite <- !app_assoc in Heq. apply app_inv_head in Heq.
    by apply (slash_split x1 r1 x2 r2).
Qed.

(** *** Placement *)

Lemma placed_nil pre : placed pre [].
Proof.
  split.
  - intros e He. by apply elem_of_nil in He.
  - intros e ch He. by apply elem_of_nil in He.
Qed.

Lemma placed_sub pre l1 e l2 ch :
  placed pre (l1 ++ e :: l2) -> n_children e = Some ch ->
  placed (n_path e ++ [SLASH]) ch.
Proof.
  intros [Hl Hd] Hch. split.
  - apply (Hd e ch); [|done]. apply elem_of_nodes_root.
    apply elem_of_app. right. by left.
  - intros x c Hx Hc. apply (Hd x c); [|done].
    apply elem_of_nodes_middle. right. left.
    rewrite (nodesOf_inner _ _ Hch). by right.
Qed.

Lemma placed_middle pre l1 e l2 ch ch' :
  placed pre (l1 ++ e :: l2) -> n_children e = Some ch ->
  placed (n_path e ++ [SLASH]) ch' ->
  placed pre (l1 ++ setChildren e ch' :: l2).
Proof.
  intros [Hl Hd] Hch [Hl' Hd']. split.
  - intros x Hx. apply elem_of_app in Hx as [Hx|Hx].
    + apply Hl. apply elem_of_app. by left.
    + apply elem_of_cons in Hx as [->|Hx].
      * simpl. apply Hl. apply elem_of_app. right. by left.
      * apply Hl. apply elem_of_app. right. by right.
  - intros x c Hx Hc. apply elem_of_nodes_middle in Hx as [Hx|[Hx|Hx]].
    + apply (Hd x c); [|done]. apply elem_of_nodes_middle. tauto.
    + rewrite nodesOf_setChildren in Hx. apply elem_of_cons in Hx as [->|Hx].
      * simpl in Hc. injection Hc as <-. exact Hl'.
      * by apply (Hd' x c).
    + apply (Hd x c); [|done]. apply elem_of_nodes_middle. tauto.
Qed.

Lemma placed_snoc pre t d :
  placed pre t ->
  (exists x, n_path d = pre ++ x /\ SLASH ∉ x) ->
  (forall ch, n_children d = Some ch -> placed (n_path d ++ [SLASH]) ch) ->
  placed pre (t ++ [d]).
Proof.
  intros [Hl Hd] Hx Hch. split.
  - intros e He. apply elem_of_app in He as [He|He]; [by apply Hl|].
    by apply list_elem_of_singleton in He as ->.
  - intros e c He Hc. apply elem_of_nodes_middle in He as [He|[He|He]].
    + by apply (Hd e c).
    + destruct (n_children d) as [ch|] eqn:E.
      * rewrite (nodesOf_inner _ _ E) in He.
        apply elem_of_cons in He as [->|He].
        -- rewrite E in Hc. injection Hc as <-.
           exact (proj1 (Hch ch eq_refl)).
        -- by apply (proj2 (Hch ch eq_refl) e c).
      * rewrite (nodesOf_leaf _ E) in He.
        apply list_elem_of_singleton in He as ->. congruence.
    + by apply elem_of_nil in He.
Qed.

Lemma placed_cons_inv pre e t :
  placed pre (e :: t) ->
  placed pre t /\
  (exists x, n_path e = pre ++ x /\ SLASH ∉ x) /\
  (forall ch, n_children e = Some ch -> placed (n_path e ++ [SLASH]) ch).
Proof.
  intros [Hl Hd]. split; [|split].
  - split.
    + intros x Hx. apply Hl. by right.
    + intros x c Hx Hc. apply (Hd x c); [|done].
      rewrite nodes_cons. apply elem_of_app. by right.
  - apply Hl. by left.
  - intros ch Hch. by apply (placed_sub pre [] e t ch).
Qed.

(** Every node of a placed tree lies at or below one of the roots. *)
Lemma placed_under t : forall pre,
  placed pre t ->
  forall q, q ∈ nodes t -> exists e, e ∈ t /\ under (n_path e) (n_path q).
Proof.
  induction t as [|e t IHe IHt] using forest_ind; intros pre Hp q Hq.
  - by apply elem_of_nil in Hq.
  - apply placed_cons_inv in Hp as (Hpt & _ & Hpc).
    rewrite nodes_cons in Hq. apply elem_of_app in Hq as [Hq|Hq].
    + exists e. split; [by left|].
      destruct (n_children e) as [ch|] eqn:E.
      * rewrite (nodesOf_inner _ _ E) in Hq.
        apply elem_of_cons in Hq as [->|Hq]; [apply under_refl|].
        destruct (IHe ch eq_refl _ (Hpc ch eq_refl) q Hq) as (c & Hc & Hu).
        eapply under_trans; [|exact Hu].
        destruct (proj1 (Hpc ch eq_refl) c Hc) as (x & -> & _).
        rewrite <- app_assoc. apply under_child.
      * rewrite (nodesOf_leaf _ E) in Hq.
        apply list_elem_of_singleton in Hq as ->. apply under_refl.
    + destruct (IHt pre Hpt q Hq) as (r & Hr & Hu).
      exists r. split; [by right | done].
Qed.

Lemma placed_below_root e ch q :
  n_children e = Some ch -> placed (n_path e ++ [SLASH]) ch ->
  q ∈ nodes ch -> exists r, n_path q = n_path e ++ SLASH :: r.
Proof.
  intros Hch Hp Hq.
  destruct (placed_under ch _ Hp q Hq) as (c & Hc & Hu).
  destruct (proj1 Hp c Hc) as (x & Hx & _).
  rewrite <- app_assoc in Hx. simpl in Hx.
  assert (under (n_path e) (n_path c)) as Hu'.
  { rewrite Hx. apply under_child. }
  destruct Hu as [Hu|[r Hu]].
  - rewrite Hu, Hx. by eexists.
  - rewrite Hu, Hx. rewrite <- app_assoc. simpl. by eexists.
Qed.

(** In a placed tree without equal siblings no two nodes at all have the
    same path. *)
Lemma placed_NoDup t : forall pre,
  placed pre t ->
  (forall level, level ∈ levels t -> NoDup (map n_path level)) ->
  NoDup (map n_path (nodes t)).
Proof.
  induction t as [|e t IHe IHt] using forest_ind; intros pre Hp Hl.
  - constructor.
  - pose proof Hp as Hp0.
    apply placed_cons_inv in Hp as (Hpt & (x & Hx & Hxs) & Hpc).
    assert (NoDup (map n_path (e :: t))) as Hroot.
    { apply Hl, elem_of_levels. by left. }
    simpl in Hroot. apply NoDup_cons in Hroot as [Hnotin Hnd].
    rewrite nodes_cons, map_app. apply NoDup_app. split; [|split].
    + destruct (n_children e) as [ch|] eqn:E.
      * rewrite (nodesOf_inner _ _ E). simpl. apply NoDup_cons. split.
        -- intros Hin. apply list_elem_of_fmap in Hin as (q & Hq & Hin).
           destruct (placed_below_root e ch q E (Hpc ch eq_refl) Hin)
             as [r Hr].
           rewrite Hr in Hq. apply (f_equal (@length _)) in Hq.
           rewrite length_app in Hq. simpl in Hq. lia.
        -- apply (IHe ch eq_refl _ (Hpc ch eq_refl)).
           intros l Hin. apply Hl. eapply elem_of_levels_child; eauto.
           by left.
      * rewrite (nodesOf_leaf _ E). simpl. apply NoDup_singleton.
    + intros p Hp1 Hp2.
      apply list_elem_of_fmap in Hp1 as (q1 & -> & Hq1).
      apply list_elem_of_fmap in Hp2 as (q2 & Heq & Hq2).
      assert (under (n_path e) (n_path q1)) as Hu1.
      { destruct (n_children e) as [ch|] eqn:E.
        - rewrite (nodesOf_inner _ _ E) in Hq1.
          apply elem_of_cons in Hq1 as [->|Hq1]; [apply under_refl|].
          destruct (placed_below_root e ch q1 E (Hpc ch eq_refl) Hq1)
            as [r ->]. apply under_child.
        - rewrite (nodesOf_leaf _ E) in Hq1.
          apply list_elem_of_singleton in Hq1 as ->. apply under_refl. }
      destruct (placed_under t pre Hpt q2 Hq2) as (e2 & He2 & Hu2).
      destruct (proj1 Hpt e2 He2) as (x2 & Hx2 & Hx2s).
      rewrite <- Heq in Hu2. rewrite Hx in Hu1. rewrite Hx2 in Hu2.
      pose proof (under_same_segment pre x x2 _ Hxs Hx2s Hu1 Hu2) as ->.
      apply Hnotin. rewrite Hx, <- Hx2.
      apply list_elem_of_fmap. by exists e2.
    + apply (IHt pre Hpt). intros l Hin.
      apply elem_of_levels in Hin as [->|Hin]; [done|].
      apply Hl, elem_of_levels. right. simpl.
      apply elem_of_app. by right.
Qed.

(** The walk keeps the tree placed, as long as it does not run into a
    node without children on its way. *)
Lemma walk_placed f parts : forall cp t pre,
  Forall (fun part => SLASH ∉ part) parts ->
  match parts with
  | [] => True
  | part :: _ => extendPath cp part = pre ++ part /\ extendPath cp part <> []
  end ->
  placed pre t ->
  (forall e, e ∈ nodes t -> n_children e = None ->
             n_path e ∉ intermediate parts cp) ->
  placed pre (walk f parts cp t).
Proof.
  induction parts as [|part rest IH]; intros cp t pre Hparts Hctx Hp Hfree;
    [done|].
  apply Forall_cons in Hparts as [Hpart Hrest]. destruct Hctx as [Hext Hne].
  assert (match rest with
          | [] => True
          | part' :: _ =>
              extendPath (extendPath cp part) part' =
                (extendPath cp part ++ [SLASH]) ++ part' /\
              extendPath (extendPath cp part) part' <> []
          end) as Hctx'.
  { destruct rest as [|part' rest']; [done|].
    rewrite extendPath_cons by done. rewrite <- app_assoc. split; [done|].
    by destruct (extendPath cp part). }
  assert (forall e, e ∈ nodes t -> n_children e = None ->
                    n_path e ∉ intermediate rest (extendPath cp part))
    as Hfree'.
  { intros e He Hc Hin. apply (Hfree e He Hc).
    destruct rest as [|part' rest']; [by apply elem_of_nil in Hin|].
    rewrite intermediate_cons by done. by right. }
  destruct (walk_step f part rest cp t)
    as [l1 e l2 ch -> Hpe Hb Hch -> | e He Hpe Hch -> | s m Hnew Hr -> |
        Hnew -> Hty ->].
  - eapply placed_middle; eauto. rewrite Hpe. apply IH; auto.
    + rewrite <- Hpe. eapply placed_sub; eauto.
    + intros x Hx. apply Hfree'. apply elem_of_nodes_middle. right. left.
      rewrite (nodesOf_inner _ _ Hch). by right.
  - destruct rest as [|part' rest']; [done|]. exfalso.
    apply (Hfree e (elem_of_nodes_root _ _ He) Hch).
    rewrite intermediate_cons by done. rewrite Hpe. by left.
  - apply placed_snoc; simpl; auto.
    + by exists part.
    + intros ch [= <-]. apply IH; auto using placed_nil.
      intros e He. by apply elem_of_nil in He.
  - apply placed_snoc; simpl; auto.
    + by exists part.
    + intros ch [=].
Qed.

(** *** Labels *)

Lemma labels_app t1 t2 : labels (t1 ++ t2) = labels t1 ++ labels t2.
Proof. unfold labels. by rewrite nodes_app, map_app. Qed.

Lemma labels_middle l1 e l2 ch :
  n_children e = Some ch ->
  labels (l1 ++ e :: l2) =
  labels l1 ++ ((n_path e, n_type e) :: labels ch) ++ labels l2.
Proof.
  intros Hch. unfold labels.
  rewrite nodes_app, nodes_cons, (nodesOf_inner _ _ Hch), !map_app. done.
Qed.

Lemma labels_leaf p ty s m :
  labels [mkNode p ty s m None] = [(p, ty)].
Proof. reflexivity. Qed.

Lemma labels_inner p ty s m ch :
  labels [mkNode p ty s m (Some ch)] = (p, ty) :: labels ch.
Proof. unfold labels, nodes. simpl. by rewrite app_nil_r. Qed.

Lemma perm_insert_end {A} (l1 x r l2 : list A) :
  l1 ++ (x ++ r) ++ l2 ≡ₚ (l1 ++ x ++ l2) ++ r.
Proof.
  rewrite <- !app_assoc. apply Permutation_app_head, Permutation_app_head.
  apply Permutation_app_comm.
Qed.

Lemma elem_of_labels p ty t :
  (p, ty) ∈ labels t <-> exists e, e ∈ nodes t /\ n_path e = p /\ n_type e = ty.
Proof.
  unfold labels. rewrite list_elem_of_fmap. split.
  - intros (e & [= -> ->] & He). by exists e.
  - intros (e & He & <- & <-). by exists e.
Qed.

(** One walk for a file record adds the leaf of the record and the
    directories on the way to it that are not yet there. *)
Lemma walk_labels f parts : forall cp t,
  parts <> [] -> f_type f = TFile ->
  (forall e, e ∈ nodes t -> is_Some (n_children e) -> n_type e = TDirectory) ->
  (forall e, e ∈ nodes t -> n_children e = None ->
             n_path e ∉ intermediate parts cp) ->
  finalPath parts cp ∉ map n_path (nodes t) ->
  exists new,
    labels (walk f parts cp t) ≡ₚ
      labels t ++ new ++ [(finalPath parts cp, TFile)] /\
    (forall l, l ∈ new ->
       exists c, l = (c, TDirectory) /\ c ∈ intermediate parts cp) /\
    (forall c, c ∈ intermediate parts cp ->
       (c, TDirectory) ∈ labels (walk f parts cp t)).
Proof.
  induction parts as [|part rest IH]; intros cp t Hne Hty Hdir Hfree Hfin;
    [done|].
  destruct (walk_step f part rest cp t)
    as [l1 e l2 ch -> Hpe Hb Hch Hw | e He Hpe Hch Hw | s m Hnew Hr Hw |
        Hnew -> _ Hw]; rewrite Hw; clear Hw.
  - destruct rest as [|part' rest'].
    { exfalso. apply Hfin. simpl. rewrite <- Hpe.
      apply list_elem_of_fmap. exists e. split; [done|].
      apply elem_of_nodes_root. apply elem_of_app. right. by left. }
    set (rest := part' :: rest') in *.
    assert (forall x, x ∈ nodes ch -> x ∈ nodes (l1 ++ e :: l2)) as Hsub.
    { intros x Hx. apply elem_of_nodes_middle. right. left.
      rewrite (nodesOf_inner _ _ Hch). by right. }
    destruct (IH (extendPath cp part) ch) as (new & Hperm & Hnew & Hall).
    + done.
    + done.
    + intros x Hx. by apply Hdir, Hsub.
    + intros x Hx Hc Hin. apply (Hfree x (Hsub x Hx) Hc).
      rewrite intermediate_cons by done. by right.
    + intros Hin. apply Hfin. simpl finalPath.
      apply list_elem_of_fmap in Hin as (x & Hx & Hin).
      apply list_elem_of_fmap. exists x. split; [done|]. by apply Hsub.
    + assert (n_type e = TDirectory) as Hte.
      { apply Hdir; [|by eexists]. apply elem_of_nodes_root.
        apply elem_of_app. right. by left. }
      exists new. split; [|split].
      * rewrite (labels_middle l1 (setChildren e _) l2 _ eq_refl).
        rewrite (labels_middle l1 e l2 ch Hch). simpl n_path. simpl n_type.
        rewrite Hperm. simpl finalPath.
        exact (perm_insert_end (labels l1) ((n_path e, n_type e) :: labels ch)
                 _ (labels l2)).
      * intros l Hl. destruct (Hnew l Hl) as (c & -> & Hc). exists c.
        split; [done|]. rewrite intermediate_cons by done. by right.
      * intros c Hc. rewrite intermediate_cons in Hc by done.
        rewrite (labels_middle l1 (setChildren e _) l2 _ eq_refl).
        simpl n_path. simpl n_type.
        apply elem_of_app. right. apply elem_of_app. left.
        apply elem_of_cons in Hc as [->|Hc].
        -- rewrite Hpe, Hte. by left.
        -- right. by apply Hall.
  - exfalso. destruct rest as [|part' rest'].
    + apply Hfin. simpl. rewrite <- Hpe. apply list_elem_of_fmap.
      exists e. split; [done|]. by apply elem_of_nodes_root.
    + apply (Hfree e (elem_of_nodes_root _ _ He) Hch).
      rewrite intermediate_cons by done. rewrite Hpe. by left.
  - destruct Hr as [Hr|Hr]; [|congruence].
    destruct (IH (extendPath cp part) []) as (new & Hperm & Hnew' & Hall).
    + done.
    + done.
    + intros x Hx. by apply elem_of_nil in Hx.
    + intros x Hx. by apply elem_of_nil in Hx.
    + simpl. apply not_elem_of_nil.
    + exists ((extendPath cp part, TDirectory) :: new). split; [|split].
      * rewrite labels_app, labels_inner, Hperm. simpl. done.
      * intros l Hl. rewrite intermediate_cons by done.
        apply elem_of_cons in Hl as [->|Hl].
        -- eexists. split; [done|]. by left.
        -- destruct (Hnew' l Hl) as (c & -> & Hc). exists c.
           split; [done|]. by right.
      * intros c Hc. rewrite intermediate_cons in Hc by done.
        rewrite labels_app, labels_inner. apply elem_of_app. right.
        apply elem_of_cons in Hc as [->|Hc]; [by left|].
        right. by apply Hall.
  - exists []. split; [|split].
    + by rewrite labels_app, labels_leaf.
    + intros l Hl. by apply elem_of_nil in Hl.
    + intros c Hc. by apply elem_of_nil in Hc.
Qed.

(** *** Counting *)

Lemma filter_length_perm {A} (f : A -> bool) (l l' : list A) :
  l ≡ₚ l' -> length (List.filter f l) = length (List.filter f l').
Proof.
  induction 1 as [|x l l' _ IH|x y l|l l' l'' _ IH1 _ IH2]; simpl.
  - done.
  - destruct (f x); simpl; congruence.
  - destruct (f x), (f y); simpl; congruence.
  - congruence.
Qed.

Lemma countLeaves_labels t :
  countLeaves t = length (List.filter isFileLabel (labels t)).
Proof.
  unfold countLeaves, labels. induction (nodes t) as [|e l IH]; [done|].
  simpl. unfold isFileLabel at 1, isFileNode at 1. simpl.
  destruct (n_type e); simpl; congruence.
Qed.

Lemma filter_none {A} (f : A -> bool) (l : list A) :
  (forall x, x ∈ l -> f x = false) -> List.filter f l = [].
Proof.
  induction l as [|x l IH]; intros H; [done|]. simpl.
  rewrite (H x) by by left. apply IH. intros y Hy. apply H. by right.
Qed.

(** In a list without two elements of the same key, exactly one element
    has the key of a given member. *)
Lemma filter_unique {A} (key : A -> str) (h : A -> bool) (l : list A) x :
  NoDup (map key l) -> x ∈ l -> h x = true ->
  length (List.filter (fun e => h e && bool_decide (key e = key x)) l) = 1.
Proof.
  induction l as [|y l IH]; intros Hnd Hx Hh.
  - by apply elem_of_nil in Hx.
  - simpl in Hnd. apply NoDup_cons in Hnd as [Hy Hnd]. simpl.
    apply elem_of_cons in Hx as [->|Hx].
    + rewrite Hh, bool_decide_eq_true_2 by done. simpl.
      rewrite filter_none; [done|]. intros z Hz.
      apply andb_false_iff. right. apply bool_decide_eq_false_2.
      intros Heq. apply Hy. rewrite <- Heq. apply list_elem_of_fmap.
      by exists z.
    + assert (key y <> key x) as Hne.
      { intros Heq. apply Hy. rewrite Heq. apply list_elem_of_fmap.
        by exists x. }
      rewrite (bool_decide_eq_false_2 _ Hne), andb_false_r. by apply IH.
Qed.

(** *** Processing a consistent listing *)

Lemma builtFrom_nil : builtFrom [] [].
Proof.
  split; [apply wellShaped_nil|]. split; [apply placed_nil|].
  split; [|split; [|split]].
  - intros p Hp. by apply elem_of_nil in Hp.
  - intros p Hp. by apply elem_of_nil in Hp.
  - done.
  - intros g c Hg. by apply elem_of_nil in Hg.
Qed.

Lemma builtFrom_addFile done t f :
  builtFrom done t ->
  f_type f = TFile -> relativePath (f_path f) ->
  (forall g, g ∈ done ->
     (f_path f ∉ pathsOf g) /\ (f_path g ∉ pathsOf f)) ->
  builtFrom (done ++ [f]) (addFile t f).
Proof.
  intros (Hshape & Hplaced & Hfiles & Hdirs & Hcount & Hall) Hty Hrel Hcons.
  destruct (relative_paths _ Hrel) as (h & tl & Hsplit & Hh & Hint & Hfin).
  unfold addFile. rewrite Hsplit.
  assert (forall e, e ∈ nodes t -> n_children e = None ->
            exists g, g ∈ done /\ n_path e = f_path g) as Hleaf.
  { intros e He Hc. apply Hfiles, elem_of_labels. exists e.
    split; [done|]. split; [done|].
    pose proof (proj2 Hshape e He) as Hs. unfold nodeShape in Hs.
    destruct (n_type e); [done|]. rewrite Hc in Hs. by destruct Hs. }
  assert (forall e, e ∈ nodes t -> n_children e = None ->
            n_path e ∉ intermediate (h :: tl) []) as Hfree.
  { intros e He Hc Hin. destruct (Hleaf e He Hc) as (g & Hg & Hp).
    apply (proj2 (Hcons g Hg)). unfold pathsOf. apply elem_of_app. left.
    by rewrite <- Hp, <- Hint. }
  assert (forall e, e ∈ nodes t -> is_Some (n_children e) ->
            n_type e = TDirectory) as Hdir.
  { intros e He [ch Hc]. pose proof (proj2 Hshape e He) as Hs.
    unfold nodeShape in Hs. destruct (n_type e); [|done].
    destruct Hs as (_ & _ & Hs). congruence. }
  assert (finalPath (h :: tl) [] ∉ map n_path (nodes t)) as Hnew.
  { rewrite Hfin. intros Hin. apply list_elem_of_fmap in Hin as (e & Hp & He).
    destruct (n_type e) eqn:Ht.
    - destruct (Hfiles (n_path e)) as (g & Hg & Hpg).
      { apply elem_of_labels. by exists e. }
      apply (proj1 (Hcons g Hg)). unfold pathsOf. apply elem_of_app. right.
      rewrite Hp, Hpg. by left.
    - destruct (Hdirs (n_path e)) as (g & Hg & Hpg).
      { apply elem_of_labels. by exists e. }
      apply (proj1 (Hcons g Hg)). unfold pathsOf. apply elem_of_app. left.
      by rewrite Hp. }
  destruct (walk_labels f (h :: tl) [] t ltac:(done) Hty Hdir Hfree Hnew)
    as (new & Hperm & Hnewdirs & Hallnew).
  rewrite Hfin in Hperm. rewrite Hint in Hnewdirs, Hallnew.
  split; [by apply walk_wellShaped|]. split.
  { apply walk_placed; auto.
    rewrite <- Hsplit. apply split_parts. }
  split; [|split; [|split]].
  - intros p Hp. rewrite Hperm in Hp.
    apply elem_of_app in Hp as [Hp|Hp].
    + destruct (Hfiles p Hp) as (g & Hg & ->). exists g.
      split; [|done]. apply elem_of_app. by left.
    + apply elem_of_app in Hp as [Hp|Hp].
      * by destruct (Hnewdirs _ Hp) as (c & [=] & _).
      * apply list_elem_of_singleton in Hp as [= ->]. exists f.
        split; [|done]. apply elem_of_app. right. by left.
  - intros p Hp. rewrite Hperm in Hp.
    apply elem_of_app in Hp as [Hp|Hp].
    + destruct (Hdirs p Hp) as (g & Hg & Hpg). exists g.
      split; [|done]. apply elem_of_app. by left.
    + apply elem_of_app in Hp as [Hp|Hp].
      * destruct (Hnewdirs _ Hp) as (c & [= ->] & Hc). exists f.
        split; [|done]. apply elem_of_app. right. by left.
      * by apply list_elem_of_singleton in Hp as [=].
  - rewrite countLeaves_labels, (filter_length_perm _ _ _ Hperm).
    rewrite !List.filter_app, !length_app, <- countLeaves_labels, Hcount.
    rewrite filter_none.
    2:{ intros l Hl. by destruct (Hnewdirs l Hl) as (c & -> & _). }
    simpl. lia.
  - intros g c Hg Hc. apply elem_of_app in Hg as [Hg|Hg].
    + rewrite Hperm. apply elem_of_app. left. by apply (Hall g).
    + apply list_elem_of_singleton in Hg as ->. by apply Hallnew.
Qed.

Lemma builtFrom_fold rest : forall done t,
  builtFrom done t -> consistentListing (done ++ rest) ->
  builtFrom (done ++ rest) (fold_left addFile rest t).
Proof.
  induction rest as [|f rest IH]; intros done t Hb Hcons.
  - by rewrite app_nil_r.
  - simpl. replace (done ++ f :: rest) with ((done ++ [f]) ++ rest) in *
      by (by rewrite <- app_assoc).
    apply IH; [|done]. destruct Hcons as [Hall Hdistinct].
    assert (((done ++ [f]) ++ rest) !! length done = Some f) as Hf.
    { rewrite <- app_assoc. simpl. by apply list_lookup_middle. }
    apply builtFrom_addFile; [done | | |].
    + rewrite Forall_forall in Hall. apply (Hall f).
      apply elem_of_app. left. apply elem_of_app. right. by left.
    + rewrite Forall_forall in Hall. apply (Hall f).
      apply elem_of_app. left. apply elem_of_app. right. by left.
    + intros g Hg. apply list_elem_of_lookup in Hg as [i Hi].
      assert (i < length done) as Hlt by by apply lookup_lt_Some in Hi.
      assert (((done ++ [f]) ++ rest) !! i = Some g) as Hgi.
      { rewrite <- app_assoc. by rewrite lookup_app_l. }
      split.
      * apply (Hdistinct (length done) i f g Hf Hgi). lia.
      * apply (Hdistinct i (length done) g f Hgi Hf). lia.
Qed.

(** C2 (as amended). For a consistent listing, that is for file records
    with relative paths none of which is the path of another record or a
    proper directory prefix of one, the tree that [buildTreeFromFiles]
    returns has as many file nodes as there are records, and every proper
    directory prefix of a record's path is the path of exactly one node of
    the tree, which is a directory node. *)
Theorem build_tree_counts (files : list FileRecord) :
  consistentListing files ->
  let tree := buildTreeFromFiles files in
  countLeaves tree = length files /\
  forall f p, f ∈ files -> p ∈ properPrefixes (f_path f) ->
    occurrences p tree = 1 /\ directoryOccurrences p tree = 1.
Proof.
  intros Hcons tree. subst tree. unfold buildTreeFromFiles.
  destruct (builtFrom_fold files [] [] builtFrom_nil Hcons)
    as (Hshape & Hplaced & _ & _ & Hcount & Hall).
  change ([] ++ files) with files in *.
  set (tree := fold_left addFile files []) in *.
  split; [done|]. intros f p Hf Hp.
  pose proof (placed_NoDup tree [] Hplaced (proj1 Hshape)) as Hnd.
  apply (Hall f p Hf), elem_of_labels in Hp as (e & He & <- & Hte).
  split.
  - unfold occurrences.
    rewrite <- (filter_unique n_path (fun _ => true) (nodes tree) e Hnd He eq_refl).
    done.
  - unfold directoryOccurrences.
    apply (filter_unique n_path (fun x => negb (isFileNode x))); [done..|].
    unfold isFileNode. by rewrite Hte.
Qed.

(** C2, as stated, fails for a listing that names a path twice: the second
    record finds the node of the first, and the tree has one file node for
    two records. *)
Lemma build_tree_counts_counterexample :
  let files := [ mkFile "a.txt" TFile (JS.Int 1) "2025-08-06 13:58:55";
                 mkFile "a.txt" TFile (JS.Int 1) "2025-08-06 13:58:55" ] in
  countLeaves (buildTreeFromFiles files) <> length files.
Proof. vm_compute. lia. Qed.

(** Why the conditions of a consistent listing are there. A record whose
    path is a directory prefix of a later one leaves a file node where the
    later record needs a directory, and the later leaf lands beside it. *)
Example file_before_its_directory :
  let tree := buildTreeFromFiles
                [ mkFile "a" TFile (JS.Int 1) "m";
                  mkFile "a/b" TFile (JS.Int 2) "m" ] in
  directoryOccurrences "a" tree = 0 /\ map n_path tree = [ "a" : str; "a/b" : str ].
Proof. vm_compute. done. Qed.

(** A record whose path is a directory of an earlier one finds that
    directory and adds nothing. *)
Example directory_before_its_file :
  countLeaves (buildTreeFromFiles
                 [ mkFile "a/b" TFile (JS.Int 1) "m";
                   mkFile "a" TFile (JS.Int 2) "m" ]) = 1.
Proof. vm_compute. done. Qed.

(** Leading slashes give empty parts, for which [currentPath] stays empty:
    one record then creates two directory nodes with the empty path. *)
Example leading_slashes_repeat :
  directoryOccurrences ""
    (buildTreeFromFiles [ mkFile "//x" TFile (JS.Int 1) "m" ]) = 2.
Proof. vm_compute. done. Qed.

(** A record of type directory ends in a directory node, not in a leaf. *)
Example directory_record_is_no_leaf :
  countLeaves (buildTreeFromFiles [ mkFile "d" TDirectory (JS.Int 0) "m" ]) = 0.
Proof. vm_compute. done. Qed.

Lemma build_tree_counts_witness :
  let files := [ mkFile ".claude/PLAN.md" TFile (JS.Int 4422) "2025-08-06";
                 mkFile ".claude/notes/a.md" TFile (JS.Int 128) "2025-08-07" ] in
  countLeaves (buildTreeFromFiles files) = 2 /\
  occurrences ".claude" (buildTreeFromFiles files) = 1.
Proof.
  intros files.
  assert (consistentListing files) as H.
  { split.
    - repeat constructor; discriminate.
    - intros i j f g Hi Hj Hij.
      destruct i as [|[|i]], j as [|[|j]]; simpl in Hi, Hj;
        try discriminate; try congruence;
        injection Hi as <-; injection Hj as <-; compute_done. }
  destruct (build_tree_counts files H) as [H1 H2]. split; [exact H1|].
  apply (H2 (mkFile ".claude/PLAN.md" TFile (JS.Int 4422) "2025-08-06")
            (list_ascii_of_string ".claude")).
  - by left.
  - by left.
Defined.

(** ** Regular expressions *)


(** A greedy repetition that is followed by a character outside its class
    takes the whole run, when the rest of the pattern then succeeds. *)
Lemma many_commit {A} cls min n (w r : str) (k : str -> option A) v :
  Forall (fun c => cls c = true) w -> headFails cls r ->
  min <= n + length w -> k r = Some v ->
  many cls min n (w ++ r) k = Some v.
Proof.
  intros Hw Hr. revert n. induction Hw as [|c w Hc _ IH]; intros n Hmin Hk.
  - simpl in *. assert (Nat.leb min n = true) as Hle by (apply Nat.leb_le; lia).
    destruct r as [|c r]; simpl.
    + by rewrite Hle.
    + simpl in Hr. by rewrite Hr, Hle.
  - simpl. rewrite Hc. rewrite IH; [done | simpl in Hmin; lia | done].
Qed.

(** Whatever a repetition returns, the rest of the pattern returned it. *)
Lemma many_result {A} cls min n (s : str) (k : str -> option A) v :
  many cls min n s k = Some v -> exists r, k r = Some v.
Proof.
  revert n. induction s as [|c s IH]; intros n; simpl.
  - destruct (Nat.leb min n); [|done]. intros H. by exists [].
  - destruct (cls c).
    + destruct (many cls min (S n) s k) eqn:E.
      * intros [= ->]. by apply (IH (S n)).
      * destruct (Nat.leb min n); [|done]. intros H. by exists (c :: s).
    + destruct (Nat.leb min n); [|done]. intros H. by exists (c :: s).
Qed.

(** A repetition succeeds when the rest of the pattern succeeds after some
    admissible run. *)
Lemma many_exists {A} cls min n (w r : str) (k : str -> option A) :
  Forall (fun c => cls c = true) w -> min <= n + length w ->
  is_Some (k r) -> is_Some (many cls min n (w ++ r) k).
Proof.
  intros Hw. revert n. induction Hw as [|c w Hc _ IH]; intros n Hmin Hk.
  - simpl in *. assert (Nat.leb min n = true) as Hle by (apply Nat.leb_le; lia).
    destruct r as [|c r]; simpl.
    + by rewrite Hle.
    + destruct (cls c); [|by rewrite Hle].
      destruct (many cls min (S n) r k); [by eexists | by rewrite Hle].
  - simpl. rewrite Hc.
    destruct (IH (S n)) as [v ->]; [simpl in Hmin; lia | done | by eexists].
Qed.

Lemma run_cat r1 r2 s caps k v :
  run r1 s caps (fun rest caps' => run r2 rest caps' k) = Some v ->
  run (Cat r1 r2) s caps k = Some v.
Proof. done. Qed.

Lemma run_lit p s r caps k v :
  s = p ++ r -> k r caps = Some v -> run (Lit p) s caps k = Some v.
Proof.
  intros -> Hk. simpl. rewrite startsWith_app.
  by rewrite drop_app_length.
Qed.

Lemma run_many min cls s w r caps k v :
  s = w ++ r -> Forall (fun c => cls c = true) w -> headFails cls r ->
  min <= length w -> k r caps = Some v ->
  run (Many min cls) s caps k = Some v.
Proof. intros -> Hw Hr Hmin Hk. simpl. by apply many_commit. Qed.

Lemma run_cap_many min cls s w r caps k v :
  s = w ++ r -> Forall (fun c => cls c = true) w -> headFails cls r ->
  min <= length w -> k r (caps ++ [w]) = Some v ->
  run (Cap (Many min cls)) s caps k = Some v.
Proof.
  intros -> Hw Hr Hmin Hk. simpl. apply many_commit; try done.
  rewrite length_app.
  replace (length w + length r - length r) with (length w) by lia.
  by rewrite take_app_length.
Qed.

(** [\s+(.+)$] on a blank followed by a text without line terminators. *)
Lemma run_modified_tail (tail : str) caps :
  tail <> [] ->
  Forall (fun c => JS.isLineTerminator c = false) tail ->
  exists modified,
    run (seq [Many 1 JS.isSpace; Cap (Many 1 dot); Eos]) (" "%char :: tail)
      caps (fun _ caps' => Some caps') = Some (caps ++ [modified]).
Proof.
  intros Hne Hlt.
  set (K := fun rest : str =>
    many dot 1 0 rest (fun rest' =>
      match rest' with
      | [] => Some (caps ++ [take (length rest - length rest') rest])
      | _ :: _ => None
      end)).
  assert (run (seq [Many 1 JS.isSpace; Cap (Many 1 dot); Eos])
             (" "%char :: tail) caps (fun _ caps' => Some caps') =
          many JS.isSpace 1 0 (" "%char :: tail) K) as ->.
  { reflexivity. }
  assert (is_Some (many JS.isSpace 1 0 ([" "%char] ++ tail) K)) as [v Hv].
  { apply many_exists.
    - by repeat constructor.
    - simpl. lia.
    - unfold K. rewrite <- (app_nil_r tail) at 1.
      erewrite many_commit; [by eexists | | done | | reflexivity].
      + eapply Forall_impl; [exact Hlt|]. intros c Hc. unfold dot.
        by rewrite Hc.
      + destruct tail; [done|]. simpl. lia. }
  simpl app in Hv. rewrite Hv.
  apply many_result in Hv as [rest Hrest]. unfold K in Hrest.
  apply many_result in Hrest as [rest' Hrest'].
  destruct rest'; [|done]. injection Hrest' as <-. by eexists.
Qed.

(** ** [parseTextManifest] *)

Lemma showN_head n : exists d ds, JS.showN n = d :: ds /\ JS.isSpace d = false.
Proof.
  pose proof (showN_not_nil n) as Hne. pose proof (showN_no_space n) as Hsp.
  destruct (JS.showN n) as [|d ds]; [done|].
  apply Forall_cons in Hsp as [Hd _]. by exists d, ds.
Qed.

Lemma match_total_files n :
  matchStart reTotalFiles ("Total Files: " ++ JS.showN n) = Some [JS.showN n]
  /\ matchStart reTotalDirectories ("Total Files: " ++ JS.showN n) = None.
Proof.
  split; [|reflexivity].
  destruct (showN_head n) as (d & ds & Hshow & Hd).
  unfold matchStart, reTotalFiles. cbn [seq].
  apply run_cat. eapply (run_lit _ _ (" "%char :: JS.showN n)); [reflexivity|].
  apply run_cat.
  eapply (run_many _ _ _ [" "%char] (JS.showN n)); [reflexivity | | | simpl; lia |].
  { by repeat constructor. }
  { rewrite Hshow. exact Hd. }
  eapply (run_cap_many _ _ _ (JS.showN n) []).
  - by rewrite app_nil_r.
  - apply showN_isDigit.
  - done.
  - pose proof (showN_not_nil n). destruct (JS.showN n); simpl; [done|lia].
  - reflexivity.
Qed.

Lemma match_total_directories n :
  matchStart reTotalDirectories ("Total Directories: " ++ JS.showN n) =
    Some [JS.showN n]
  /\ matchStart reTotalFiles ("Total Directories: " ++ JS.showN n) = None.
Proof.
  split; [|reflexivity].
  destruct (showN_head n) as (d & ds & Hshow & Hd).
  unfold matchStart, reTotalDirectories. cbn [seq].
  apply run_cat. eapply (run_lit _ _ (" "%char :: JS.showN n)); [reflexivity|].
  apply run_cat.
  eapply (run_many _ _ _ [" "%char] (JS.showN n)); [reflexivity | | | simpl; lia |].
  { by repeat constructor. }
  { rewrite Hshow. exact Hd. }
  eapply (run_cap_many _ _ _ (JS.showN n) []).
  - by rewrite app_nil_r.
  - apply showN_isDigit.
  - done.
  - pose proof (showN_not_nil n). destruct (JS.showN n); simpl; [done|lia].
  - reflexivity.
Qed.

Lemma match_entry e :
  wellFormedEntry e ->
  exists modified,
    matchStart reFileEntry (entryLine e) =
    Some [e_path e; JS.showN (e_bytes e); modified].
Proof.
  intros (Hrel & Hq & Hlf & Hne & Hlt).
  destruct (run_modified_tail (e_modified e)
              [e_path e; JS.showN (e_bytes e)] Hne Hlt) as [modified Hm].
  exists modified. unfold matchStart, reFileEntry, entryLine. cbn [seq].
  apply run_cat. eapply (run_lit [DQUOTE]); [reflexivity|].
  apply run_cat. eapply (run_cap_many _ _ _ (e_path e)); [reflexivity | | | |].
  { apply Forall_forall. intros c Hc. unfold notChar.
    apply negb_true_iff, eqc_false. intros ->. by apply Hq, list_elem_of_In. }
  { reflexivity. }
  { destruct (e_path e); [done|]. simpl. lia. }
  apply run_cat. eapply (run_lit [DQUOTE]); [reflexivity|].
  apply run_cat. eapply (run_many _ _ _ [" "%char]);
    [reflexivity | by repeat constructor | reflexivity | simpl; lia |].
  apply run_cat. eapply (run_lit "("); [reflexivity|].
  apply run_cat.
  eapply (run_cap_many _ _ _ (JS.showN (e_bytes e)));
    [reflexivity | apply showN_isDigit | reflexivity | |].
  { pose proof (showN_not_nil (e_bytes e)).
    destruct (JS.showN (e_bytes e)); simpl; [done|lia]. }
  apply run_cat. eapply (run_many _ _ _ [" "%char]);
    [reflexivity | by repeat constructor | reflexivity | simpl; lia |].
  apply run_cat. eapply (run_lit "bytes)"); [reflexivity|].
  apply run_cat. eapply (run_many _ _ _ [" "%char]);
    [reflexivity | by repeat constructor | reflexivity | simpl; lia |].
  apply run_cat. eapply (run_lit "-"); [reflexivity|].
  apply run_cat. eapply (run_many _ _ _ [" "%char]);
    [reflexivity | by repeat constructor | reflexivity | simpl; lia |].
  apply run_cat. eapply (run_lit "Modified:"); [reflexivity|].
  exact Hm.
Qed.

(** *** The scanning loop, line by line *)

Lemma scanLine_plain st l :
  plainLine l -> inFileListing st = false -> inSummary st = false ->
  scanCore (scanLine st l) = scanCore st.
Proof.
  intros (_ & Hfl & Hsm) Hf Hs. destruct st as [d t a b fs fl sm].
  simpl in Hf, Hs. subst fl sm. unfold scanLine.
  destruct (JS.startsWith l "Timestamp:"); [reflexivity|].
  destruct (JS.startsWith l "Directory:"); [reflexivity|].
  rewrite Hfl, Hsm.
  destruct (JS.startsWith l "-------------" || JS.startsWith l "--------");
    reflexivity.
Qed.

Lemma scan_plain ls : forall st,
  Forall plainLine ls -> inFileListing st = false -> inSummary st = false ->
  scanCore (fold_left scanLine ls st) = scanCore st.
Proof.
  induction ls as [|l ls IH]; intros st Hall Hf Hs; [done|].
  apply Forall_cons in Hall as [Hl Hls]. simpl.
  pose proof (scanLine_plain st l Hl Hf Hs) as Hcore.
  rewrite IH; [done | done | |].
  - apply (f_equal (fun c => snd (fst c))) in Hcore. simpl in Hcore.
    by rewrite Hcore.
  - apply (f_equal snd) in Hcore. simpl in Hcore. by rewrite Hcore.
Qed.

Lemma scanLine_blank st : scanLine st [] = st.
Proof.
  unfold scanLine, scanSummary, scanEntry. simpl.
  by rewrite !andb_false_r.
Qed.

Lemma scan_listing_header st :
  scanCore (fold_left scanLine
              [ "File Listing:" : str; "-------------" : str ] st) =
  (s_total_files st, s_total_directories st, s_files st, true, false).
Proof. reflexivity. Qed.

Lemma scanLine_entry st e :
  wellFormedEntry e -> inFileListing st = true -> inSummary st = false ->
  exists modified,
    scanLine st (entryLine e) =
    pushFile st (mkFile (e_path e) TFile (JS.double false (e_bytes e)) modified).
Proof.
  intros Hwf Hf Hs. destruct (match_entry e Hwf) as [modified Hm].
  exists (JS.trim modified). unfold scanLine.
  assert (JS.startsWith (entryLine e) "Timestamp:" = false) as -> by reflexivity.
  assert (JS.startsWith (entryLine e) "Directory:" = false) as -> by reflexivity.
  assert (JS.startsWith (entryLine e) "File Listing:" = false) as -> by reflexivity.
  assert (JS.startsWith (entryLine e) "Summary:" = false) as Hsum by reflexivity.
  rewrite Hsum.
  assert (JS.startsWith (entryLine e) "-------------" = false) as -> by reflexivity.
  assert (JS.startsWith (entryLine e) "--------" = false) as -> by reflexivity.
  cbn [orb]. unfold scanSummary. rewrite Hs. cbn [andb].
  unfold scanEntry. rewrite Hf, Hsum.
  destruct (trim_cons DQUOTE
              (e_path e ++ DQUOTE :: " (" ++ JS.showN (e_bytes e) ++
               " bytes) - Modified: " ++ e_modified e) eq_refl) as [t Ht].
  change (JS.trim (entryLine e)) with
    (JS.trim (DQUOTE :: e_path e ++ DQUOTE :: " (" ++ JS.showN (e_bytes e) ++
               " bytes) - Modified: " ++ e_modified e)).
  rewrite Ht. cbn [JS.truthy andb negb]. rewrite Hm.
  by rewrite parseInt10_showN.
Qed.

Lemma scan_entries es : forall st,
  Forall wellFormedEntry es ->
  inFileListing st = true -> inSummary st = false ->
  exists files,
    scanCore (fold_left scanLine (map entryLine es) st) =
      (s_total_files st, s_total_directories st, s_files st ++ files,
       true, false) /\
    map f_path files = map e_path es.
Proof.
  induction es as [|e es IH]; intros st Hall Hf Hs.
  - exists []. simpl. unfold scanCore. by rewrite app_nil_r, Hf, Hs.
  - apply Forall_cons in Hall as [He Hes]. simpl.
    destruct (scanLine_entry st e He Hf Hs) as [modified ->].
    destruct (IH (pushFile st
                    (mkFile (e_path e) TFile (JS.double false (e_bytes e))
                       modified)) Hes Hf Hs) as (files & Hcore & Hpaths).
    exists (mkFile (e_path e) TFile (JS.double false (e_bytes e)) modified
            :: files).
    split.
    + rewrite Hcore. simpl. by rewrite <- app_assoc.
    + simpl. by rewrite Hpaths.
Qed.

Lemma scan_summary st nf nd :
  scanCore (fold_left scanLine (summaryLines (Some (nf, nd))) st) =
  (JS.double false nf, JS.double false nd, s_files st, false, true).
Proof.
  unfold summaryLines. cbn [fold_left].
  change (scanLine st "Summary:") with (setSection st false true).
  change (scanLine (setSection st false true) "--------")
    with (setSection st false true).
  destruct (match_total_files nf) as [Hf1 Hf2].
  destruct (match_total_directories nd) as [Hd1 Hd2].
  destruct (trim_cons "T" ("otal Files: " ++ JS.showN nf) eq_refl) as [t1 Ht1].
  destruct (trim_cons "T" ("otal Directories: " ++ JS.showN nd) eq_refl)
    as [t2 Ht2].
  assert (scanLine (setSection st false true) ("Total Files: " ++ JS.showN nf)
          = setTotalFiles (setSection st false true) (JS.double false nf))
    as ->.
  { unfold scanLine.
    assert (JS.startsWith ("Total Files: " ++ JS.showN nf) "Timestamp:" = false)
      as -> by reflexivity.
    assert (JS.startsWith ("Total Files: " ++ JS.showN nf) "Directory:" = false)
      as -> by reflexivity.
    assert (JS.startsWith ("Total Files: " ++ JS.showN nf) "File Listing:" = false)
      as -> by reflexivity.
    assert (JS.startsWith ("Total Files: " ++ JS.showN nf) "Summary:" = false)
      as -> by reflexivity.
    assert (JS.startsWith ("Total Files: " ++ JS.showN nf) "-------------" = false)
      as -> by reflexivity.
    assert (JS.startsWith ("Total Files: " ++ JS.showN nf) "--------" = false)
      as -> by reflexivity.
    cbn [orb]. unfold scanSummary. cbn [inSummary setSection andb].
    change (JS.trim ("Total Files: " ++ JS.showN nf))
      with (JS.trim ("T"%char :: "otal Files: " ++ JS.showN nf)).
    rewrite Ht1. cbn [JS.truthy]. rewrite Hf1, Hf2, parseInt10_showN.
    reflexivity. }
  assert (scanLine (setTotalFiles (setSection st false true) (JS.double false nf))
            ("Total Directories: " ++ JS.showN nd)
          = setTotalDirectories
              (setTotalFiles (setSection st false true) (JS.double false nf))
              (JS.double false nd)) as ->.
  { unfold scanLine.
    assert (JS.startsWith ("Total Directories: " ++ JS.showN nd) "Timestamp:"
            = false) as -> by reflexivity.
    assert (JS.startsWith ("Total Directories: " ++ JS.showN nd) "Directory:"
            = false) as -> by reflexivity.
    assert (JS.startsWith ("Total Directories: " ++ JS.showN nd) "File Listing:"
            = false) as -> by reflexivity.
    assert (JS.startsWith ("Total Directories: " ++ JS.showN nd) "Summary:"
            = false) as -> by reflexivity.
    assert (JS.startsWith ("Total Directories: " ++ JS.showN nd) "-------------"
            = false) as -> by reflexivity.
    assert (JS.startsWith ("Total Directories: " ++ JS.showN nd) "--------"
            = false) as -> by reflexivity.
    cbn [orb]. unfold scanSummary.
    cbn [inSummary setSection setTotalFiles andb].
    change (JS.trim ("Total Directories: " ++ JS.showN nd))
      with (JS.trim ("T"%char :: "otal Directories: " ++ JS.showN nd)).
    rewrite Ht2. cbn [JS.truthy]. rewrite Hd1, Hd2, parseInt10_showN.
    reflexivity. }
  reflexivity.
Qed.

(** *** The directory count *)

Lemma addDirectories_spec parts : forall cp (D : gset str),
  addDirectories parts cp D = D ∪ list_to_set (intermediate parts cp).
Proof.
  induction parts as [|part rest IH]; intros cp D.
  - simpl. set_solver.
  - destruct rest as [|part' rest'].
    + simpl. set_solver.
    + rewrite intermediate_cons by done.
      change (addDirectories (part :: part' :: rest') cp D)
        with (addDirectories (part' :: rest') (extendPath cp part)
                (D ∪ {[extendPath cp part]})).
      rewrite IH. set_solver.
Qed.

Lemma collectDirectories_fold files : forall D : gset str,
  Forall (fun f => relativePath (f_path f)) files ->
  fold_left
    (fun directories file =>
       addDirectories (JS.split SLASH (f_path file)) [] directories)
    files D =
  D ∪ list_to_set (flat_map properPrefixes (map f_path files)).
Proof.
  induction files as [|f files IH]; intros D Hall.
  - simpl. set_solver.
  - apply Forall_cons in Hall as [Hf Hfiles]. simpl.
    rewrite IH by done. rewrite addDirectories_spec.
    destruct (relative_paths _ Hf) as (h & t & -> & _ & -> & _).
    rewrite list_to_set_app_L. set_solver.
Qed.

Lemma collectDirectories_size files :
  Forall (fun f => relativePath (f_path f)) files ->
  size (collectDirectories files) = distinctPrefixes (map f_path files).
Proof.
  intros Hall. unfold collectDirectories, distinctPrefixes.
  rewrite collectDirectories_fold by done. f_equal. set_solver.
Qed.

(** For paths that are not relative the loop differs from the proper
    prefixes: after a leading slash [currentPath] is empty again, so [/a/x]
    contributes the directory [a], which [a/y] contributes as well. *)
Example absolute_paths_share_directories :
  let files := [ mkFile "/a/x" TFile (JS.Int 1) "m";
                 mkFile "a/y" TFile (JS.Int 1) "m" ] in
  size (collectDirectories files) = 2 /\
  distinctPrefixes (map f_path files) = 3.
Proof. vm_compute. done. Qed.

(** *** The lines of a manifest *)

Lemma notin_app (x : ascii) l1 l2 : x ∉ l1 -> x ∉ l2 -> x ∉ l1 ++ l2.
Proof. intros H1 H2. by apply not_elem_of_app. Qed.

Lemma notin_cons (x c : ascii) l : x <> c -> x ∉ l -> x ∉ c :: l.
Proof. intros H1 H2. by apply not_elem_of_cons. Qed.

Ltac no_LF :=
  repeat first
    [ assumption
    | apply showN_no_LF
    | apply notin_cons; [discriminate|]
    | apply notin_app
    | by compute_done ].

Lemma lines_no_LF m :
  wellFormedManifest m ->
  Forall (fun l => LF ∉ l)
         (manifestLines m ++ if m_finalNewline m then [[]] else []).
Proof.
  intros (Hb & Hts & Hdir & Hh & He).
  unfold manifestLines. rewrite !Forall_app. repeat split.
  - eapply Forall_impl; [exact Hb|]. by intros l (H & _).
  - repeat constructor; no_LF.
  - eapply Forall_impl; [exact Hh|]. by intros l (H & _).
  - repeat constructor; no_LF.
  - apply Forall_map. eapply Forall_impl; [exact He|].
    intros e (_ & _ & Hp & _ & Hm). unfold entryLine.
    assert (LF ∉ e_modified e) as Hmod.
    { intros Hin. rewrite Forall_forall in Hm. by specialize (Hm _ Hin). }
    no_LF.
  - destruct (m_summary m) as [[nf nd]|]; simpl; [|constructor].
    repeat constructor; no_LF.
  - destruct (m_finalNewline m); repeat constructor. apply not_elem_of_nil.
Qed.

Lemma timestamp_line_plain ts : LF ∉ ts -> plainLine ("Timestamp: " ++ ts).
Proof. intros H. split; [|split]; [|reflexivity..]. no_LF. Qed.

Lemma directory_line_plain d : LF ∉ d -> plainLine ("Directory: " ++ d).
Proof. intros H. split; [|split]; [|reflexivity..]. no_LF. Qed.

Lemma scanCore_inv st a b fs fl sm :
  scanCore st = (a, b, fs, fl, sm) ->
  s_total_files st = a /\ s_total_directories st = b /\ s_files st = fs /\
  inFileListing st = fl /\ inSummary st = sm.
Proof. unfold scanCore. by intros [= -> -> -> -> ->]. Qed.

(** The state of the loop after the last line of a manifest. *)
Lemma scan_manifest m :
  wellFormedManifest m ->
  exists files,
    map f_path files = map e_path (m_entries m) /\
    scanCore (fold_left scanLine
                (manifestLines m ++ if m_finalNewline m then [[]] else [])
                initScan) =
    match m_summary m with
    | Some (nf, nd) =>
        (JS.double false nf, JS.double false nd, files, false, true)
    | None => (JS.Int 0, JS.Int 0, files, true, false)
    end.
Proof.
  intros (Hb & Hts & Hdir & Hh & He).
  unfold manifestLines. rewrite !fold_left_app.
  set (st1 := fold_left scanLine (m_banner m) initScan).
  assert (scanCore st1 = (JS.Int 0, JS.Int 0, [], false, false)) as H1.
  { by apply (scan_plain (m_banner m) initScan). }
  set (st2 := fold_left scanLine _ st1).
  assert (scanCore st2 = (JS.Int 0, JS.Int 0, [], false, false)) as H2.
  { rewrite <- H1. apply scanCore_inv in H1 as (_ & _ & _ & Hf & Hs).
    apply scan_plain; [|done..]. repeat constructor.
    - by apply timestamp_line_plain.
    - by apply directory_line_plain. }
  set (st3 := fold_left scanLine (m_header m) st2).
  assert (scanCore st3 = (JS.Int 0, JS.Int 0, [], false, false)) as H3.
  { rewrite <- H2. apply scanCore_inv in H2 as (_ & _ & _ & Hf & Hs).
    by apply scan_plain. }
  set (st4 := fold_left scanLine _ st3).
  assert (scanCore st4 = (JS.Int 0, JS.Int 0, [], true, false)) as H4.
  { unfold st4. rewrite scan_listing_header.
    apply scanCore_inv in H3 as (-> & -> & -> & _ & _). done. }
  apply scanCore_inv in H4 as (Htf & Htd & Hfs & Hfl & Hsm).
  destruct (scan_entries (m_entries m) st4 He Hfl Hsm) as (files & H5 & Hpaths).
  rewrite Htf, Htd, Hfs in H5. simpl app in H5.
  set (st5 := fold_left scanLine (map entryLine (m_entries m)) st4) in *.
  exists files. split; [done|].
  assert (forall st, fold_left scanLine
            (if m_finalNewline m then [[]] else []) st = st) as Hfinal.
  { intros st. destruct (m_finalNewline m); [|done]. apply scanLine_blank. }
  rewrite Hfinal.
  destruct (m_summary m) as [[nf nd]|].
  - rewrite scan_summary. by apply scanCore_inv in H5 as (_ & _ & -> & _ & _).
  - done.
Qed.

(** C1 (as amended). For a well-formed manifest, with relative entry
    paths, [parseTextManifest] returns the [Total Files] and
    [Total Directories] values of the summary, as the numbers that
    [parseInt] reads from their numerals, where the summary is there and
    the value is not zero; otherwise it returns, as the total of files, the
    number of listed file records, and, as the total of directories, the
    number of distinct proper path prefixes of their paths. A summary value
    of at most [2^53] is returned exactly; a larger one as the nearest
    double, which is [Infinity] when the value is out of range. *)
Theorem parse_manifest_counts (m : Manifest) :
  wellFormedManifest m ->
  let result := parseTextManifest (manifestText m) in
  let listed := Z.of_nat (length (m_entries m)) in
  let prefixes := Z.of_nat (distinctPrefixes (map e_path (m_entries m))) in
  total_files result =
    match m_summary m with
    | Some (nf, _) =>
        if (nf =? 0)%N then JS.Int listed else JS.double false nf
    | None => JS.Int listed
    end /\
  total_directories result =
    match m_summary m with
    | Some (_, nd) =>
        if (nd =? 0)%N then JS.Int prefixes else JS.double false nd
    | None => JS.Int prefixes
    end /\
  (forall nf nd, m_summary m = Some (nf, nd) ->
     ((nf <= 2 ^ 53)%N ->
      total_files result =
        JS.Int (if (nf =? 0)%N then listed else Z.of_N nf)) /\
     ((nd <= 2 ^ 53)%N ->
      total_directories result =
        JS.Int (if (nd =? 0)%N then prefixes else Z.of_N nd))).
Proof.
  intros Hwf result listed prefixes.
  assert (total_files result =
            match m_summary m with
            | Some (nf, _) =>
                if (nf =? 0)%N then JS.Int listed else JS.double false nf
            | None => JS.Int listed
            end /\
          total_directories result =
            match m_summary m with
            | Some (_, nd) =>
                if (nd =? 0)%N then JS.Int prefixes else JS.double false nd
            | None => JS.Int prefixes
            end) as [Hfiles Hdirs].
  { destruct (scan_manifest m Hwf) as (files & Hpaths & Hcore).
    assert (length files = length (m_entries m)) as Hlen.
    { apply (f_equal (@length _)) in Hpaths.
      by rewrite !length_map in Hpaths. }
    assert (Forall (fun f => relativePath (f_path f)) files) as Hrel.
    { destruct Hwf as (_ & _ & _ & _ & He).
      apply Forall_forall. intros f Hf.
      assert (f_path f ∈ map e_path (m_entries m)) as Hin.
      { rewrite <- Hpaths. apply list_elem_of_fmap. by exists f. }
      apply list_elem_of_fmap in Hin as (e & -> & Hin).
      rewrite Forall_forall in He. by destruct (He e Hin). }
    pose proof (collectDirectories_size files Hrel) as Hsize.
    rewrite Hpaths in Hsize.
    subst result. unfold parseTextManifest, manifestText.
    rewrite split_joinLines.
    2:{ unfold manifestLines. by destruct (m_banner m). }
    2:{ by apply lines_no_LF. }
    set (st := fold_left scanLine _ initScan) in *.
    cbn [total_files total_directories].
    destruct (m_summary m) as [[nf nd]|];
      apply scanCore_inv in Hcore as (-> & -> & -> & _ & _).
    - rewrite !isZero_double. split.
      + destruct (nf =? 0)%N; [|done]. unfold lengthOf. by rewrite Hlen.
      + destruct (N.eqb_spec nd 0) as [->|_]; [|done].
        destruct files as [|f files].
        * destruct (m_entries m); [reflexivity|discriminate].
        * cbn [length Nat.ltb Nat.leb andb]. by rewrite Hsize.
    - split.
      + simpl. unfold lengthOf. by rewrite Hlen.
      + simpl. destruct files as [|f files].
        * destruct (m_entries m); [done|discriminate].
        * cbn [length Nat.ltb Nat.leb]. by rewrite Hsize. }
  split; [exact Hfiles|]. split; [exact Hdirs|].
  intros nf nd Hsum. rewrite Hsum in Hfiles, Hdirs. split.
  - intros Hle. rewrite Hfiles, (double_exact false nf Hle).
    by destruct (nf =? 0)%N.
  - intros Hle. rewrite Hdirs, (double_exact false nd Hle).
    by destruct (nd =? 0)%N.
Qed.

(** The original reading at a summary value above [2^53]: the numeral
    [9007199254740993] is read as [9007199254740992]. *)
Lemma parse_manifest_counts_counterexample :
  let m := mkManifest
             [ "LHI Directory Monitor - MANIFEST" : str ]
             "2026-01-19 04:10:57 PM EST" "/Users/x/lhi_scripts" []
             [ mkEntry "a.txt" 12 "2025-08-06 13:58:55" ]
             (Some (9007199254740993, 1)%N) true in
  wellFormedManifest m /\
  total_files (parseTextManifest (manifestText m)) =
    JS.Int 9007199254740992 /\
  total_files (parseTextManifest (manifestText m)) <>
    JS.Int 9007199254740993.
Proof.
  intros m. split.
  { split; [|split; [|split; [|split]]].
    - repeat constructor; compute_done.
    - compute_done.
    - compute_done.
    - constructor.
    - repeat constructor; try discriminate; compute_done. }
  vm_compute. split; [reflexivity | discriminate].
Qed.

Lemma parse_manifest_counts_witness :
  let m := mkManifest
             [ "LHI Directory Monitor - MANIFEST" : str ]
             "2026-01-19 04:10:57 PM EST" "/Users/x/lhi_scripts" []
             [ mkEntry ".claude/PLAN.md" 4422 "2025-08-06 13:58:55";
               mkEntry ".claude/notes/a.md" 128 "2025-08-07 10:00:00" ]
             (Some (7, 0)%N) true in
  total_files (parseTextManifest (manifestText m)) = JS.Int 7 /\
  total_directories (parseTextManifest (manifestText m)) = JS.Int 2.
Proof.
  intros m.
  assert (wellFormedManifest m) as H.
  { split; [|split; [|split; [|split]]].
    - repeat constructor; compute_done.
    - compute_done.
    - compute_done.
    - constructor.
    - repeat constructor; try discriminate; compute_done. }
  destruct (parse_manifest_counts m H) as (_ & _ & Hsafe).
  destruct (Hsafe 7%N 0%N eq_refl) as [Hf Hd].
  split; [apply Hf | apply Hd]; vm_compute; discriminate.
Defined.

(** * Further properties *)

(** ** Strings *)

Lemma split_app sep a b :
  JS.split sep (a ++ sep :: b) = JS.split sep a ++ JS.split sep b.
Proof.
  induction a as [|c a IH]; simpl.
  - by rewrite eqc_refl.
  - destruct (JS.eqc c sep); [by rewrite IH|].
    rewrite IH. pose proof (split_not_nil sep a).
    by destruct (JS.split sep a).
Qed.

Lemma dropWhile_id p s :
  match s with [] => True | c :: _ => p c = false end ->
  JS.dropWhile p s = s.
Proof. destruct s as [|c s]; [done|]. simpl. by intros ->. Qed.

Lemma dropWhile_idem p s : JS.dropWhile p (JS.dropWhile p s) = JS.dropWhile p s.
Proof. apply dropWhile_id, dropWhile_head. Qed.

Lemma trimEnd_idem s : JS.trimEnd (JS.trimEnd s) = JS.trimEnd s.
Proof. unfold JS.trimEnd. by rewrite rev_involutive, dropWhile_idem. Qed.

(** Trimming twice is trimming once. *)
Lemma trim_idem s : JS.trim (JS.trim s) = JS.trim s.
Proof.
  pose proof (trim_head s) as Hhead.
  unfold JS.trim at 1. unfold JS.trimStart.
  rewrite (dropWhile_id _ (JS.trim s)) by exact Hhead.
  unfold JS.trim. apply trimEnd_idem.
Qed.

Lemma dropWhile_subset p s x : x ∈ JS.dropWhile p s -> x ∈ s.
Proof.
  induction s as [|c s IH]; simpl; [done|].
  destruct (p c); [|done]. intros H. right. by apply IH.
Qed.

Lemma trim_subset s x : x ∈ JS.trim s -> x ∈ s.
Proof.
  unfold JS.trim, JS.trimEnd, JS.trimStart. intros H.
  apply list_elem_of_In, in_rev, list_elem_of_In in H.
  apply dropWhile_subset, list_elem_of_In, in_rev, list_elem_of_In in H.
  by apply dropWhile_subset in H.
Qed.

Lemma trimEnd_last s :
  match rev (JS.trimEnd s) with
  | [] => True
  | c :: _ => JS.isSpace c = false
  end.
Proof. unfold JS.trimEnd. rewrite rev_involutive. apply dropWhile_head. Qed.

(** ** [parseExcludes], continued *)

Lemma parseExcludes_lines content :
  parseExcludes content =
  map (fun t => mkPattern t (JS.endsWith t "/"))
      (List.filter keptLine (map JS.trim (JS.split LF content))).
Proof. unfold parseExcludes. by rewrite parseExcludes_fold. Qed.

(** X1. The patterns of two exclude files written one after the other,
    with a line feed between them, are the patterns of the first followed
    by the patterns of the second. *)
Theorem parseExcludes_app (a b : str) :
  parseExcludes (a ++ LF :: b) = parseExcludes a ++ parseExcludes b.
Proof.
  rewrite !parseExcludes_lines, split_app, map_app, List.filter_app.
  by rewrite map_app.
Qed.

(** X2. Every pattern that [parseExcludes] returns is non-empty, is no
    comment, has no white space at either end and spans no line break, and
    is flagged as a directory exactly when it ends with a slash; and there
    are at most as many patterns as lines. *)
Theorem parseExcludes_patterns (content : str) :
  Forall (fun p =>
            pattern p <> [] /\
            JS.startsWith (pattern p) "#" = false /\
            JS.trim (pattern p) = pattern p /\
            (LF ∉ pattern p) /\
            isDirectory p = JS.endsWith (pattern p) "/" /\
            match pattern p with
            | [] => True
            | c :: _ => JS.isSpace c = false
            end /\
            match rev (pattern p) with
            | [] => True
            | c :: _ => JS.isSpace c = false
            end)
         (parseExcludes content) /\
  length (parseExcludes content) <= length (JS.split LF content).
Proof.
  rewrite parseExcludes_lines. split.
  - apply Forall_map, Forall_forall. intros t Ht. simpl.
    apply list_elem_of_In, filter_In in Ht as [Hin Hkept].
    apply in_map_iff in Hin as (line & <- & Hline).
    unfold keptLine in Hkept. apply andb_true_iff in Hkept as [Hne Hc].
    apply negb_true_iff in Hc.
    split; [by destruct (JS.trim line)|]. split; [done|].
    split; [apply trim_idem|]. split; [|split; [done|split]].
    + intros Hin. apply trim_subset in Hin.
      pose proof (split_parts LF content) as Hparts.
      rewrite Forall_forall in Hparts.
      by apply (Hparts line); [apply list_elem_of_In|].
    + apply trim_head.
    + unfold JS.trim. apply trimEnd_last.
  - rewrite length_map. etransitivity; [apply List.filter_length_le|].
    by rewrite length_map.
Qed.

(** X3. Writing the patterns of an exclude file one per line and parsing
    that text gives the same patterns again. *)
Theorem parseExcludes_round_trip (content : str) :
  parseExcludes (joinLines (map pattern (parseExcludes content))) =
  parseExcludes content.
Proof.
  destruct (parseExcludes_patterns content) as [Hall _].
  rewrite (parseExcludes_lines (joinLines _)).
  destruct (parseExcludes content) as [|p ps] eqn:E; [done|].
  rewrite split_joinLines.
  - clear E.
    induction Hall as [|[pat dir] qs (Hne & Hc & Htrim & _ & Hdir & _) _ IH];
      [done|].
    cbn [pattern isDirectory] in *. cbn [map pattern]. rewrite Htrim.
    assert (keptLine pat = true) as Hkept.
    { unfold keptLine. rewrite Hc. by destruct pat. }
    cbn [List.filter]. rewrite Hkept. cbn [map]. by rewrite IH, Hdir.
  - done.
  - apply Forall_map. eapply Forall_impl; [exact Hall|].
    by intros q (_ & _ & _ & H & _).
Qed.

(** ** [buildTreeFromFiles], continued *)

Lemma visited_split parts cp :
  parts <> [] ->
  visited parts cp = intermediate parts cp ++ [finalPath parts cp].
Proof.
  revert cp. induction parts as [|part rest IH]; intros cp Hne; [done|].
  destruct rest as [|part' rest']; [done|].
  rewrite intermediate_cons by done. cbn [visited finalPath app].
  f_equal. by apply IH.
Qed.

Lemma keeps_fields e e' :
  keeps e e' ->
  n_path e' = n_path e /\ n_type e' = n_type e /\ n_size e' = n_size e /\
  n_modified e' = n_modified e /\
  (n_children e = None -> n_children e' = None) /\
  (forall ch, n_children e = Some ch ->
     exists ch', n_children e' = Some ch' /\ grows ch ch').
Proof.
  intros H. inversion H; subst; simpl; repeat split; try done.
  intros ch0 [= <-]. by eexists.
Qed.

Lemma grows_paths_mut :
  (forall a b, grows a b ->
     forall p, p ∈ map n_path (nodes a) -> p ∈ map n_path (nodes b)) /\
  (forall e e', keeps e e' ->
     forall p, p ∈ map n_path (nodesOf e) -> p ∈ map n_path (nodesOf e')).
Proof.
  split.
  - intros a b H.
    induction H using grows_mut with
      (P0 := fun e e' _ =>
         forall p, p ∈ map n_path (nodesOf e) -> p ∈ map n_path (nodesOf e')).
    + intros p Hp. by apply elem_of_nil in Hp.
    + intros p. rewrite !nodes_cons, !map_app, !elem_of_app.
      intros [Hp|Hp]; [left; by apply IHgrows | right; by apply IHgrows0].
    + done.
    + intros q. simpl. rewrite !elem_of_cons.
      intros [Hq|Hq]; [by left | right; by apply IHgrows].
  - intros e e' H.
    induction H using keeps_mut with
      (P := fun a b _ =>
         forall p, p ∈ map n_path (nodes a) -> p ∈ map n_path (nodes b)).
    + intros p Hp. by apply elem_of_nil in Hp.
    + intros p. rewrite !nodes_cons, !map_app, !elem_of_app.
      intros [Hp|Hp]; [left; by apply IHkeeps | right; by apply IHkeeps0].
    + done.
    + intros q. simpl. rewrite !elem_of_cons.
      intros [Hq|Hq]; [by left | right; by apply IHkeeps].
Qed.

Lemma grows_paths a b p :
  grows a b -> p ∈ map n_path (nodes a) -> p ∈ map n_path (nodes b).
Proof. intros H. by apply (proj1 grows_paths_mut). Qed.

Lemma paths_middle p l1 e l2 :
  p ∈ map n_path (nodes (l1 ++ e :: l2)) <->
  p ∈ map n_path (nodes l1) \/ p ∈ map n_path (nodesOf e) \/
  p ∈ map n_path (nodes l2).
Proof. rewrite nodes_app, nodes_cons, !map_app, !elem_of_app. tauto. Qed.

Lemma paths_setChildren p e ch :
  p ∈ map n_path (nodesOf (setChildren e ch)) <->
  p = n_path e \/ p ∈ map n_path (nodes ch).
Proof.
  rewrite nodesOf_setChildren. cbn [map]. rewrite elem_of_cons.
  by destruct e.
Qed.

(** Every path that one walk visits is the path of a node afterwards. *)
Lemma walk_visited f parts : forall cp t p,
  p ∈ visited parts cp -> p ∈ map n_path (nodes (walk f parts cp t)).
Proof.
  induction parts as [|part rest IH]; intros cp t p Hp.
  { by apply elem_of_nil in Hp. }
  cbn [visited] in Hp. apply elem_of_cons in Hp.
  destruct (walk_step f part rest cp t)
    as [l1 e l2 ch -> Hpe Hb Hch ->|e He Hpe Hch ->|s m Hb Hty ->
        |Hb -> Hty ->].
  - apply paths_middle. right. left. apply paths_setChildren.
    destruct Hp as [->|Hp]; [by left|]. right. by apply IH.
  - destruct Hp as [->|Hp]; [|by apply IH].
    apply (grows_paths t); [apply walk_grows|].
    apply list_elem_of_fmap. exists e. split; [done|].
    by apply elem_of_nodes_root.
  - rewrite nodes_app, map_app. apply elem_of_app. right.
    cbn [nodes flat_map nodesOf n_children app map n_path].
    rewrite app_nil_r. apply elem_of_cons.
    destruct Hp as [->|Hp]; [by left|]. right. by apply IH.
  - rewrite nodes_app, map_app. apply elem_of_app. right.
    destruct Hp as [->|Hp]; [|by apply elem_of_nil in Hp].
    cbn. by left.
Qed.

(** The path of every node after one walk was the path of a node before
    it, or is a path that the walk visits. *)
Lemma walk_paths f parts : forall cp t p,
  p ∈ map n_path (nodes (walk f parts cp t)) ->
  p ∈ map n_path (nodes t) \/ p ∈ visited parts cp.
Proof.
  induction parts as [|part rest IH]; intros cp t p Hp; [by left|].
  cbn [visited].
  destruct (walk_step f part rest cp t)
    as [l1 e l2 ch -> Hpe Hb Hch Hw|e He Hpe Hch Hw|s m Hb Hty Hw
        |Hb -> Hty Hw]; rewrite Hw in Hp; clear Hw.
  - apply paths_middle in Hp as [Hp|[Hp|Hp]].
    + left. apply paths_middle. by left.
    + apply paths_setChildren in Hp as [->|Hp].
      * right. rewrite Hpe. by left.
      * apply IH in Hp as [Hp|Hp].
        -- left. apply paths_middle. right. left.
           rewrite (nodesOf_inner _ _ Hch). cbn [map]. by right.
        -- right. by right.
    + left. apply paths_middle. by right; right.
  - apply IH in Hp as [Hp|Hp]; [by left | right; by right].
  - rewrite nodes_app, map_app in Hp. apply elem_of_app in Hp as [Hp|Hp].
    { by left. }
    cbn [nodes flat_map nodesOf n_children app map n_path] in Hp.
    rewrite app_nil_r in Hp. apply elem_of_cons in Hp as [->|Hp].
    { right. by left. }
    apply IH in Hp as [Hp|Hp]; [by apply elem_of_nil in Hp|].
    right. by right.
  - rewrite nodes_app, map_app in Hp. apply elem_of_app in Hp as [Hp|Hp].
    { by left. }
    cbn in Hp. apply list_elem_of_singleton in Hp as ->. right. by left.
Qed.

Lemma fold_addFile_paths files : forall t p,
  p ∈ map n_path (nodes (fold_left addFile files t)) <->
  p ∈ map n_path (nodes t) \/
  exists f, f ∈ files /\ p ∈ visited (JS.split SLASH (f_path f)) [].
Proof.
  induction files as [|f files IH]; intros t p; cbn [fold_left].
  - split; [by left|]. intros [H|(f & Hf & _)]; [done|].
    by apply elem_of_nil in Hf.
  - rewrite IH. split.
    + intros [H|(g & Hg & H)].
      * apply walk_paths in H as [H|H]; [by left|].
        right. exists f. split; [by left | done].
      * right. exists g. split; [by right | done].
    + intros [H|(g & Hg & H)].
      * left. by apply (grows_paths t); [apply walk_grows|].
      * apply elem_of_cons in Hg as [->|Hg].
        -- left. by apply walk_visited.
        -- right. by exists g.
Qed.

(** X4. The paths of the nodes of the tree that [buildTreeFromFiles]
    returns are exactly the paths that the inner loop visits for the
    records: the successive values of [currentPath] over the parts of each
    record's path. This holds for every list of records. *)
Theorem tree_paths (files : list FileRecord) (p : str) :
  p ∈ map n_path (nodes (buildTreeFromFiles files)) <->
  exists f, f ∈ files /\ p ∈ visited (JS.split SLASH (f_path f)) [].
Proof.
  unfold buildTreeFromFiles. rewrite fold_addFile_paths. split.
  - intros [H|H]; [by apply elem_of_nil in H | done].
  - intros H. by right.
Qed.

(** Every node after one walk keeps a node that was there before, or was
    made by the walk: for a part before the last as a bare directory, for
    the last part with the data of the record. *)
Lemma walk_nodes f parts : forall cp t e,
  e ∈ nodes (walk f parts cp t) ->
  (exists e0, e0 ∈ nodes t /\ keeps e0 e) \/
  (n_type e = TDirectory /\ n_size e = None /\ n_modified e = None /\
   is_Some (n_children e) /\ n_path e ∈ intermediate parts cp) \/
  (parts <> [] /\ n_path e = finalPath parts cp /\ n_type e = f_type f /\
   n_size e = Some (f_size f) /\ n_modified e = Some (f_modified f)).
Proof.
  induction parts as [|part rest IH]; intros cp t e He.
  { left. exists e. split; [done | apply keeps_refl]. }
  assert (forall x, x ∈ intermediate rest (extendPath cp part) ->
                    x ∈ intermediate (part :: rest) cp) as Hint.
  { intros x Hx. destruct rest as [|part' rest'].
    - by apply elem_of_nil in Hx.
    - rewrite intermediate_cons by done. by right. }
  assert (forall x,
    (exists e0, e0 ∈ nodes t /\ keeps e0 x) \/
    (n_type x = TDirectory /\ n_size x = None /\ n_modified x = None /\
     is_Some (n_children x) /\
     n_path x ∈ intermediate rest (extendPath cp part)) \/
    (rest <> [] /\ n_path x = finalPath rest (extendPath cp part) /\
     n_type x = f_type f /\ n_size x = Some (f_size f) /\
     n_modified x = Some (f_modified f)) ->
    (exists e0, e0 ∈ nodes t /\ keeps e0 x) \/
    (n_type x = TDirectory /\ n_size x = None /\ n_modified x = None /\
     is_Some (n_children x) /\ n_path x ∈ intermediate (part :: rest) cp) \/
    (part :: rest <> [] /\ n_path x = finalPath (part :: rest) cp /\
     n_type x = f_type f /\ n_size x = Some (f_size f) /\
     n_modified x = Some (f_modified f))) as Hlift.
  { intros x [H|[(H1 & H2 & H3 & H4 & H5)|(H1 & H2)]].
    - by left.
    - right. left. repeat split; try done. by apply Hint.
    - right. right. split; [done|]. exact H2. }
  cbn [walk] in He.
  destruct (list_find (fun e => n_path e = extendPath cp part) t)
    as [[i x]|] eqn:Hfind.
  - destruct (find_path_Some _ _ _ _ Hfind)
      as (l1 & l2 & -> & Hlen & Hp & Hb).
    destruct (n_children x) as [ch|] eqn:Hch.
    + rewrite <- Hlen, insert_app_r_alt, Nat.sub_diag in He by lia.
      cbn [insert list_insert] in He.
      apply elem_of_nodes_middle in He as [He|[He|He]].
      * left. exists e. split; [|apply keeps_refl].
        apply elem_of_nodes_middle. by left.
      * rewrite nodesOf_setChildren in He.
        apply elem_of_cons in He as [->|He].
        -- left. exists x. split.
           ++ apply elem_of_nodes_middle. right. left.
              rewrite (nodesOf_inner _ _ Hch). by left.
           ++ apply keeps_setChildren with ch; [done | apply walk_grows].
        -- apply Hlift. apply IH in He as [(e0 & He0 & Hk)|He]; [|by right].
           left. exists e0. split; [|done].
           apply elem_of_nodes_middle. right. left.
           rewrite (nodesOf_inner _ _ Hch). by right.
      * left. exists e. split; [|apply keeps_refl].
        apply elem_of_nodes_middle. by right; right.
    + apply Hlift. by apply IH.
  - destruct rest as [|part' rest'].
    + unfold newNode in He.
      destruct (f_type f) eqn:Hty;
        cbn [andb negb isDirectoryType n_children setChildren walk] in He.
      * rewrite nodes_app in He. apply elem_of_app in He as [He|He].
        { left. exists e. split; [done | apply keeps_refl]. }
        cbn in He. apply list_elem_of_singleton in He as ->.
        right. right. by cbn.
      * rewrite nodes_app in He. apply elem_of_app in He as [He|He].
        { left. exists e. split; [done | apply keeps_refl]. }
        cbn in He. apply list_elem_of_singleton in He as ->.
        right. right. by cbn.
    + unfold newNode in He. cbn [andb n_children setChildren] in He.
      rewrite nodes_app in He. apply elem_of_app in He as [He|He].
      { left. exists e. split; [done | apply keeps_refl]. }
      cbn [nodes flat_map] in He. rewrite app_nil_r in He.
      rewrite nodesOf_setChildren in He.
      apply elem_of_cons in He as [->|He].
      * right. left. cbn. repeat split; try done. by left.
      * apply Hlift. apply IH in He as [(e0 & He0 & _)|He]; [|by right].
        by apply elem_of_nil in He0.
Qed.

Lemma fold_addFile_nodes files : forall done t,
  (forall e, e ∈ nodes t -> madeOnTheWay done e \/ madeFor done e) ->
  forall e, e ∈ nodes (fold_left addFile files t) ->
    madeOnTheWay (done ++ files) e \/ madeFor (done ++ files) e.
Proof.
  induction files as [|f files IH]; intros done t Ht e He.
  { rewrite app_nil_r. by apply Ht. }
  cbn [fold_left] in He.
  replace (done ++ f :: files) with ((done ++ [f]) ++ files)
    by by rewrite <- app_assoc.
  revert e He. apply IH. intros e He.
  apply walk_nodes in He as [(e0 & He0 & Hk)|[He|He]].
  - apply keeps_fields in Hk as (Hp & Hty & Hs & Hm & Hn & Hc).
    destruct (Ht e0 He0) as [(H1 & H2 & H3 & H4 & g & Hg & H5)|
                             (g & Hg & H1 & H2 & H3 & H4)].
    + left. unfold madeOnTheWay. rewrite Hp, Hty, Hs, Hm.
      repeat split; try done.
      * destruct H4 as [ch H4]. destruct (Hc ch H4) as (ch' & -> & _).
        by eexists.
      * exists g. split; [|done]. apply elem_of_app. by left.
    + right. exists g. rewrite Hp, Hty, Hs, Hm.
      split; [|done]. apply elem_of_app. by left.
  - destruct He as (H1 & H2 & H3 & H4 & H5).
    left. repeat split; try done. exists f. split; [|done].
    apply elem_of_app. right. by left.
  - destruct He as (_ & H1 & H2 & H3 & H4).
    right. exists f. split; [|done]. apply elem_of_app. right. by left.
Qed.

(** X5. Every node of the tree that [buildTreeFromFiles] returns is made
    from a record of the list: either it is a directory without size and
    modified value, with a children list, whose path is visited before the
    last part of a record's path; or its path is the last path visited for
    a record, and it has the type, the size and the modified value of that
    record. *)
Theorem node_provenance (files : list FileRecord) (e : TreeNode) :
  e ∈ nodes (buildTreeFromFiles files) ->
  madeOnTheWay files e \/ madeFor files e.
Proof.
  intros He.
  apply (fold_addFile_nodes files [] []); [|exact He].
  intros x Hx. by apply elem_of_nil in Hx.
Qed.

(** *** Repeated records *)

(** A lookup by path gives the same position in a tree that has grown. *)
Lemma find_grows p : forall a b i e,
  grows a b ->
  list_find (fun x => n_path x = p) a = Some (i, e) ->
  exists e', list_find (fun x => n_path x = p) b = Some (i, e') /\
             keeps e e'.
Proof.
  intros a b i e H. revert i e.
  induction H as [|x x' t t' Hk Hg IH]; intros i e Hfind; [done|].
  destruct (keeps_fields _ _ Hk) as (Hp & _).
  cbn [list_find] in *.
  destruct (decide (n_path x = p)) as [Hx|Hx].
  - injection Hfind as <- <-.
    rewrite decide_True by congruence. by exists x'.
  - rewrite decide_False by congruence.
    destruct (list_find (fun x => n_path x = p) t) as [[j y]|] eqn:E;
      [|done].
    injection Hfind as <- <-.
    destruct (IH j y eq_refl) as (e' & -> & He'). by exists e'.
Qed.

Lemma find_middle p l1 e l2 :
  (forall x, x ∈ l1 -> n_path x <> p) -> n_path e = p ->
  list_find (fun x => n_path x = p) (l1 ++ e :: l2) = Some (length l1, e).
Proof.
  intros Hb He. apply list_find_Some. split; [by apply list_lookup_middle|].
  split; [done|]. intros j y Hj Hlt.
  apply Hb. apply list_elem_of_lookup. exists j.
  by rewrite lookup_app_l in Hj.
Qed.

Lemma setChildren_id e ch : n_children e = Some ch -> setChildren e ch = e.
Proof. destruct e. simpl. by intros ->. Qed.

(** A walk that has been made once changes nothing when it is made again,
    also after the tree has grown. *)
Lemma walk_absorbed f parts : forall cp t t',
  grows (walk f parts cp t) t' -> walk f parts cp t' = t'.
Proof.
  induction parts as [|part rest IH]; intros cp t t' Hg; [done|].
  assert (forall i e,
    list_find (fun x => n_path x = extendPath cp part) t' = Some (i, e) ->
    match n_children e with
    | Some ch => walk f rest (extendPath cp part) ch = ch
    | None => walk f rest (extendPath cp part) t' = t'
    end -> walk f (part :: rest) cp t' = t') as Hdone.
  { intros i e Hfind Hw. cbn [walk]. rewrite Hfind.
    destruct (n_children e) as [ch|] eqn:Hch; [|done].
    rewrite Hw, (setChildren_id _ _ Hch).
    apply list_insert_id. by apply list_find_Some in Hfind as (? & _). }
  cbn [walk] in Hg.
  destruct (list_find (fun x => n_path x = extendPath cp part) t)
    as [[i y]|] eqn:Hfind.
  - destruct (n_children y) as [ch|] eqn:Hch.
    + destruct (find_path_Some _ _ _ _ Hfind)
        as (l1 & l2 & -> & Hlen & Hp & Hb).
      rewrite <- Hlen, insert_app_r_alt, Nat.sub_diag in Hg by lia.
      cbn [insert list_insert] in Hg.
      edestruct (find_grows (extendPath cp part)) as (e' & Hf' & Hk);
        [exact Hg | apply find_middle; [exact Hb | by destruct y] |].
      apply (Hdone _ _ Hf').
      destruct (keeps_fields _ _ Hk) as (_ & _ & _ & _ & _ & Hc).
      destruct (Hc (walk f rest (extendPath cp part) ch)) as (ch' & -> & Hg').
      { by destruct y. }
      by apply (IH _ ch).
    + edestruct (find_grows (extendPath cp part)) as (e' & Hf' & Hk);
        [eapply grows_trans; [apply walk_grows | exact Hg] | exact Hfind |].
      apply (Hdone _ _ Hf').
      destruct (keeps_fields _ _ Hk) as (_ & _ & _ & _ & Hn & _).
      rewrite (Hn Hch). by apply (IH _ t).
  - pose proof (find_path_None _ _ Hfind) as Hb.
    set (isLast := match rest with [] => true | _ :: _ => false end) in *.
    set (nn := newNode f (extendPath cp part) isLast) in *.
    assert (list_find (fun x => n_path x = extendPath cp part) (t ++ [nn]) =
            Some (length t, nn)) as Hnew by by apply find_middle.
    destruct (n_children nn) as [ch|] eqn:Hch.
    + edestruct (find_grows (extendPath cp part)) as (e' & Hf' & Hk);
        [exact Hg | by apply find_middle |].
      apply (Hdone _ _ Hf').
      destruct (keeps_fields _ _ Hk) as (_ & _ & _ & _ & _ & Hc).
      destruct (Hc (walk f rest (extendPath cp part) ch)) as (ch' & -> & Hg').
      { done. }
      by apply (IH _ ch).
    + edestruct (find_grows (extendPath cp part)) as (e' & Hf' & Hk);
        [eapply grows_trans; [apply walk_grows | exact Hg] | exact Hnew |].
      apply (Hdone _ _ Hf').
      destruct (keeps_fields _ _ Hk) as (_ & _ & _ & _ & Hn & _).
      rewrite (Hn Hch). by apply (IH _ (t ++ [nn])).
Qed.

(** X6. A record that is given again, anywhere later in the list, changes
    nothing: when every record of [more] occurs in [files], the tree built
    from [files ++ more] is the tree built from [files]. *)
Theorem repeated_records_change_nothing (files more : list FileRecord) :
  (forall f, f ∈ more -> f ∈ files) ->
  buildTreeFromFiles (files ++ more) = buildTreeFromFiles files.
Proof.
  unfold buildTreeFromFiles. rewrite fold_left_app.
  assert (forall f, f ∈ files ->
            forall t', grows (fold_left addFile files []) t' ->
                       addFile t' f = t') as Habs.
  { intros f Hf t' Hg.
    apply list_elem_of_split in Hf as (l1 & l2 & ->).
    rewrite fold_left_app in Hg. cbn [fold_left] in Hg.
    apply (walk_absorbed f _ [] (fold_left addFile l1 [])).
    eapply grows_trans; [apply fold_addFile_grows | exact Hg]. }
  generalize (grows_refl (fold_left addFile files [])).
  generalize (fold_left addFile files []) at 2 3 4 as t'.
  induction more as [|f more IH]; intros t' Hg Hsub; [done|].
  cbn [fold_left]. rewrite (Habs f) by (by apply Hsub; left) || done.
  apply IH; [done|]. intros g Hgm. apply Hsub. by right.
Qed.

(** ** Regular expressions, continued *)

Lemma startsWith_true s p :
  JS.startsWith s p = true -> s = p ++ drop (length p) s.
Proof.
  revert s. induction p as [|a p IH]; intros s H; [done|].
  destruct s as [|b s]; [done|]. simpl in H.
  apply andb_true_iff in H as [Hab Hs]. apply eqc_true in Hab as ->.
  simpl. f_equal. by apply IH.
Qed.

(** What a repetition returns, the rest of the pattern returned after a
    run of characters of the class. *)
Lemma many_sound {A} cls min n (s : str) (k : str -> option A) v :
  many cls min n s k = Some v ->
  exists w r, s = w ++ r /\ Forall (fun c => cls c = true) w /\
              min <= n + length w /\ k r = Some v.
Proof.
  revert n. induction s as [|c s IH]; intros n; simpl.
  - destruct (Nat.leb min n) eqn:E; [|done]. intros H. exists [], [].
    apply Nat.leb_le in E. repeat split; [constructor | simpl; lia | done].
  - assert ((if Nat.leb min n then k (c :: s) else None) = Some v ->
            exists w r, c :: s = w ++ r /\ Forall (fun c => cls c = true) w /\
                        min <= n + length w /\ k r = Some v) as Hstop.
    { destruct (Nat.leb min n) eqn:E; [|done]. intros H. exists [], (c :: s).
      apply Nat.leb_le in E. repeat split; [constructor | simpl; lia | done]. }
    destruct (cls c) eqn:Hc; [|exact Hstop].
    destruct (many cls min (S n) s k) eqn:E; [|exact Hstop].
    intros [= ->]. destruct (IH (S n) E) as (w & r & -> & Hw & Hmin & Hk).
    exists (c :: w), r. repeat split; [by constructor | simpl; lia | done].
Qed.

Lemma run_sound r : forall s caps k v,
  run r s caps k = Some v ->
  exists w rest c, s = w ++ rest /\ denotes r w rest c /\
                   k rest (caps ++ c) = Some v.
Proof.
  induction r as [p|min cls|r IH|r1 IH1 r2 IH2|]; intros s caps k v H;
    cbn [run] in H.
  - destruct (JS.startsWith s p) eqn:E; [|done].
    exists p, (drop (length p) s), []. rewrite app_nil_r.
    split; [by apply startsWith_true|]. by split.
  - apply many_sound in H as (w & rest & -> & Hw & Hmin & Hk).
    exists w, rest, []. rewrite app_nil_r. by repeat split.
  - apply IH in H as (w & rest & c & -> & Hd & Hk).
    exists w, rest, (c ++ [w]). split; [done|]. split.
    + by exists c.
    + rewrite length_app in Hk.
      replace (length w + length rest - length rest) with (length w) in Hk
        by lia.
      rewrite take_app_length in Hk. by rewrite app_assoc.
  - apply IH1 in H as (w1 & rest1 & c1 & -> & Hd1 & Hk).
    apply IH2 in Hk as (w2 & rest & c2 & -> & Hd2 & Hk).
    exists (w1 ++ w2), rest, (c1 ++ c2). split; [by rewrite app_assoc|].
    split; [|by rewrite app_assoc]. by exists w1, w2, c1, c2.
  - destruct s as [|c s]; [|done].
    exists [], [], []. rewrite (app_nil_r caps). by repeat split.
Qed.

Lemma matchStart_sound r s caps :
  matchStart r s = Some caps ->
  exists w rest, s = w ++ rest /\ denotes r w rest caps.
Proof.
  intros H. apply run_sound in H as (w & rest & c & -> & Hd & [= <-]).
  by exists w, rest.
Qed.

Lemma search_sound r s caps :
  search r s = Some caps ->
  exists pre w rest, s = pre ++ w ++ rest /\ denotes r w rest caps.
Proof.
  induction s as [|c s IH]; cbn [search].
  - destruct (matchStart r []) eqn:E; [|done]. intros [= ->].
    apply matchStart_sound in E as (w & rest & Hs & Hd).
    by exists [], w, rest.
  - destruct (matchStart r (c :: s)) eqn:E.
    + intros [= ->]. apply matchStart_sound in E as (w & rest & Hs & Hd).
      by exists [], w, rest.
    + intros H. destruct (IH H) as (pre & w & rest & -> & Hd).
      by exists (c :: pre), w, rest.
Qed.

(** ** Numerals, continued *)

Lemma isDigit_facts c :
  JS.isDigit c = true ->
  JS.isSpace c = false /\ JS.eqc c "-" = false /\ JS.eqc c "+" = false.
Proof.
  destruct c as [[] [] [] [] [] [] [] []]; vm_compute; intros H;
    try discriminate H; done.
Qed.

(** [parseInt] of a run of digits is the double of its value. *)
Lemma parseInt10_digits ds :
  ds <> [] -> Forall (fun c => JS.isDigit c = true) ds ->
  JS.parseInt10 ds = JS.double false (JS.digitsVal ds).
Proof.
  intros Hne Hd. destruct ds as [|c s]; [done|].
  pose proof Hd as Hall. apply Forall_cons in Hd as [Hc _].
  destruct (isDigit_facts c Hc) as (Hsp & Hm & Hp).
  unfold JS.parseInt10, JS.trimStart. cbn [JS.dropWhile]. rewrite Hsp, Hm, Hp.
  rewrite <- (app_nil_r (c :: s)) at 1.
  by rewrite takeWhile_all.
Qed.

(** The double of a natural number is not [NaN] and not negative. *)
Lemma isCount_double v : isCount (JS.double false v).
Proof.
  unfold JS.double. destruct (JS.nearest v) as [z|]; [left|right]; by eauto.
Qed.

Lemma isCount_nat (n : nat) : isCount (JS.Int (Z.of_nat n)).
Proof. left. exists (N.of_nat n). by rewrite nat_N_Z. Qed.

(** ** [parseTextManifest], continued *)

Ltac break_denotes H :=
  cbn [seq denotes] in H;
  repeat match goal with
         | H : ex _ |- _ => destruct H
         | H : _ /\ _ |- _ => destruct H
         end;
  subst.

(** The capture of a total line is a run of digits. *)
Lemma total_capture lit line caps :
  matchStart (seq [Lit lit; Many 0 JS.isSpace; Cap (Many 1 JS.isDigit)]) line
    = Some caps ->
  exists d, caps = [d] /\ d <> [] /\ Forall (fun c => JS.isDigit c = true) d.
Proof.
  intros H. apply matchStart_sound in H as (w & rest & _ & Hd).
  break_denotes Hd.
  match goal with
  | Hdig : Forall _ ?d, Hlen : 1 <= length ?d |- _ =>
      exists d; split; [done|]; split; [|done];
      intros ->; simpl in Hlen; lia
  end.
Qed.

(** The captures of an entry line: a path without quote characters, a run
    of digits and a text without line terminators, none of them empty. *)
Lemma entry_capture line caps :
  matchStart reFileEntry line = Some caps ->
  exists filePath size modified,
    caps = [filePath; size; modified] /\
    filePath <> [] /\ (DQUOTE ∉ filePath) /\
    size <> [] /\ Forall (fun c => JS.isDigit c = true) size /\
    modified <> [] /\
    Forall (fun c => JS.isLineTerminator c = false) modified.
Proof.
  intros H. apply matchStart_sound in H as (w & rest & _ & Hd).
  unfold reFileEntry in Hd. break_denotes Hd.
  match goal with
  | Hp : Forall (fun c => notChar DQUOTE c = true) ?p,
    Hpl : 1 <= length ?p,
    Hs : Forall (fun c => JS.isDigit c = true) ?s,
    Hsl : 1 <= length ?s,
    Hm : Forall (fun c => dot c = true) ?m,
    Hml : 1 <= length ?m |- _ =>
      exists p, s, m; split; [done|];
      split; [intros ->; simpl in Hpl; lia|];
      split;
        [intros Hin; rewrite Forall_forall in Hp; specialize (Hp _ Hin);
         unfold notChar in Hp; by rewrite eqc_refl in Hp|];
      split; [intros ->; simpl in Hsl; lia|];
      split; [done|];
      split; [intros ->; simpl in Hml; lia|];
      eapply Forall_impl; [exact Hm|]; intros c Hc; unfold dot in Hc;
      by apply negb_true_iff in Hc
  end.
Qed.

(** *** What the blocks of the loop body leave alone *)

Lemma scanSummary_fields st line :
  s_files (scanSummary st line) = s_files st /\
  inFileListing (scanSummary st line) = inFileListing st /\
  inSummary (scanSummary st line) = inSummary st /\
  s_directory (scanSummary st line) = s_directory st /\
  s_timestamp (scanSummary st line) = s_timestamp st.
Proof.
  unfold scanSummary. destruct (inSummary st && _); [|done].
  destruct (matchStart reTotalFiles line) as [[|? ?]|];
    destruct (matchStart reTotalDirectories line) as [[|? ?]|]; done.
Qed.

Lemma scanSummary_counts st line :
  isCount (s_total_files st) -> isCount (s_total_directories st) ->
  isCount (s_total_files (scanSummary st line)) /\
  isCount (s_total_directories (scanSummary st line)).
Proof.
  intros Hf Hd. unfold scanSummary. destruct (inSummary st && _); [|done].
  assert (forall lit caps,
    matchStart (seq [Lit lit; Many 0 JS.isSpace; Cap (Many 1 JS.isDigit)])
      line = Some caps ->
    exists d, caps = [d] /\ isCount (JS.parseInt10 d)) as Hcap.
  { intros lit caps H. apply total_capture in H as (d & -> & Hne & Hdig).
    exists d. split; [done|]. rewrite parseInt10_digits by done.
    apply isCount_double. }
  destruct (matchStart reTotalFiles line) as [c1|] eqn:E1;
    [apply Hcap in E1 as (d1 & -> & H1)|];
    (destruct (matchStart reTotalDirectories line) as [c2|] eqn:E2;
     [apply Hcap in E2 as (d2 & -> & H2)|]); by split.
Qed.

Lemma scanEntry_fields st line :
  s_total_files (scanEntry st line) = s_total_files st /\
  s_total_directories (scanEntry st line) = s_total_directories st /\
  inFileListing (scanEntry st line) = inFileListing st /\
  inSummary (scanEntry st line) = inSummary st /\
  s_directory (scanEntry st line) = s_directory st /\
  s_timestamp (scanEntry st line) = s_timestamp st.
Proof.
  unfold scanEntry. destruct (inFileListing st && _ && _); [|done].
  destruct (matchStart reFileEntry line) as [[|a [|b [|c [|d ?]]]]|]; done.
Qed.

Lemma scanEntry_files st line :
  s_files (scanEntry st line) = s_files st \/
  exists f, scannedRecord f /\
            s_files (scanEntry st line) = s_files st ++ [f].
Proof.
  unfold scanEntry. destruct (inFileListing st && _ && _); [|by left].
  destruct (matchStart reFileEntry line) as [caps|] eqn:E; [|by left].
  apply entry_capture in E
    as (p & s & m & -> & Hp & Hq & Hs & Hdig & Hm & Hlt).
  right. eexists. split; [|reflexivity].
  split; [done|]. split; [done|]. split; [done|].
  split; [|split]; cbn [f_size f_modified].
  - rewrite parseInt10_digits by done. apply isCount_double.
  - apply trim_idem.
  - apply Forall_forall. intros c Hc. apply trim_subset in Hc.
    rewrite Forall_forall in Hlt. by apply Hlt.
Qed.

Lemma scanEntry_outside st line :
  inFileListing st = false -> scanEntry st line = st.
Proof. intros H. unfold scanEntry. by rewrite H. Qed.

Lemma scanned_body st line :
  scanned st -> scanned (scanEntry (scanSummary st line) line).
Proof.
  intros (Hf & Hd & Hfiles).
  destruct (scanSummary_counts st line Hf Hd) as [Hf' Hd'].
  destruct (scanSummary_fields st line) as (Hfs & _). unfold scanned.
  destruct (scanEntry_fields (scanSummary st line) line) as (-> & -> & _).
  split; [done|]. split; [done|].
  destruct (scanEntry_files (scanSummary st line) line)
    as [->|(f & Hrec & ->)]; rewrite Hfs; [done|].
  apply Forall_app. split; [done|]. by constructor.
Qed.

Lemma scanned_step st line : scanned st -> scanned (scanLine st line).
Proof.
  intros H. unfold scanLine.
  destruct (JS.startsWith line "Timestamp:"); [by apply scanned_body|].
  destruct (JS.startsWith line "Directory:"); [by apply scanned_body|].
  destruct (JS.startsWith line "File Listing:"); [done|].
  destruct (JS.startsWith line "Summary:"); [done|].
  destruct (JS.startsWith line "-------------" ||
            JS.startsWith line "--------"); [done|].
  by apply scanned_body.
Qed.

Lemma scanned_fold lines : forall st,
  scanned st -> scanned (fold_left scanLine lines st).
Proof.
  induction lines as [|l ls IH]; intros st H; [done|].
  cbn [fold_left]. by apply IH, scanned_step.
Qed.

Lemma scanned_init : scanned initScan.
Proof.
  split; [apply (isCount_nat 0)|]. split; [apply (isCount_nat 0)|constructor].
Qed.

(** The totals that are returned for a state of the loop are counts. *)
Lemma scanned_totals st :
  scanned st ->
  isCount (if isZero (s_total_files st) then lengthOf (s_files st)
           else s_total_files st) /\
  isCount (if isZero (s_total_directories st) &&
              Nat.ltb 0 (length (s_files st))
           then JS.Int (Z.of_nat (size (collectDirectories (s_files st))))
           else s_total_directories st).
Proof.
  intros (Hf & Hd & _). split.
  - destruct (isZero _); [|done]. apply isCount_nat.
  - destruct (isZero _ && _); [|done]. apply isCount_nat.
Qed.

(** X7. Whatever the manifest text is, the totals that
    [parseTextManifest] returns are not [NaN] and not negative: each is a
    natural number, or [Infinity] when the numeral of the summary is out
    of the range of a double. *)
Theorem totals_are_counts (content : str) :
  isCount (total_files (parseTextManifest content)) /\
  isCount (total_directories (parseTextManifest content)).
Proof.
  unfold parseTextManifest. cbn [total_files total_directories].
  apply scanned_totals, scanned_fold, scanned_init.
Qed.

(** X8. In the tree of a parsed manifest, whatever the text is, a
    directory node has neither size nor modified value, and a file node has
    a size that is not [NaN] and not negative (a natural number, or
    [Infinity] for a numeral out of the range of a double), and a modified
    value without white space at its ends and without line terminator. *)
Theorem parsed_tree_nodes (content : str) (e : TreeNode) :
  e ∈ nodes (tree (parseTextManifest content)) ->
  match n_type e with
  | TDirectory => n_size e = None /\ n_modified e = None
  | TFile =>
      exists s m, n_size e = Some s /\ isCount s /\
                  n_modified e = Some m /\ JS.trim m = m /\
                  Forall (fun c => JS.isLineTerminator c = false) m
  end.
Proof.
  unfold parseTextManifest. cbn [tree]. intros He.
  destruct (scanned_fold (JS.split LF content) initScan scanned_init)
    as (_ & _ & Hfiles).
  set (files := s_files _) in *.
  apply (fold_addFile_nodes files [] []) in He.
  2:{ intros x Hx. by apply elem_of_nil in Hx. }
  cbn [app] in He.
  destruct He as [(-> & Hs & Hm & _)|(f & Hf & _ & Hty & Hs & Hm)]; [done|].
  rewrite Forall_forall in Hfiles.
  destruct (Hfiles f Hf) as (Hft & _ & _ & Hc & Ht & Hlt).
  rewrite Hty, Hft. by exists (f_size f), (f_modified f).
Qed.

(** *** Outside the listing *)

Lemma scanLine_outside st line :
  JS.startsWith line "File Listing:" = false ->
  inFileListing st = false ->
  inFileListing (scanLine st line) = false /\
  s_files (scanLine st line) = s_files st.
Proof.
  intros Hl Hf.
  assert (forall st', inFileListing st' = false -> s_files st' = s_files st ->
    inFileListing (scanEntry (scanSummary st' line) line) = false /\
    s_files (scanEntry (scanSummary st' line) line) = s_files st) as Hbody.
  { intros st' Hf' Hfs.
    destruct (scanSummary_fields st' line) as (H1 & H2 & _).
    rewrite scanEntry_outside by congruence. split; congruence. }
  unfold scanLine.
  destruct (JS.startsWith line "Timestamp:"); [by apply Hbody|].
  destruct (JS.startsWith line "Directory:"); [by apply Hbody|].
  rewrite Hl.
  destruct (JS.startsWith line "Summary:"); [done|].
  destruct (JS.startsWith line "-------------" ||
            JS.startsWith line "--------"); [done|].
  by apply Hbody.
Qed.

Lemma scan_outside lines : forall st,
  Forall (fun l => JS.startsWith l "File Listing:" = false) lines ->
  inFileListing st = false ->
  s_files (fold_left scanLine lines st) = s_files st.
Proof.
  induction lines as [|l ls IH]; intros st Hall Hf; [done|].
  apply Forall_cons in Hall as [Hl Hls]. cbn [fold_left].
  destruct (scanLine_outside st l Hl Hf) as [Hf' Hfs].
  by rewrite IH.
Qed.

(** X9. A manifest text without a line that starts with [File Listing:]
    gives an empty tree: entry lines outside the listing are not read. *)
Theorem no_listing_no_tree (content : str) :
  Forall (fun l => JS.startsWith l "File Listing:" = false)
         (JS.split LF content) ->
  tree (parseTextManifest content) = [].
Proof.
  intros H. unfold parseTextManifest. cbn [tree].
  by rewrite (scan_outside _ initScan H eq_refl).
Qed.

(** *** A manifest read back *)

Lemma dropWhile_app_all p w s :
  Forall (fun c => p c = true) w -> JS.dropWhile p (w ++ s) = JS.dropWhile p s.
Proof. induction 1 as [|c w Hc _ IH]; [done|]. simpl. by rewrite Hc. Qed.

Lemma trim_spaces w s :
  Forall (fun c => JS.isSpace c = true) w -> JS.trim (w ++ s) = JS.trim s.
Proof.
  intros H. unfold JS.trim, JS.trimStart. by rewrite dropWhile_app_all.
Qed.

(** [\s+(.+)$] on a blank followed by a text without line terminators:
    what is captured is the text, up to white space at its start. *)
Lemma run_modified_tail_trim (tail : str) caps :
  tail <> [] ->
  Forall (fun c => JS.isLineTerminator c = false) tail ->
  exists modified,
    run (seq [Many 1 JS.isSpace; Cap (Many 1 dot); Eos]) (" "%char :: tail)
      caps (fun _ caps' => Some caps') = Some (caps ++ [modified]) /\
    JS.trim modified = JS.trim tail.
Proof.
  intros Hne Hlt.
  destruct (run_modified_tail tail caps Hne Hlt) as [modified Hm].
  exists modified. split; [done|].
  apply run_sound in Hm as (w & rest & c & Hs & Hd & [= Hc]).
  break_denotes Hd. apply app_inv_head in Hc.
  rewrite !app_nil_l, !app_nil_r in *.
  apply (inj (fun x => [x])) in Hc. subst.
  match goal with
  | Hsp : Forall (fun c => JS.isSpace c = true) ?ws |- _ =>
      rewrite <- (trim_spaces ws) by done
  end.
  rewrite <- Hs. by apply (trim_spaces [" "%char]); repeat constructor.
Qed.

Lemma match_entry_trim e :
  wellFormedEntry e ->
  exists modified,
    matchStart reFileEntry (entryLine e) =
      Some [e_path e; JS.showN (e_bytes e); modified] /\
    JS.trim modified = JS.trim (e_modified e).
Proof.
  intros (Hrel & Hq & Hlf & Hne & Hlt).
  destruct (run_modified_tail_trim (e_modified e)
              [e_path e; JS.showN (e_bytes e)] Hne Hlt)
    as (modified & Hm & Htrim).
  exists modified. split; [|done].
  unfold matchStart, reFileEntry, entryLine. cbn [seq].
  apply run_cat. eapply (run_lit [DQUOTE]); [reflexivity|].
  apply run_cat. eapply (run_cap_many _ _ _ (e_path e)); [reflexivity | | | |].
  { apply Forall_forall. intros c Hc. unfold notChar.
    apply negb_true_iff, eqc_false. intros ->. by apply Hq, list_elem_of_In. }
  { reflexivity. }
  { destruct (e_path e); [done|]. simpl. lia. }
  apply run_cat. eapply (run_lit [DQUOTE]); [reflexivity|].
  apply run_cat. eapply (run_many _ _ _ [" "%char]);
    [reflexivity | by repeat constructor | reflexivity | simpl; lia |].
  apply run_cat. eapply (run_lit "("); [reflexivity|].
  apply run_cat.
  eapply (run_cap_many _ _ _ (JS.showN (e_bytes e)));
    [reflexivity | apply showN_isDigit | reflexivity | |].
  { pose proof (showN_not_nil (e_bytes e)).
    destruct (JS.showN (e_bytes e)); simpl; [done|lia]. }
  apply run_cat. eapply (run_many _ _ _ [" "%char]);
    [reflexivity | by repeat constructor | reflexivity | simpl; lia |].
  apply run_cat. eapply (run_lit "bytes)"); [reflexivity|].
  apply run_cat. eapply (run_many _ _ _ [" "%char]);
    [reflexivity | by repeat constructor | reflexivity | simpl; lia |].
  apply run_cat. eapply (run_lit "-"); [reflexivity|].
  apply run_cat. eapply (run_many _ _ _ [" "%char]);
    [reflexivity | by repeat constructor | reflexivity | simpl; lia |].
  apply run_cat. eapply (run_lit "Modified:"); [reflexivity|].
  exact Hm.
Qed.

Lemma scanLine_entry_exact st e :
  wellFormedEntry e -> inFileListing st = true -> inSummary st = false ->
  scanLine st (entryLine e) = pushFile st (recordOf e).
Proof.
  intros Hwf Hf Hs. destruct (match_entry_trim e Hwf) as (modified & Hm & Ht).
  unfold scanLine.
  assert (JS.startsWith (entryLine e) "Timestamp:" = false) as -> by reflexivity.
  assert (JS.startsWith (entryLine e) "Directory:" = false) as -> by reflexivity.
  assert (JS.startsWith (entryLine e) "File Listing:" = false) as -> by reflexivity.
  assert (JS.startsWith (entryLine e) "Summary:" = false) as Hsum by reflexivity.
  rewrite Hsum.
  assert (JS.startsWith (entryLine e) "-------------" = false) as -> by reflexivity.
  assert (JS.startsWith (entryLine e) "--------" = false) as -> by reflexivity.
  cbn [orb]. unfold scanSummary. rewrite Hs. cbn [andb].
  unfold scanEntry. rewrite Hf, Hsum.
  destruct (trim_cons DQUOTE
              (e_path e ++ DQUOTE :: " (" ++ JS.showN (e_bytes e) ++
               " bytes) - Modified: " ++ e_modified e) eq_refl) as [t Htr].
  change (JS.trim (entryLine e)) with
    (JS.trim (DQUOTE :: e_path e ++ DQUOTE :: " (" ++ JS.showN (e_bytes e) ++
               " bytes) - Modified: " ++ e_modified e)).
  rewrite Htr. cbn [JS.truthy andb negb]. rewrite Hm.
  unfold recordOf. by rewrite parseInt10_showN, Ht.
Qed.

Lemma scan_entries_exact es : forall st,
  Forall wellFormedEntry es ->
  inFileListing st = true -> inSummary st = false ->
  s_files (fold_left scanLine (map entryLine es) st) =
  s_files st ++ map recordOf es.
Proof.
  induction es as [|e es IH]; intros st Hall Hf Hs.
  - simpl. by rewrite app_nil_r.
  - apply Forall_cons in Hall as [He Hes]. cbn [map fold_left].
    rewrite (scanLine_entry_exact st e He Hf Hs), IH by done.
    cbn [pushFile s_files]. by rewrite <- app_assoc.
Qed.

(** The header fields: a line that starts with [Timestamp:] sets the
    timestamp, a line that starts with [Directory:] and not with
    [Timestamp:] sets the directory, and no other line touches them. *)
Lemma scanLine_header st l :
  s_timestamp (scanLine st l) =
    (if JS.startsWith l "Timestamp:"
     then Some (JS.trim (JS.replace l "Timestamp:" ""))
     else s_timestamp st) /\
  s_directory (scanLine st l) =
    (if JS.startsWith l "Timestamp:" then s_directory st
     else if JS.startsWith l "Directory:"
          then Some (JS.trim (JS.replace l "Directory:" ""))
          else s_directory st).
Proof.
  assert (forall st',
    s_timestamp (scanEntry (scanSummary st' l) l) = s_timestamp st' /\
    s_directory (scanEntry (scanSummary st' l) l) = s_directory st') as Hbody.
  { intros st'.
    destruct (scanEntry_fields (scanSummary st' l) l)
      as (_ & _ & _ & _ & -> & ->).
    by destruct (scanSummary_fields st' l) as (_ & _ & _ & -> & ->). }
  unfold scanLine.
  destruct (JS.startsWith l "Timestamp:").
  { by destruct (Hbody (setTimestamp st
                          (JS.trim (JS.replace l "Timestamp:" ""))))
      as [-> ->]. }
  destruct (JS.startsWith l "Directory:").
  { by destruct (Hbody (setDirectory st
                          (JS.trim (JS.replace l "Directory:" ""))))
      as [-> ->]. }
  destruct (JS.startsWith l "File Listing:"); [done|].
  destruct (JS.startsWith l "Summary:"); [done|].
  destruct (JS.startsWith l "-------------" || JS.startsWith l "--------");
    [done|].
  apply Hbody.
Qed.

Lemma scan_header_kept ls : forall st,
  Forall (fun l => JS.startsWith l "Timestamp:" = false /\
                   JS.startsWith l "Directory:" = false) ls ->
  s_timestamp (fold_left scanLine ls st) = s_timestamp st /\
  s_directory (fold_left scanLine ls st) = s_directory st.
Proof.
  induction ls as [|l ls IH]; intros st Hall; [done|].
  apply Forall_cons in Hall as [[Ht Hd] Hls]. cbn [fold_left].
  destruct (IH (scanLine st l) Hls) as [-> ->].
  destruct (scanLine_header st l) as [-> ->]. by rewrite Ht, Hd.
Qed.

(** X10. A well-formed manifest whose header lines do not start with
    [Timestamp:] or [Directory:] is read back as it was written: the
    timestamp and the directory are those of the header, without white
    space at their ends, and the tree is the tree of the listed entries,
    each with its path, its modified value without white space at its
    ends, and as size the number that [parseInt] reads from its byte
    count. With byte counts of at most [2^53] the sizes are the byte
    counts; a larger one is read as the nearest double. *)
Theorem manifest_round_trip (m : Manifest) :
  wellFormedManifest m ->
  Forall (fun l => JS.startsWith l "Timestamp:" = false /\
                   JS.startsWith l "Directory:" = false) (m_header m) ->
  let result := parseTextManifest (manifestText m) in
  timestamp result = Some (JS.trim (m_timestamp m)) /\
  directory result = Some (JS.trim (m_directory m)) /\
  tree result = buildTreeFromFiles (map recordOf (m_entries m)) /\
  (Forall (fun e => (e_bytes e <= 2 ^ 53)%N) (m_entries m) ->
   tree result =
     buildTreeFromFiles
       (map (fun e => mkFile (e_path e) TFile (JS.Int (Z.of_N (e_bytes e)))
                        (JS.trim (e_modified e)))
            (m_entries m))).
Proof.
  intros Hwf Hhead result.
  cut (timestamp result = Some (JS.trim (m_timestamp m)) /\
       directory result = Some (JS.trim (m_directory m)) /\
       tree result = buildTreeFromFiles (map recordOf (m_entries m))).
  { intros (Ht & Hd & Htree). split; [done|]. split; [done|].
    split; [done|]. intros Hsafe. rewrite Htree. f_equal.
    apply map_ext_Forall. eapply Forall_impl; [exact Hsafe|].
    intros e Hle. unfold recordOf. by rewrite (double_exact false _ Hle). }
  pose proof Hwf as (Hb & Hts & Hdir & Hh & He).
  subst result. unfold parseTextManifest, manifestText.
  rewrite split_joinLines.
  2:{ unfold manifestLines. by destruct (m_banner m). }
  2:{ by apply lines_no_LF. }
  cbn [timestamp directory tree].
  set (final := if m_finalNewline m then [[]] else []).
  assert (forall st, fold_left scanLine final st = st) as Hfinal.
  { intros st. unfold final. destruct (m_finalNewline m); [|done].
    apply scanLine_blank. }
  rewrite fold_left_app, Hfinal.
  unfold manifestLines. rewrite !fold_left_app.
  set (st1 := fold_left scanLine (m_banner m) initScan).
  set (st2 := fold_left scanLine _ st1).
  set (st3 := fold_left scanLine (m_header m) st2).
  set (st4 := fold_left scanLine _ st3).
  set (st5 := fold_left scanLine (map entryLine (m_entries m)) st4).
  (* the header fields *)
  assert (s_timestamp st2 = Some (JS.trim (m_timestamp m)) /\
          s_directory st2 = Some (JS.trim (m_directory m))) as [Ht2 Hd2].
  { unfold st2. cbn [fold_left].
    destruct (scanLine_header (scanLine st1 ("Timestamp: " ++ m_timestamp m))
                ("Directory: " ++ m_directory m)) as [-> ->].
    destruct (scanLine_header st1 ("Timestamp: " ++ m_timestamp m))
      as [-> _].
    split.
    - change (JS.startsWith ("Directory: " ++ m_directory m) "Timestamp:")
        with false.
      change (JS.startsWith ("Timestamp: " ++ m_timestamp m) "Timestamp:")
        with true.
      cbv iota.
      change (JS.replace ("Timestamp: " ++ m_timestamp m) "Timestamp:" "")
        with ([" "%char] ++ m_timestamp m).
      reflexivity.
    - change (JS.startsWith ("Directory: " ++ m_directory m) "Timestamp:")
        with false.
      change (JS.startsWith ("Directory: " ++ m_directory m) "Directory:")
        with true.
      cbv iota.
      change (JS.replace ("Directory: " ++ m_directory m) "Directory:" "")
        with ([" "%char] ++ m_directory m).
      reflexivity. }
  assert (forall st, s_timestamp (fold_left scanLine
                       (summaryLines (m_summary m)) st) = s_timestamp st /\
                     s_directory (fold_left scanLine
                       (summaryLines (m_summary m)) st) = s_directory st)
    as Hsum.
  { intros st. apply scan_header_kept.
    destruct (m_summary m) as [[nf nd]|]; repeat constructor. }
  assert (s_timestamp st5 = s_timestamp st2 /\
          s_directory st5 = s_directory st2) as [Ht5 Hd5].
  { unfold st5.
    destruct (scan_header_kept (map entryLine (m_entries m)) st4) as [-> ->].
    { apply Forall_map, Forall_forall. by intros e _. }
    destruct (scan_header_kept
                [ "File Listing:" : str; "-------------" : str ] st3)
      as [Ha Hb']; [by repeat constructor|].
    fold st4 in Ha, Hb'. rewrite Ha, Hb'.
    by apply scan_header_kept. }
  destruct (Hsum st5) as [-> ->]. rewrite Ht5, Hd5.
  split; [done|]. split; [done|]. f_equal.
  (* the file records *)
  assert (scanCore st1 = (JS.Int 0, JS.Int 0, [], false, false)) as H1.
  { by apply (scan_plain (m_banner m) initScan). }
  assert (scanCore st2 = (JS.Int 0, JS.Int 0, [], false, false)) as H2.
  { rewrite <- H1. apply scanCore_inv in H1 as (_ & _ & _ & Hf & Hs).
    apply scan_plain; [|done..]. repeat constructor.
    - by apply timestamp_line_plain.
    - by apply directory_line_plain. }
  assert (scanCore st3 = (JS.Int 0, JS.Int 0, [], false, false)) as H3.
  { rewrite <- H2. apply scanCore_inv in H2 as (_ & _ & _ & Hf & Hs).
    by apply scan_plain. }
  assert (scanCore st4 = (JS.Int 0, JS.Int 0, [], true, false)) as H4.
  { unfold st4. rewrite scan_listing_header.
    apply scanCore_inv in H3 as (-> & -> & -> & _ & _). done. }
  apply scanCore_inv in H4 as (_ & _ & Hfs & Hfl & Hsm).
  assert (s_files st5 = map recordOf (m_entries m)) as H5.
  { unfold st5. rewrite scan_entries_exact by done. by rewrite Hfs. }
  destruct (m_summary m) as [[nf nd]|]; [|done].
  pose proof (scan_summary st5 nf nd) as H6.
  by apply scanCore_inv in H6 as (_ & _ & -> & _ & _).
Qed.

(** ** The change log, continued *)

Lemma search_matchStart r s caps :
  matchStart r s = Some caps -> search r s = Some caps.
Proof. intros H. destruct s; simpl; by rewrite H. Qed.

Lemma matchChange_changeLine c :
  wellFormedChange c -> matchChange (changeLine c) = Some c.
Proof.
  intros (Hts & Hb & Hf & Hlt). unfold matchChange.
  rewrite (search_matchStart _ _ [rc_timestamp c; rc_file c]);
    [by destruct c|].
  unfold matchStart, reChange, changeLine. cbn [seq].
  apply run_cat. eapply (run_lit "["); [reflexivity|].
  apply run_cat.
  eapply (run_cap_many _ _ _ (rc_timestamp c)); [reflexivity | | | |].
  { apply Forall_forall. intros x Hx. unfold notChar.
    apply negb_true_iff, eqc_false. by intros ->. }
  { reflexivity. }
  { destruct (rc_timestamp c); [done|]. simpl. lia. }
  apply run_cat.
  eapply (run_lit "][fswatch] Change detected: "); [reflexivity|].
  eapply (run_cap_many _ _ _ (rc_file c) []);
    [by rewrite app_nil_r | | done | | reflexivity].
  - eapply Forall_impl; [exact Hlt|]. intros x Hx. unfold dot.
    by rewrite Hx.
  - destruct (rc_file c); [done|]. simpl. lia.
Qed.

Lemma omap_matchChange cs :
  Forall wellFormedChange cs -> omap matchChange (map changeLine cs) = cs.
Proof.
  induction 1 as [|c cs Hc _ IH]; [done|].
  cbn [map]. unfold omap in *. cbn [list_omap].
  by rewrite (matchChange_changeLine c Hc), IH.
Qed.

Lemma sliceLast_map {A B} (f : A -> B) k l :
  JS.sliceLast k (map f l) = map f (JS.sliceLast k l).
Proof. unfold JS.sliceLast. by rewrite length_map, skipn_map. Qed.

Lemma sliceLast_Forall {A} (P : A -> Prop) k l :
  Forall P l -> Forall P (JS.sliceLast k l).
Proof. intros H. unfold JS.sliceLast. by apply Forall_drop. Qed.

(** X11. A log whose change lines are written by the monitor, with any
    other lines in between, is read back: the changes returned are the
    last five changes of the log, the latest first, each with its
    timestamp and its file name. *)
Theorem change_log_round_trip (lines : list str) (cs : list RecentChange) :
  lines <> [] -> Forall (fun l => LF ∉ l) lines ->
  Forall wellFormedChange cs ->
  List.filter isChangeLine lines = map changeLine cs ->
  extractChanges (joinLines lines) = rev (JS.sliceLast 5 cs).
Proof.
  intros Hne Hlf Hwf Hlines. unfold extractChanges.
  rewrite split_joinLines by done.
  rewrite Hlines, sliceLast_map, omap_matchChange; [done|].
  by apply sliceLast_Forall.
Qed.

(** X12. Every change that [extractChanges] returns is read from a line
    of the log that contains the change line of that change; its timestamp
    is not empty and has no closing bracket, its file name is not empty and
    has no line terminator. *)
Theorem extracted_changes (logContent : str) (c : RecentChange) :
  c ∈ extractChanges logContent ->
  wellFormedChange c /\
  exists line pre post,
    line ∈ JS.split LF logContent /\ isChangeLine line = true /\
    line = pre ++ changeLine c ++ post.
Proof.
  unfold extractChanges. intros Hc.
  apply list_elem_of_In, in_rev, list_elem_of_In in Hc.
  apply list_elem_of_omap in Hc as (line & Hline & Hm).
  unfold JS.sliceLast in Hline. apply subseteq_drop in Hline.
  apply list_elem_of_In, filter_In in Hline as [Hin Hcl].
  unfold matchChange in Hm.
  destruct (search reChange line) as [caps|] eqn:E; [|done].
  apply search_sound in E as (pre & w & rest & -> & Hd).
  unfold reChange in Hd. break_denotes Hd.
  cbn [app] in Hm. injection Hm as <-.
  unfold wellFormedChange, changeLine. cbn [rc_timestamp rc_file].
  match goal with
  | Hts : Forall (fun c => notChar _ c = true) ?ts,
    Htl : 1 <= length ?ts,
    Hf : Forall (fun c => dot c = true) ?f,
    Hfl : 1 <= length ?f |- _ =>
      split;
        [split; [intros ->; simpl in Htl; lia|];
         split;
           [intros Hx; rewrite Forall_forall in Hts; specialize (Hts _ Hx);
            unfold notChar in Hts; by rewrite eqc_refl in Hts|];
         split; [intros ->; simpl in Hfl; lia|];
         eapply Forall_impl; [exact Hf|]; intros x Hx; unfold dot in Hx;
         by apply negb_true_iff in Hx
        |exists (pre ++ ("[" ++ ts ++
                   "][fswatch] Change detected: " ++ f) ++ rest), pre, rest;
         split; [by apply list_elem_of_In|]; by split]
  end.
Qed.

Section ChangesProperties.

Variable decodeURIComponent : str -> str + str.
Variable path_join : str -> str -> str.
Variable path_basename : str -> str.
Variable toISOString : N -> str.
Variable MONITOR_DIR : str.
Variable w : World.

(** When every directory of the list is there, every [stat] succeeds. *)
Lemma mapM_stat_ok (dir : str) (ds : list str) (log : list Event) :
  (forall d, d ∈ ds -> is_Some (fs w !! path_join dir d)) ->
  exists l,
    mapM (fun d => t ← fs_stat w (path_join dir d); mret (d, t)) ds log =
      (inl l, log) /\
    map fst l = ds /\
    forall d t, (d, t) ∈ l ->
      exists en, fs w !! path_join dir d = Some en /\ entryMtime en = t.
Proof.
  induction ds as [|d ds IH]; intros Hall.
  - exists nil. split; [done|]. split; [done|].
    intros d t H. by apply elem_of_nil in H.
  - set (f := fun d => t ← fs_stat w (path_join dir d); mret (d, t)) in *.
    destruct (Hall d) as [en Hen]; [by left|].
    assert (f d log = (inl (d, entryMtime en), log)) as Hf.
    { unfold f, mbind, M_bind, fs_stat. by rewrite Hen. }
    cbn [mapM]. rewrite bind_run, Hf, bind_run.
    destruct IH as (l & Hl & Hfst & Hin).
    { intros d' Hd'. apply Hall. by right. }
    exists ((d, entryMtime en) :: l). rewrite Hl.
    split; [done|]. split; [simpl; by rewrite Hfst|].
    intros d' t' H. apply elem_of_cons in H as [[= -> ->]|H].
    + by exists en.
    + by apply Hin.
Qed.

(** The log that is read: the first file with a name on [.log] in the
    matching log directory that was modified after all the others. *)
Lemma readRecentChanges_selected watchPath log logDirs t0 latestDir logFiles
    t1 logFile content t2 :
  let logsDir := path_join MONITOR_DIR "logs" in
  fs w !! logsDir = Some (Dir logDirs t0) ->
  latestDir ∈ logDirs ->
  matchesLogDir (path_basename watchPath) latestDir = true ->
  fs w !! path_join logsDir latestDir = Some (Dir logFiles t1) ->
  (forall d, d ∈ logDirs ->
     matchesLogDir (path_basename watchPath) d = true -> d <> latestDir ->
     exists e, fs w !! path_join logsDir d = Some e /\
               (entryMtime e < t1)%N) ->
  List.find (fun f => JS.endsWith f ".log") logFiles = Some logFile ->
  fs w !! path_join (path_join logsDir latestDir) logFile =
    Some (File content t2) ->
  readRecentChanges path_join path_basename MONITOR_DIR w watchPath log =
    (inl (extractChanges content), log).
Proof.
  intros logsDir Hlogs Hlatest Hmatch Hdir Hothers Hfind Hfile.
  unfold readRecentChanges. fold logsDir.
  rewrite bind_run. unfold fs_readdir. rewrite Hlogs, ret_run.
  set (matching :=
         List.filter (matchesLogDir (path_basename watchPath)) logDirs).
  assert (forall d, d ∈ matching <->
            d ∈ logDirs /\ matchesLogDir (path_basename watchPath) d = true)
    as Hmem.
  { intros d. unfold matching. rewrite !list_elem_of_In. apply filter_In. }
  assert (latestDir ∈ matching) as Hlm by by apply Hmem.
  destruct matching as [|m0 ms] eqn:Hm; [by apply elem_of_nil in Hlm|].
  cbn [length Nat.ltb Nat.leb]. rewrite bind_run.
  destruct (mapM_stat_ok logsDir (m0 :: ms) log) as (l & Hl & Hfst & Hin).
  { intros d Hd. apply Hmem in Hd as [Hd1 Hd2].
    destruct (decide (d = latestDir)) as [->|Hne]; [by eexists|].
    destruct (Hothers d Hd1 Hd2 Hne) as (e & He & _). by eexists. }
  rewrite Hl.
  assert (l <> []) as Hne by (by destruct l).
  destruct (sortStable_head l Hne) as ([ld tl] & rest & Hs & Hlat & Hmax).
  rewrite Hs.
  assert ((latestDir, t1) ∈ l) as Hl1.
  { assert (latestDir ∈ map fst l) as Hmap by by rewrite Hfst.
    apply list_elem_of_fmap in Hmap as ([d t] & Heq & Hdt).
    simpl in Heq. subst d.
    destruct (Hin _ _ Hdt) as (en & Hen & Ht).
    rewrite Hdir in Hen. injection Hen as <-. simpl in Ht. by subst t. }
  assert (ld = latestDir /\ tl = t1) as [-> ->].
  { pose proof (Hmax _ Hl1) as Hle. simpl in Hle.
    destruct (Hin _ _ Hlat) as (en & Hen & Ht).
    destruct (decide (ld = latestDir)) as [->|Hdiff].
    - rewrite Hdir in Hen. injection Hen as <-. by simpl in Ht.
    - exfalso.
      assert (ld ∈ m0 :: ms) as Hld.
      { rewrite <- Hfst. apply list_elem_of_fmap. by exists (ld, tl). }
      apply Hmem in Hld as [Hld1 Hld2].
      destruct (Hothers ld Hld1 Hld2 Hdiff) as (e & He & Hlt).
      rewrite Hen in He. injection He as <-. lia. }
  rewrite bind_run, Hdir, ret_run, Hfind.
  rewrite bind_run. unfold fs_readFile. rewrite Hfile.
  by rewrite !ret_run.
Qed.

(** C8. The changes query always answers with status 200 and at most five
    entries, without doing anything to the outside. The entries are empty,
    or they come from the log file of the matching log directory that was
    modified last: they are the matches of the last five change lines of
    that log, latest first (reversed, they are the trailing part of all
    matched change lines). Without a logs directory, without a matching
    log directory, or without a log file the entries are empty. With a
    matching log directory that was modified after every other one and a
    first log file in it, the entries are those of that file; and when its
    change lines are those of the changes [cs], as the monitor writes them,
    the entries are the last five of [cs], the latest first. *)
Theorem recent_changes_bounded (param decoded : str) (log : list Event) :
  decodeURIComponent param = inl decoded ->
  let watchPath := absolute decoded in
  let logsDir := path_join MONITOR_DIR "logs" in
  exists changes lastModified,
    getChanges decodeURIComponent path_join path_basename toISOString
      MONITOR_DIR w param log =
      (inl (Reply 200 (inl (mkChangesBody changes lastModified))), log) /\
    length changes <= 5 /\
    (changes = [] \/
     exists content,
       SelectedLog path_join path_basename MONITOR_DIR w watchPath content /\
       changes = extractChanges content /\
       exists older,
         omap matchChange (List.filter isChangeLine (JS.split LF content)) =
         older ++ rev changes) /\
    (fs w !! logsDir = None -> changes = []) /\
    (forall logDirs t0,
       fs w !! logsDir = Some (Dir logDirs t0) ->
       (forall d, d ∈ logDirs ->
          matchesLogDir (path_basename watchPath) d = false) ->
       changes = []) /\
    (forall logDirs t0,
       fs w !! logsDir = Some (Dir logDirs t0) ->
       (forall d names t f, d ∈ logDirs ->
          fs w !! path_join logsDir d = Some (Dir names t) ->
          f ∈ names -> JS.endsWith f ".log" = false) ->
       changes = []) /\
    (forall logDirs t0 latestDir logFiles t1 logFile content t2,
       fs w !! logsDir = Some (Dir logDirs t0) ->
       latestDir ∈ logDirs ->
       matchesLogDir (path_basename watchPath) latestDir = true ->
       fs w !! path_join logsDir latestDir = Some (Dir logFiles t1) ->
       (forall d, d ∈ logDirs ->
          matchesLogDir (path_basename watchPath) d = true ->
          d <> latestDir ->
          exists e, fs w !! path_join logsDir d = Some e /\
                    (entryMtime e < t1)%N) ->
       List.find (fun f => JS.endsWith f ".log") logFiles = Some logFile ->
       fs w !! path_join (path_join logsDir latestDir) logFile =
         Some (File content t2) ->
       changes = extractChanges content /\
       forall lines cs,
         content = joinLines lines -> lines <> [] ->
         Forall (fun l => LF ∉ l) lines ->
         Forall wellFormedChange cs ->
         List.filter isChangeLine lines = map changeLine cs ->
         changes = rev (JS.sliceLast 5 cs)).
Proof.
  intros Hd watchPath logsDir.
  destruct (readRecentChanges_run path_join path_basename MONITOR_DIR w
              watchPath log) as (r & Hrun & Hr).
  assert (exists changes,
    tryCatch (readRecentChanges path_join path_basename MONITOR_DIR w watchPath)
      (fun _ => mret []) log = (inl changes, log) /\
    (changes = [] \/
     exists content,
       SelectedLog path_join path_basename MONITOR_DIR w watchPath content /\ changes = extractChanges content))
    as (changes & Htry & Hch).
  { unfold tryCatch. rewrite Hrun. destruct r as [changes|e].
    - by exists changes.
    - exists nil. split; [done|]. by left. }
  assert (exists lastModified,
    manifestMtime path_join toISOString w watchPath log =
      (inl lastModified, log)) as [lastModified Hmt].
  { unfold manifestMtime, tryCatch, mbind, M_bind, fs_stat.
    destruct (fs w !! path_join watchPath ".lhi_manifest"); by eexists. }
  exists changes, lastModified. split.
  { unfold getChanges. unfold tryCatch at 1. unfold mbind, M_bind.
    rewrite (normalizePathParam_ok _ _ _ _ Hd). fold watchPath.
    rewrite Htry, Hmt. reflexivity. }
  split.
  { destruct Hch as [->|(content & _ & ->)]; [simpl; lia|].
    apply extractChanges_length. }
  split.
  { destruct Hch as [->|(content & Hsel & ->)]; [by left|]. right.
    exists content. split; [done|]. split; [done|].
    apply extractChanges_suffix. }
  split; [|split; [|split]].
  - intros Hnone. destruct Hch as [->|(content & Hsel & _)]; [done|].
    destruct Hsel as (? & ? & ? & ? & ? & ? & ? & Hl & _).
    fold logsDir in Hl. congruence.
  - intros logDirs t0 Hdir Hno.
    destruct Hch as [->|(content & Hsel & _)]; [done|].
    destruct Hsel as (lds & ? & ld & ? & ? & ? & ? & Hl & Hin & Hmatch & _).
    fold logsDir in Hl. rewrite Hdir in Hl. injection Hl as <- <-.
    rewrite (Hno ld Hin) in Hmatch. done.
  - intros logDirs t0 Hdir Hno.
    destruct Hch as [->|(content & Hsel & _)]; [done|].
    destruct Hsel as (lds & ? & ld & lfs & t1 & lf & ? & Hl & Hin & _ & Hld
                      & _ & Hlf & Hend & _).
    fold logsDir in Hl, Hld. rewrite Hdir in Hl. injection Hl as <- <-.
    rewrite (Hno ld lfs t1 lf Hin Hld Hlf) in Hend. done.
  - intros logDirs t0 latestDir logFiles t1 logFile content t2
      Hlogs Hlatest Hmatch Hdir Hothers Hfind Hfile.
    assert (changes = extractChanges content) as ->.
    { pose proof (readRecentChanges_selected watchPath log logDirs t0
                    latestDir logFiles t1 logFile content t2
                    Hlogs Hlatest Hmatch Hdir Hothers Hfind Hfile) as Hsel.
      unfold tryCatch in Htry. rewrite Hsel in Htry. by injection Htry. }
    split; [done|].
    intros lines cs -> Hne Hlf Hwf Hlines. unfold extractChanges.
    rewrite split_joinLines by done.
    rewrite Hlines, sliceLast_map, omap_matchChange; [done|].
    by apply sliceLast_Forall.
Qed.

End ChangesProperties.

Lemma recent_changes_bounded_witness :
  exists lastModified,
    getChanges inl (fun a b => a ++ SLASH :: b) (fun p => drop 1 p) JS.showN
      "/opt/monitor" exampleWorld "w" [] =
      (inl (Reply 200 (inl (mkChangesBody
              [mkChange "t2" "b.txt"; mkChange "t1" "a.txt"]
              lastModified))), []).
Proof.
  destruct (recent_changes_bounded inl (fun a b => a ++ SLASH :: b)
              (fun p => drop 1 p) JS.showN "/opt/monitor" exampleWorld
              "w" "w" [] eq_refl)
    as (changes & lastModified & Hrun & _ & _ & _ & _ & _ & Hread).
  exists lastModified.
  destruct (Hread [ "ldm_w_1" : str; "ldm_w_2" : str; "other" : str ] 1%N
              "ldm_w_2" [ "notes.txt" : str; "monitor.log" : str ] 20%N
              "monitor.log"
              ("[t1][fswatch] Change detected: a.txt" ++ LF ::
               "[t2][fswatch] Change detected: b.txt") 30%N)
    as [_ Hlast].
  - reflexivity.
  - compute_done.
  - reflexivity.
  - reflexivity.
  - intros d Hd Hm Hne.
    apply elem_of_cons in Hd as [->|Hd].
    { eexists. split; [reflexivity|]. simpl. lia. }
    apply elem_of_cons in Hd as [->|Hd]; [done|].
    apply list_elem_of_singleton in Hd as ->. discriminate Hm.
  - reflexivity.
  - reflexivity.
  - rewrite Hrun.
    rewrite (Hlast [ "[t1][fswatch] Change detected: a.txt" : str;
                     "[t2][fswatch] Change detected: b.txt" : str ]
                   [mkChange "t1" "a.txt"; mkChange "t2" "b.txt"]).
    + reflexivity.
    + reflexivity.
    + discriminate.
    + repeat constructor; compute_done.
    + repeat constructor; try discriminate; compute_done.
    + reflexivity.
Defined.

(** ** Request handlers, continued *)

Lemma orZero_count n : isCount n -> orZero n = n.
Proof. by intros [[k ->]| ->]. Qed.

Section HandlerProperties.

Variable decodeURIComponent : str -> str + str.
Variable path_join : str -> str -> str.
Variable path_basename : str -> str.
Variable toISOString : N -> str.
Variable MONITOR_DIR : str.
Variable w : World.

Lemma tryCatch_replies {A} (m : M A) (h : str -> A) log :
  exists r log', tryCatch m (fun e => mret (h e)) log = (inl r, log').
Proof.
  unfold tryCatch. destruct (m log) as [[a|e] log']; by eexists _, _.
Qed.

Lemma normalizePathParam_fails param e log :
  decodeURIComponent param = inr e ->
  normalizePathParam decodeURIComponent param log = (inr e, log).
Proof. intros H. unfold normalizePathParam. by rewrite H. Qed.

(** X13. The manifest, excludes, changes, stop, registry add and registry
    remove handlers, which start no process, always reply, whatever the
    request, the file system and the commands do: their outer [catch]
    sends a reply. The status handler decodes the parameter again in its
    [catch]: it replies exactly when the parameter can be decoded, and
    otherwise the error escapes the handler and no reply is sent. (The
    start handler is not among them: its reply also depends on the launch
    of the child, which the model does not follow.) *)
Theorem handlers_reply (param : str) (directory : option str)
    (log : list Event) :
  (exists r log',
     getManifest decodeURIComponent path_join w param log = (inl r, log')) /\
  (exists r log',
     getExcludes decodeURIComponent path_join w param log = (inl r, log')) /\
  (exists r log',
     getChanges decodeURIComponent path_join path_basename toISOString
       MONITOR_DIR w param log = (inl r, log')) /\
  (exists r log',
     postStop decodeURIComponent w param log = (inl r, log')) /\
  (exists r log',
     registryAdd path_join MONITOR_DIR w directory log = (inl r, log')) /\
  (exists r log',
     registryRemove path_join MONITOR_DIR w directory log = (inl r, log')) /\
  ((exists r log',
      getStatus decodeURIComponent path_join toISOString w param log =
        (inl r, log')) <->
   exists decoded, decodeURIComponent param = inl decoded) /\
  (forall e, decodeURIComponent param = inr e ->
     getStatus decodeURIComponent path_join toISOString w param log =
       (inr e, log)).
Proof.
  repeat (split; [apply tryCatch_replies|]).
  assert (forall e, decodeURIComponent param = inr e ->
     getStatus decodeURIComponent path_join toISOString w param log =
       (inr e, log)) as Hesc.
  { intros e He. unfold getStatus, tryCatch.
    rewrite !bind_run, !(normalizePathParam_fails _ _ _ He).
    by rewrite bind_run, (normalizePathParam_fails _ _ _ He). }
  split; [|exact Hesc]. split.
  - intros (r & log' & Hrun).
    destruct (decodeURIComponent param) as [decoded|e] eqn:Hd;
      [by exists decoded|].
    rewrite (Hesc e eq_refl) in Hrun. discriminate.
  - intros (decoded & Hd). unfold getStatus, tryCatch.
    match goal with
    | |- context [match ?m log with _ => _ end] =>
        destruct (m log) as [[r|e] log']
    end; [by eexists _, _|].
    rewrite bind_run, (normalizePathParam_ok _ _ _ _ Hd).
    by eexists _, _.
Qed.

(** X14. A parameter that cannot be decoded is answered with status 500
    and the message of the decoding error by the manifest, excludes,
    changes, start and stop handlers, and nothing is run or spawned. *)
Theorem undecodable_parameter (param e : str) (log : list Event) :
  decodeURIComponent param = inr e ->
  getManifest decodeURIComponent path_join w param log =
    (inl (Reply 500 (inr e)), log) /\
  getExcludes decodeURIComponent path_join w param log =
    (inl (Reply 500 (inr e)), log) /\
  getChanges decodeURIComponent path_join path_basename toISOString
    MONITOR_DIR w param log = (inl (Reply 500 (inr e)), log) /\
  postStart decodeURIComponent path_join MONITOR_DIR w param log =
    (inl (Reply 500 (Failure e)), log) /\
  postStop decodeURIComponent w param log =
    (inl (Reply 500 (Failure e)), log).
Proof.
  intros He.
  repeat split;
    unfold getManifest, getExcludes, getChanges, postStart, postStop,
      tryCatch;
    by rewrite bind_run, (normalizePathParam_fails _ _ _ He).
Qed.

(** X15. When the manifest of the directory is a file, the manifest query
    answers with status 200 and what [parseTextManifest] reads from it: the
    totals and the tree as parsed (the [|| 0] defaults never apply), the
    directory and the timestamp as parsed unless they are missing or
    empty, when the requested path and the current time stand in. When the
    manifest path is a directory, the answer has status 500. Nothing is
    done to the outside. *)
Theorem manifest_served (param decoded : str) (entry : FsEntry)
    (log : list Event) :
  decodeURIComponent param = inl decoded ->
  fs w !! path_join (absolute decoded) ".lhi_manifest" = Some entry ->
  getManifest decodeURIComponent path_join w param log =
    match entry with
    | File content _ =>
        let parsed := parseTextManifest content in
        (inl (Reply 200 (inl
           (mkManifestBody
              (match directory parsed with
               | Some (c :: d) => c :: d
               | _ => absolute decoded
               end)
              (Some match timestamp parsed with
                    | Some (c :: t) => c :: t
                    | _ => now w
                    end)
              (total_files parsed) (total_directories parsed)
              (tree parsed) None))), log)
    | Dir _ _ =>
        (inl (Reply 500
           (inr (list_ascii_of_string
                   "EISDIR: illegal operation on a directory, read"))), log)
    end.
Proof.
  intros Hd Hfs. unfold getManifest, tryCatch, mbind, M_bind.
  rewrite (normalizePathParam_ok _ _ _ _ Hd).
  unfold fs_access, fs_readFile. rewrite Hfs.
  destruct entry as [content t|names t]; [|reflexivity].
  cbv beta iota zeta delta [mret M_ret].
  assert (isCount (total_files (parseTextManifest content)) /\
          isCount (total_directories (parseTextManifest content)))
    as [Hf Hdirs].
  { unfold parseTextManifest. cbn [total_files total_directories].
    apply scanned_totals, scanned_fold, scanned_init. }
  rewrite (orZero_count _ Hf), (orZero_count _ Hdirs).
  unfold orElse.
  by destruct (directory (parseTextManifest content)) as [[|? ?]|];
    destruct (timestamp (parseTextManifest content)) as [[|? ?]|].
Qed.

(** X16. The stop request runs the two [pkill] commands for the directory,
    the one for [fswatch] first, and then answers that the monitor was
    stopped, whatever the commands print and whether or not anything was
    running. When a command cannot be run the answer has status 500 with
    its error, and a command after the failing one is not run. Nothing is
    spawned. *)
Theorem stop_runs_both (param decoded : str) (log : list Event) :
  decodeURIComponent param = inl decoded ->
  let watchPath := absolute decoded in
  postStop decodeURIComponent w param log =
    match shell w (pkillFswatchCommand watchPath) with
    | inr e =>
        (inl (Reply 500 (Failure e)),
         log ++ [Exec (pkillFswatchCommand watchPath)])
    | inl _ =>
        (inl match shell w (pkillMonitorCommand watchPath) with
             | inr e => Reply 500 (Failure e)
             | inl _ =>
                 Reply 200 (Success ("Monitor stopped for " ++ watchPath) None)
             end,
         log ++ [Exec (pkillFswatchCommand watchPath);
                 Exec (pkillMonitorCommand watchPath)])
    end.
Proof.
  intros Hd watchPath. unfold postStop, tryCatch.
  rewrite bind_run, (normalizePathParam_ok _ _ _ _ Hd).
  fold watchPath. unfold execAsync, emit. rewrite !bind_run.
  destruct (shell w (pkillFswatchCommand watchPath)) as [out1|e1];
    [|done].
  rewrite ret_run, !bind_run.
  destruct (shell w (pkillMonitorCommand watchPath)) as [out2|e2];
    rewrite <- app_assoc; reflexivity.
Qed.

(** X17. The request to remove a directory from the registry asks for a
    directory argument that is not empty, and for nothing else: unlike the
    request to add one, it runs the registry tool whether or not the path
    exists, once, and answers with the output of the tool, or with status
    500 and its error. Without an argument it answers with status 400 and
    runs nothing. *)
Theorem registryRemove_runs (directory : option str) (log : list Event) :
  registryRemove path_join MONITOR_DIR w directory log =
    match directory with
    | Some (c :: d) =>
        let cmd := registryRemoveCommand path_join MONITOR_DIR (c :: d) in
        (inl match shell w cmd with
             | inl stdout =>
                 Reply 200
                   (Success ("Directory removed: " ++ c :: d) (Some stdout))
             | inr e => Reply 500 (Failure e)
             end,
         log ++ [Exec cmd])
    | _ => (inl (Reply 400 (Failure "Directory path is required")), log)
    end.
Proof.
  destruct directory as [[|c d]|]; [done| |done].
  unfold registryRemove, tryCatch. cbn [JS.truthy negb].
  unfold execAsync, emit. rewrite !bind_run. cbv zeta.
  by destruct (shell w (registryRemoveCommand path_join MONITOR_DIR (c :: d))).
Qed.

(** X18. When the probe of the status query cannot be run, the answer
    still has status 200: it reports that nothing is running, with the
    error of the command; and whatever the probe gives, the status query
    spawns nothing and runs at most two commands, [pgrep] and then [ps]. *)
Theorem status_probe (param decoded : str) (log : list Event) :
  decodeURIComponent param = inl decoded ->
  let watchPath := absolute decoded in
  (forall e, shell w (pgrepCommand watchPath) = inr e ->
     getStatus decodeURIComponent path_join toISOString w param log =
       (inl (Reply 200
               (mkStatusBody false None watchPath None None (Some e))),
        log ++ [Exec (pgrepCommand watchPath)])) /\
  exists r more,
    getStatus decodeURIComponent path_join toISOString w param log =
      (inl r, log ++ Exec (pgrepCommand watchPath) :: map Exec more) /\
    length more <= 1.
Proof.
  intros Hd watchPath.
  assert (forall e, shell w (pgrepCommand watchPath) = inr e ->
     getStatus decodeURIComponent path_join toISOString w param log =
       (inl (Reply 200
               (mkStatusBody false None watchPath None None (Some e))),
        log ++ [Exec (pgrepCommand watchPath)])) as Hfail.
  { intros e He.
    unfold getStatus, tryCatch, mbind, M_bind, normalizePathParam.
    rewrite Hd. fold watchPath.
    unfold execAsync, mbind, M_bind, emit, mret, M_ret. by rewrite He. }
  split; [exact Hfail|].
  destruct (shell w (pgrepCommand watchPath)) as [stdout|e] eqn:Hsh.
  2:{ eexists _, nil. split; [by apply Hfail | simpl; lia]. }
  unfold getStatus, tryCatch, mbind, M_bind.
  rewrite (normalizePathParam_ok _ _ _ _ Hd). fold watchPath.
  unfold execAsync at 1. unfold mbind, M_bind, emit. rewrite Hsh.
  unfold mret at 1. unfold M_ret.
  unfold manifestMtime, tryCatch, fs_stat, mbind, M_bind.
  destruct (pidLines stdout) as [|pid0 rest] eqn:E.
  - unfold mret, M_ret.
    destruct (fs w !! path_join watchPath ".lhi_manifest");
      eexists _, nil; (split; [reflexivity | simpl; lia]).
  - cbn [length Nat.ltb Nat.leb andb].
    destruct (JS.truthy pid0).
    + unfold execAsync, mbind, M_bind, emit, mret, M_ret, throw.
      destruct (shell w (psCommand pid0)) as [psOut|e];
        destruct (fs w !! path_join watchPath ".lhi_manifest");
        eexists _, [psCommand pid0];
        (split; [rewrite <- app_assoc; reflexivity | simpl; lia]).
    + unfold mret, M_ret.
      destruct (fs w !! path_join watchPath ".lhi_manifest");
        eexists _, nil; (split; [reflexivity | simpl; lia]).
Qed.

End HandlerProperties.

(** ** The tree view *)

Lemma includes_spec s p :
  JS.includes s p = true <-> exists a b, s = a ++ p ++ b.
Proof.
  split.
  - induction s as [|c s IH]; cbn [JS.includes].
    + rewrite orb_false_r. intros H. apply startsWith_true in H.
      exists [], (drop (length p) []). exact H.
    + intros H. apply orb_true_iff in H as [H|H].
      * apply startsWith_true in H. by exists [], (drop (length p) (c :: s)).
      * destruct (IH H) as (a & b & ->). by exists (c :: a), b.
  - intros (a & b & ->). induction a as [|c a IH].
    + destruct (p ++ b) eqn:E; cbn [JS.includes app]; rewrite <- E;
        by rewrite startsWith_app.
    + cbn [JS.includes app]. by rewrite IH, orb_true_r.
Qed.

Lemma endsWith_spec s p :
  JS.endsWith s p = true -> exists a, s = a ++ p.
Proof.
  unfold JS.endsWith. intros H. apply startsWith_true in H.
  exists (rev (drop (length (rev p)) (rev s))).
  apply (f_equal (@rev _)) in H.
  by rewrite rev_involutive, rev_app_distr, rev_involutive in H.
Qed.

Lemma includes_nil s : JS.includes s [] = true.
Proof. apply includes_spec. by exists [], s. Qed.

Lemma removeStarPairs_cons a b s :
  UI.removeStarPairs (a :: b :: s) =
  if JS.eqc a "*" && JS.eqc b "*" then UI.removeStarPairs s
  else a :: UI.removeStarPairs (b :: s).
Proof. reflexivity. Qed.

Lemma removeStars_cons a s :
  UI.removeStars (a :: s) =
  if negb (JS.eqc a "*") then a :: UI.removeStars s else UI.removeStars s.
Proof. reflexivity. Qed.

Lemma removeStars_pairs_aux n : forall s,
  length s <= n -> UI.removeStars (UI.removeStarPairs s) = UI.removeStars s.
Proof.
  induction n as [|n IH]; intros s Hlen.
  { destruct s; [done | simpl in Hlen; lia]. }
  destruct s as [|a [|b s']]; [done..|].
  rewrite removeStarPairs_cons. simpl in Hlen.
  destruct (JS.eqc a "*") eqn:Ea; cbn [andb].
  - destruct (JS.eqc b "*") eqn:Eb.
    + rewrite IH by lia. by rewrite !removeStars_cons, Ea, Eb.
    + rewrite !(removeStars_cons a), Ea. cbn [negb].
      apply IH. simpl. lia.
  - rewrite !(removeStars_cons a), Ea. cbn [negb].
    rewrite IH by (simpl; lia). reflexivity.
Qed.

(** Removing the pairs of stars and then the single stars removes every
    star, and nothing else. *)
Lemma cleanPattern_stars p : UI.cleanPattern p = UI.removeStars p.
Proof. apply (removeStars_pairs_aux (length p)). lia. Qed.

(** X19. An entry is shown as excluded exactly when its path contains, as
    a piece of text, some pattern with its stars removed; the test for the
    end of the path adds nothing. *)
Theorem isExcluded_spec (excludePatterns : list str) (path : str) :
  UI.isExcluded excludePatterns path = true <->
  exists pattern a b,
    pattern ∈ excludePatterns /\ path = a ++ UI.removeStars pattern ++ b.
Proof.
  unfold UI.isExcluded. rewrite existsb_exists. split.
  - intros (p & Hp & H). exists p. cbv zeta in H.
    rewrite cleanPattern_stars in H.
    apply orb_true_iff in H as [H|H].
    + apply includes_spec in H as (a & b & ->).
      exists a, b. split; [by apply list_elem_of_In | done].
    + apply endsWith_spec in H as (a & ->).
      exists a, []. split; [by apply list_elem_of_In|].
      by rewrite app_nil_r.
  - intros (p & a & b & Hp & ->). exists p.
    split; [by apply list_elem_of_In|]. cbv zeta.
    rewrite cleanPattern_stars. apply orb_true_iff. left.
    apply includes_spec. by exists a, b.
Qed.

Lemma removeStars_id p : ("*"%char ∉ p) -> UI.removeStars p = p.
Proof.
  induction p as [|c p IH]; intros H; [done|].
  apply not_elem_of_cons in H as [Hc Hp]. rewrite removeStars_cons.
  assert (JS.eqc c "*" = false) as -> by (apply eqc_false; congruence).
  cbn [negb]. by rewrite IH.
Qed.

Lemma removeStars_all p :
  Forall (fun c => c = "*"%char) p -> UI.removeStars p = [].
Proof.
  induction 1 as [|c p -> _ IH]; [done|].
  by rewrite removeStars_cons, eqc_refl.
Qed.

(** X20. A pattern that consists of stars only marks every entry as
    excluded, whatever its path. *)
Theorem star_pattern_marks_all (excludePatterns : list str)
    (pattern path : str) :
  pattern ∈ excludePatterns -> Forall (fun c => c = "*"%char) pattern ->
  UI.isExcluded excludePatterns path = true.
Proof.
  intros Hin Hstars. unfold UI.isExcluded. apply existsb_exists.
  exists pattern. split; [by apply list_elem_of_In|]. cbv zeta.
  by rewrite cleanPattern_stars, removeStars_all, includes_nil.
Qed.

(** X21. A directory pattern, a name followed by a slash and without
    stars, marks the entries below the directory of that name, and does
    not mark the entry of the directory itself, whose path has no slash at
    its end. *)
Theorem directory_pattern_marks_contents (d : str) :
  ("*"%char ∉ d) ->
  UI.isExcluded [d ++ [SLASH]] d = false /\
  forall x, UI.isExcluded [d ++ [SLASH]] (d ++ SLASH :: x) = true.
Proof.
  intros Hd.
  assert (UI.cleanPattern (d ++ [SLASH]) = d ++ [SLASH]) as Hclean.
  { rewrite cleanPattern_stars. apply removeStars_id.
    intros H. apply elem_of_app in H as [H|H]; [done|].
    by apply list_elem_of_singleton in H. }
  unfold UI.isExcluded. cbn [existsb]. cbv zeta. rewrite Hclean. split.
  - rewrite orb_false_r. apply orb_false_iff. split.
    + apply not_true_is_false. intros H.
      apply includes_spec in H as (a & b & H).
      apply (f_equal (@length _)) in H. rewrite !length_app in H.
      simpl in H. lia.
    + apply not_true_is_false. intros H.
      apply endsWith_spec in H as (a & H).
      apply (f_equal (@length _)) in H. rewrite !length_app in H.
      simpl in H. lia.
  - intros x. rewrite orb_false_r. apply orb_true_iff. left.
    apply includes_spec. exists [], x. by rewrite <- app_assoc.
Qed.

(** The pieces of a split, each but the last followed by the separator,
    make up the text. *)
Lemma split_join sep s :
  exists init l,
    JS.split sep s = init ++ [l] /\
    s = flat_map (fun x => x ++ [sep]) init ++ l.
Proof.
  induction s as [|c s (init & l & Hsplit & Hs)].
  - by exists [], [].
  - cbn [JS.split]. destruct (JS.eqc c sep) eqn:E.
    + apply eqc_true in E as ->. exists ([] :: init), l.
      rewrite Hsplit. split; [done|]. cbn [flat_map app]. by rewrite <- Hs.
    + rewrite Hsplit. destruct init as [|i init]; cbn [app].
      * exists [], (c :: l). split; [done|]. by rewrite Hs.
      * exists ((c :: i) :: init), l. split; [done|].
        rewrite Hs. cbn [flat_map]. by rewrite <- !app_assoc.
Qed.

Lemma pop_split sep s :
  exists pre l, UI.pop (JS.split sep s) = Some l /\ s = pre ++ l /\
                (sep ∉ l).
Proof.
  destruct (split_join sep s) as (init & l & Hsplit & Hs).
  exists (flat_map (fun x => x ++ [sep]) init), l.
  unfold UI.pop. rewrite Hsplit, last_snoc. split; [done|]. split; [done|].
  pose proof (split_parts sep s) as Hparts. rewrite Hsplit in Hparts.
  apply Forall_app in Hparts as [_ Hl]. by apply Forall_cons in Hl as [Hl _].
Qed.

(** X22. The name an entry is shown with is fixed by the three cases of
    its path: a path without a slash is shown whole; a path with a name
    that is not empty after its last slash is shown as that name; a path
    that ends with a slash is shown whole. Hence the name is a trailing
    part of the path in every case, and it is empty for the empty path
    only. *)
Theorem displayName_spec (path : str) :
  (SLASH ∉ path -> UI.displayName path = path) /\
  (forall dir name, path = dir ++ SLASH :: name -> name <> [] ->
     SLASH ∉ name -> UI.displayName path = name) /\
  (forall dir, path = dir ++ [SLASH] -> UI.displayName path = path) /\
  (exists pre, path = pre ++ UI.displayName path) /\
  (path <> [] -> UI.displayName path <> []) /\
  (SLASH ∉ UI.displayName path \/ UI.displayName path = path).
Proof.
  assert (forall dir name, SLASH ∉ name ->
            UI.pop (JS.split SLASH (dir ++ SLASH :: name)) = Some name)
    as Hlast.
  { intros dir name Hname. unfold UI.pop.
    by rewrite split_app, (split_no_sep _ name Hname), last_snoc. }
  unfold UI.displayName.
  split; [|split; [|split]].
  - intros Hno. unfold UI.pop. rewrite (split_no_sep _ path Hno).
    cbn [last]. unfold orElse. by destruct path.
  - intros dir name -> Hne Hname. rewrite (Hlast dir name Hname).
    unfold orElse. by destruct name.
  - intros dir ->. by rewrite (Hlast dir [] (not_elem_of_nil _)).
  - destruct (pop_split SLASH path) as (pre & l & Hpop & Hs & Hl).
    rewrite Hpop. unfold orElse.
    split; [|split].
    + destruct l; [by exists [] | by exists pre].
    + intros Hne. by destruct l.
    + destruct l; [by right | by left].
Qed.

(** X23. With a directory selected and a tree that is not empty, the tree
    view shows one root node, a directory named after the selected
    directory, with the tree as its children; the selected directory
    always has a name. The wrapping adds no file: the number of file nodes
    is that of the tree, whatever is selected. *)
Theorem getTreeWithRoot_spec (selectedDir : option str)
    (tree : option (list TreeNode)) :
  (forall d t, selectedDir = Some d -> tree = Some t -> d <> [] -> t <> [] ->
     UI.getTreeWithRoot selectedDir tree =
       [mkNode (UI.displayName d) TDirectory None None (Some t)]) /\
  countLeaves (UI.getTreeWithRoot selectedDir tree) =
    countLeaves (default [] tree).
Proof.
  assert (forall d, d <> [] -> JS.truthy (UI.displayName d) = true) as Hname.
  { intros d Hd. unfold UI.displayName.
    destruct (pop_split SLASH d) as (pre & l & -> & Hs & Hl).
    unfold orElse. destruct l; by destruct d. }
  split.
  - intros d t -> -> Hd Ht. unfold UI.getTreeWithRoot, UI.getRootDirName.
    destruct t as [|e t]; [done|]. destruct d as [|c d]; [done|].
    cbn [JS.truthy negb]. by rewrite Hname.
  - unfold UI.getTreeWithRoot, UI.getRootDirName.
    destruct tree as [[|e t]|]; [done| |done].
    destruct selectedDir as [[|c d]|]; [done| |done].
    cbn [JS.truthy negb]. rewrite Hname by done. cbn [negb default].
    unfold countLeaves. cbn [nodes flat_map]. rewrite app_nil_r.
    rewrite nodesOf_setChildren || rewrite (nodesOf_inner _ (e :: t)) by done.
    reflexivity.
Qed.

(** ** The legacy handlers *)

Section LegacyProperties.

Variable decodeURIComponent : str -> str + str.
Variable path_join : str -> str -> str.
Variable w : World.
Variable pathTypeError : str.

Lemma absolute_id p : JS.startsWith p "/" = true -> absolute p = p.
Proof. intros H. unfold absolute. by rewrite H. Qed.

(** X24. With a default directory that is an absolute path, the legacy
    excludes query answers what the excludes query answers for that
    directory, and the legacy manifest query answers what the manifest
    query answers for it when the manifest path exists; without a manifest
    it answers with status 200, zero totals, an empty tree and its own
    message. Without a default directory both answer with status 500 and
    the message of the type error, and read nothing. *)
Theorem legacy_queries (default : option str) (param : str)
    (log : list Event) :
  (forall p, default = Some p -> decodeURIComponent param = inl p ->
     JS.startsWith p "/" = true ->
     legacyExcludes path_join w default pathTypeError log =
       getExcludes decodeURIComponent path_join w param log /\
     (is_Some (fs w !! path_join p ".lhi_manifest") ->
      legacyManifest path_join w default pathTypeError log =
        getManifest decodeURIComponent path_join w param log) /\
     (fs w !! path_join p ".lhi_manifest" = None ->
      legacyManifest path_join w default pathTypeError log =
        (inl (Reply 200 (inl (legacyManifestMissing p))), log))) /\
  (default = None ->
     legacyExcludes path_join w default pathTypeError log =
       (inl (Reply 500 (inr pathTypeError)), log) /\
     legacyManifest path_join w default pathTypeError log =
       (inl (Reply 500 (inr pathTypeError)), log)).
Proof.
  split.
  - intros p -> Hd Habs.
    unfold legacyExcludes, legacyManifest, getExcludes, getManifest,
      joinDefault, tryCatch, mbind, M_bind, normalizePathParam.
    rewrite Hd, (absolute_id p Habs).
    unfold fs_access, fs_readFile, mret, M_ret, throw. cbn [default].
    split; [|split].
    + destruct (fs w !! path_join p ".lhi_excludes") as [[c t|ns t]|];
        destruct (fs w !! path_join p ".gitignore") as [[c' t'|ns' t']|];
        reflexivity.
    + intros [entry ->]. by destruct entry.
    + by intros ->.
  - by intros ->.
Qed.

End LegacyProperties.

(** ** Compositions *)

Lemma visited_relative s :
  relativePath s -> visited (JS.split SLASH s) [] = properPrefixes s ++ [s].
Proof.
  intros Hrel. destruct (relative_paths s Hrel) as (h & t & Hs & _ & Hi & Hf).
  rewrite Hs, visited_split by done. by rewrite Hi, Hf.
Qed.

(** X25. For records with relative paths, whatever else they are, the
    paths of the nodes of the tree are exactly the paths of the records
    and their proper directory prefixes. *)
Theorem tree_paths_relative (files : list FileRecord) (p : str) :
  Forall (fun f => relativePath (f_path f)) files ->
  (p ∈ map n_path (nodes (buildTreeFromFiles files)) <->
   exists f, f ∈ files /\ p ∈ pathsOf f).
Proof.
  intros Hrel. unfold buildTreeFromFiles. rewrite fold_addFile_paths.
  rewrite Forall_forall in Hrel. unfold pathsOf. split.
  - intros [H|(f & Hf & H)]; [by apply elem_of_nil in H|].
    exists f. split; [done|]. by rewrite <- visited_relative by by apply Hrel.
  - intros (f & Hf & H). right. exists f. split; [done|].
    by rewrite visited_relative by by apply Hrel.
Qed.

(** X26. The entries that the tree view marks as excluded, with the
    patterns of an exclude file as the server parses it, are those whose
    path contains a line of the file that is kept, trimmed and with its
    stars removed. *)
Theorem excluded_by_file (content path : str) :
  UI.isExcluded (UI.patternsOf (parseExcludes content)) path = true <->
  exists line a b,
    line ∈ JS.split LF content /\ keptLine (JS.trim line) = true /\
    path = a ++ UI.removeStars (JS.trim line) ++ b.
Proof.
  unfold UI.isExcluded, UI.patternsOf. rewrite existsb_exists.
  rewrite parseExcludes_lines, map_map. cbn [pattern]. rewrite map_id.
  split.
  - intros (t & Ht & H). apply filter_In in Ht as [Hin Hkept].
    apply in_map_iff in Hin as (line & <- & Hline).
    cbv zeta in H. rewrite cleanPattern_stars in H.
    exists line.
    apply orb_true_iff in H as [H|H].
    + apply includes_spec in H as (a & b & ->).
      exists a, b. split; [by apply list_elem_of_In | done].
    + apply endsWith_spec in H as (a & ->).
      exists a, []. split; [by apply list_elem_of_In|].
      by rewrite app_nil_r.
  - intros (line & a & b & Hline & Hkept & ->). exists (JS.trim line). split.
    + apply filter_In. split; [|done]. apply in_map.
      by apply list_elem_of_In.
    + cbv zeta. rewrite cleanPattern_stars. apply orb_true_iff. left.
      apply includes_spec. by exists a, b.
Qed.

Section RegistryProperties.

Variable path_join : str -> str -> str.
Variable MONITOR_DIR : str.
Variable w : World.

(** X27. For a path that exists, the request to add a directory runs the
    registry tool once and answers with the output of the tool, or with
    status 500 and its error when the tool cannot be run. *)
Theorem registryAdd_runs (directory : str) (entry : FsEntry)
    (log : list Event) :
  directory <> [] -> fs w !! directory = Some entry ->
  let cmd := registryAddCommand path_join MONITOR_DIR directory in
  registryAdd path_join MONITOR_DIR w (Some directory) log =
    (inl match shell w cmd with
         | inl stdout =>
             Reply 200
               (Success ("Directory added: " ++ directory) (Some stdout))
         | inr e => Reply 500 (Failure e)
         end,
     log ++ [Exec cmd]).
Proof.
  intros Hne Hfs cmd. destruct directory as [|c d]; [done|].
  unfold registryAdd, tryCatch, mbind, M_bind, fs_access, execAsync,
    mbind, M_bind, emit, mret, M_ret, throw.
  cbn [JS.truthy negb]. rewrite Hfs. fold cmd.
  by destruct (shell w cmd).
Qed.

End RegistryProperties.

(** ** Header fields *)

Lemma replace_prefix s p :
  JS.startsWith s p = true -> JS.replace s p "" = drop (length p) s.
Proof. intros H. destruct s; simpl; by rewrite H. Qed.

Lemma last_cons_Some {A} (x : A) l :
  last (x :: l) = Some (default x (last l)).
Proof.
  revert x. induction l as [|y l IH]; intros x; [done|].
  change (last (x :: y :: l)) with (last (y :: l)). rewrite IH.
  by destruct l.
Qed.

Lemma scan_header_fields lines : forall st,
  s_timestamp (fold_left scanLine lines st) =
    match last (omap (headerValue "Timestamp:") lines) with
    | Some v => Some v
    | None => s_timestamp st
    end /\
  s_directory (fold_left scanLine lines st) =
    match last (omap (headerValue "Directory:") lines) with
    | Some v => Some v
    | None => s_directory st
    end.
Proof.
  induction lines as [|l ls IH]; intros st; [done|].
  cbn [fold_left]. destruct (IH (scanLine st l)) as [-> ->].
  destruct (scanLine_header st l) as [-> ->].
  assert (forall k, omap (headerValue k) (l :: ls) =
            match headerValue k l with
            | Some v => v :: omap (headerValue k) ls
            | None => omap (headerValue k) ls
            end) as Hcons by done.
  assert (forall k, headerValue k l =
            if JS.startsWith l k then Some (JS.trim (drop (length k) l))
            else None) as Hv by done.
  rewrite !Hcons, !Hv.
  destruct (JS.startsWith l "Timestamp:") eqn:Et.
  - rewrite (replace_prefix _ _ Et).
    assert (JS.startsWith l "Directory:" = false) as ->.
    { destruct l as [|c l]; [done|]. simpl in Et |- *.
      apply andb_true_iff in Et as [Et _]. apply eqc_true in Et as <-.
      reflexivity. }
    split; [|done]. rewrite last_cons_Some.
    by destruct (last (omap (headerValue "Timestamp:") ls)).
  - split; [done|].
    destruct (JS.startsWith l "Directory:") eqn:Ed; [|done].
    rewrite (replace_prefix _ _ Ed), last_cons_Some.
    by destruct (last (omap (headerValue "Directory:") ls)).
Qed.

(** X28. Whatever the manifest text is, the timestamp that
    [parseTextManifest] returns is the trimmed text after the keyword of
    the last line that starts with [Timestamp:], in whatever section that
    line is, and [null] without such a line; and likewise the directory,
    for the last line that starts with [Directory:]. *)
Theorem header_fields (content : str) :
  timestamp (parseTextManifest content) =
    last (omap (headerValue "Timestamp:") (JS.split LF content)) /\
  directory (parseTextManifest content) =
    last (omap (headerValue "Directory:") (JS.split LF content)).
Proof.
  unfold parseTextManifest. cbn [timestamp directory].
  destruct (scan_header_fields (JS.split LF content) initScan) as [-> ->].
  cbn [initScan s_timestamp s_directory].
  by destruct (last (omap (headerValue "Timestamp:") _)),
             (last (omap (headerValue "Directory:") _)).
Qed.

(** ** Instances *)

Lemma node_provenance_witness :
  let files := [mkFile "a/b.txt" TFile (JS.Int 3) "today"] in
  let e := mkNode "a/b.txt" TFile (Some (JS.Int 3)) (Some ("today" : str))
             None in
  madeOnTheWay files e \/ madeFor files e.
Proof.
  intros files e. apply (node_provenance files e).
  vm_compute. repeat constructor.
Defined.

Lemma repeated_records_change_nothing_witness :
  let f := mkFile "a/b.txt" TFile (JS.Int 3) "today" in
  buildTreeFromFiles ([f] ++ [f]) = buildTreeFromFiles [f].
Proof.
  intros f. apply (repeated_records_change_nothing [f] [f]).
  intros g Hg. exact Hg.
Defined.

Lemma parsed_tree_nodes_witness :
  let content : str :=
    "File Listing:" ++ LF :: DQUOTE :: "a.txt" ++ DQUOTE ::
    " (12 bytes) - Modified: today " in
  exists s m,
    Some (JS.Int 12) = Some s /\ isCount s /\
    Some ("today" : str) = Some m /\ JS.trim m = m /\
    Forall (fun c => JS.isLineTerminator c = false) m.
Proof.
  intros content.
  apply (parsed_tree_nodes content
           (mkNode "a.txt" TFile (Some (JS.Int 12)) (Some ("today" : str))
              None)).
  vm_compute. repeat constructor.
Defined.

Lemma no_listing_no_tree_witness :
  tree (parseTextManifest
          ("Timestamp: now" ++ LF :: DQUOTE :: "a.txt" ++ DQUOTE ::
           " (12 bytes) - Modified: today")) = [].
Proof.
  apply no_listing_no_tree. vm_compute. repeat constructor.
Defined.

Lemma manifest_round_trip_witness :
  let m := mkManifest
             [ "LHI Directory Monitor - MANIFEST" : str ]
             "2026-01-19 04:10:57 PM EST" "/Users/x/lhi_scripts" []
             [ mkEntry ".claude/PLAN.md" 4422 "2025-08-06 13:58:55 ";
               mkEntry ".claude/notes/a.md" 128 "2025-08-07 10:00:00" ]
             (Some (2, 0)%N) true in
  timestamp (parseTextManifest (manifestText m)) =
    Some ("2026-01-19 04:10:57 PM EST" : str) /\
  directory (parseTextManifest (manifestText m)) =
    Some ("/Users/x/lhi_scripts" : str) /\
  tree (parseTextManifest (manifestText m)) =
    buildTreeFromFiles
      [ mkFile ".claude/PLAN.md" TFile (JS.Int 4422) "2025-08-06 13:58:55";
        mkFile ".claude/notes/a.md" TFile (JS.Int 128) "2025-08-07 10:00:00" ].
Proof.
  intros m.
  assert (wellFormedManifest m) as H.
  { split; [|split; [|split; [|split]]].
    - repeat constructor; compute_done.
    - compute_done.
    - compute_done.
    - constructor.
    - repeat constructor; try discriminate; compute_done. }
  destruct (manifest_round_trip m H (List.Forall_nil _))
    as (Ht & Hd & _ & Hsafe).
  split; [exact Ht|]. split; [exact Hd|].
  apply Hsafe. repeat constructor; vm_compute; discriminate.
Defined.

Lemma change_log_round_trip_witness :
  extractChanges
    (joinLines [ "[t1][fswatch] Change detected: a.txt" : str;
                 "monitor started" : str ]) =
  rev (JS.sliceLast 5 [mkChange "t1" "a.txt"]).
Proof.
  apply (change_log_round_trip
           [ "[t1][fswatch] Change detected: a.txt" : str;
             "monitor started" : str ]
           [mkChange "t1" "a.txt"]).
  - discriminate.
  - repeat constructor; compute_done.
  - repeat constructor; try discriminate; compute_done.
  - reflexivity.
Defined.

Lemma extracted_changes_witness :
  let c := mkChange "t1" "a.txt" in
  wellFormedChange c /\
  exists line pre post,
    line ∈ JS.split LF "[t1][fswatch] Change detected: a.txt" /\
    isChangeLine line = true /\ line = pre ++ changeLine c ++ post.
Proof.
  intros c.
  apply (extracted_changes "[t1][fswatch] Change detected: a.txt" c).
  vm_compute. repeat constructor.
Defined.

Lemma undecodable_parameter_witness :
  let decode : str -> str + str := fun _ => inr ("URI malformed" : str) in
  let join := fun a b : str => a ++ SLASH :: b in
  getManifest decode join exampleWorld "%" [] =
    (inl (Reply 500 (inr ("URI malformed" : str))), []) /\
  getExcludes decode join exampleWorld "%" [] =
    (inl (Reply 500 (inr ("URI malformed" : str))), []) /\
  getChanges decode join (fun p => drop 1 p) JS.showN "/opt/monitor"
    exampleWorld "%" [] =
    (inl (Reply 500 (inr ("URI malformed" : str))), []) /\
  postStart decode join "/opt/monitor" exampleWorld "%" [] =
    (inl (Reply 500 (Failure "URI malformed")), []) /\
  postStop decode exampleWorld "%" [] =
    (inl (Reply 500 (Failure "URI malformed")), []).
Proof.
  intros decode join.
  exact (undecodable_parameter decode join (fun p => drop 1 p) JS.showN
           "/opt/monitor" exampleWorld "%" "URI malformed" [] eq_refl).
Defined.

Lemma manifest_served_witness :
  let join := fun a b : str => a ++ SLASH :: b in
  let world :=
    mkWorld (<[ list_ascii_of_string "/w/.lhi_manifest" :=
                  File ("Directory: /w" ++ LF :: "File Listing:" ++ LF ::
                        DQUOTE :: "a.txt" ++ DQUOTE ::
                        " (12 bytes) - Modified: today") 7 ]> ∅)
            (fun _ => inr (list_ascii_of_string "Command failed"))
            "2026-01-19T21:10:57.000Z" in
  exists body,
    getManifest inl join world "w" [] = (inl (Reply 200 (inl body)), []) /\
    mb_directory body = "/w" /\ mb_total_files body = JS.Int 1.
Proof.
  intros join world.
  pose proof (manifest_served inl join world "w" "w"
                (File ("Directory: /w" ++ LF :: "File Listing:" ++ LF ::
                       DQUOTE :: "a.txt" ++ DQUOTE ::
                       " (12 bytes) - Modified: today") 7)
                [] eq_refl eq_refl) as H.
  eexists. split; [exact H|]. split; reflexivity.
Defined.

Lemma stop_runs_both_witness :
  postStop inl exampleWorld "w" [] =
    (inl (Reply 500 (Failure "Command failed")),
     [Exec (pkillFswatchCommand "/w")]).
Proof. exact (stop_runs_both inl exampleWorld "w" "w" [] eq_refl). Defined.

Lemma status_probe_witness :
  exists r more,
    getStatus inl (fun a b => a ++ SLASH :: b) JS.showN exampleWorld "w" [] =
      (inl r, [] ++ Exec (pgrepCommand "/w") :: map Exec more) /\
    length more <= 1.
Proof.
  exact (proj2 (status_probe inl (fun a b => a ++ SLASH :: b) JS.showN
                  exampleWorld "w" "w" [] eq_refl)).
Defined.

Lemma star_pattern_marks_all_witness :
  UI.isExcluded [ "**" : str ] "src/index.tsx" = true.
Proof.
  apply (star_pattern_marks_all [ "**" : str ] "**" "src/index.tsx").
  - repeat constructor.
  - repeat constructor.
Defined.

Lemma directory_pattern_marks_contents_witness :
  UI.isExcluded [ "node_modules" ++ [SLASH] ] "node_modules" = false /\
  forall x,
    UI.isExcluded [ "node_modules" ++ [SLASH] ] ("node_modules" ++ SLASH :: x)
      = true.
Proof.
  apply (directory_pattern_marks_contents "node_modules"). compute_done.
Defined.

Lemma tree_paths_relative_witness :
  let files := [mkFile "a/b.txt" TFile (JS.Int 3) "today"] in
  ("a" : str) ∈ map n_path (nodes (buildTreeFromFiles files)) <->
  exists f, f ∈ files /\ ("a" : str) ∈ pathsOf f.
Proof.
  intros files. apply (tree_paths_relative files "a").
  repeat constructor. discriminate.
Defined.

Lemma registryAdd_runs_witness :
  let join := fun a b : str => a ++ SLASH :: b in
  registryAdd join "/opt/monitor" exampleWorld (Some ("/opt/monitor/logs" : str))
    [] =
    (inl (Reply 500 (Failure "Command failed")),
     [Exec (registryAddCommand join "/opt/monitor" "/opt/monitor/logs")]).
Proof.
  intros join.
  exact (registryAdd_runs join "/opt/monitor" exampleWorld
           "/opt/monitor/logs"
           (Dir [ "ldm_w_1" : str; "ldm_w_2" : str; "other" : str ] 1) []
           ltac:(discriminate) eq_refl).
Defined.
